(** * MIDAS engine: boundary resolution, step kernel, double buffering, groups

    Shallow embedding of [Programs/Python/MIDAS/engine.py], and of the
    display update of [Programs/Python/MIDAS/animation.py].

    Conventions of the embedding
    - a [float32] is an element of [R]: rounding, signed zeros, infinities
      and NaN are not represented.  Where the source produces a value that
      is not a real number (a division by zero, [math.asin] outside
      [-1, 1]) or reads a local that was never assigned, the embedded
      function returns [None];
    - numpy arrays are lists (of rows), with the column count kept beside
      the rows so that an empty [(0, dim)] array still has a shape;
    - in the kernel a read or a write outside an array has no result
      either: the lane returns [None], whatever the device would do;
    - [kwargs] is a finite map from keyword to value;
    - Python exceptions are values of [exn]; the methods of [Engine] that
      mutate [self.agents] return the state reached when the exception
      was raised;
    - a comparison [==] in which a numpy array takes part raises
      [ValueError], as the truth value of an array of several elements
      does. *)

From Stdlib Require Import Reals Lra Lia RNsatz Ascii String.
From stdpp Require Import base option list gmap strings pretty.

Open Scope R_scope.

(** ** Complex numbers, as [cmath] uses them *)

Record complex : Type := Complex { real : R; imag : R }.

Definition Cadd (a b : complex) : complex :=
  Complex (real a + real b) (imag a + imag b).

Definition Csub (a b : complex) : complex :=
  Complex (real a - real b) (imag a - imag b).

Definition Cmul (a b : complex) : complex :=
  Complex (real a * real b - imag a * imag b)
          (real a * imag b + imag a * real b).

(** A float operand of a complex operation is promoted to [x + 0j]. *)
Definition RtoC (x : R) : complex := Complex x 0.

(** The literal [1j]. *)
Definition Cj : complex := Complex 0 1.

(** [abs(z)] *)
Definition Cabs (z : complex) : R := sqrt (real z * real z + imag z * imag z).

(** [math.atan2(y, x)], with values in (-pi, pi]. *)
Definition atan2 (y x : R) : R :=
  if Rlt_dec 0 x then atan (y / x)
  else if Rlt_dec x 0 then
    (if Rle_dec 0 y then atan (y / x) + PI else atan (y / x) - PI)
  else if Rlt_dec 0 y then PI / 2
  else if Rlt_dec y 0 then - (PI / 2)
  else 0.

(** [cmath.phase(z)] *)
Definition phase (z : complex) : R := atan2 (imag z) (real z).

(** [cmath.rect(r, phi)] *)
Definition rect (r phi : R) : complex := Complex (r * cos phi) (r * sin phi).

(** [cmath.exp(z)] *)
Definition Cexp (z : complex) : complex :=
  Complex (exp (real z) * cos (imag z)) (exp (real z) * sin (imag z)).

(** [cmath.exp(1j*x)] for a float [x], the rotation used by the kernel. *)
Definition expj (x : R) : complex := Cexp (Cmul Cj (RtoC x)).

(** Truth value of a float in a condition: anything but zero. *)
Definition truthy (x : R) : bool := if Req_dec_T x 0 then false else true.

Definition Rgtb (x y : R) : bool := if Rgt_dec x y then true else false.
Definition Rltb (x y : R) : bool := if Rlt_dec x y then true else false.
Definition Reqb (x y : R) : bool := if Req_dec_T x y then true else false.

(** [a / b] on floats; a zero divisor gives no real number. *)
Definition float_div (a b : R) : option R :=
  if Req_dec_T b 0 then None else Some (a / b).

(** [math.asin(x)]; outside [-1, 1] there is no real result. *)
Definition math_asin (x : R) : option R :=
  if Rle_dec (-1) x then (if Rle_dec x 1 then Some (asin x) else None)
  else None.

(** ** Device function [assign_2d] *)

(** Crossing angle of the reflexive circular branch:
    [phi = phase(zv) + asin((z0.imag*cos(phase(zv)) - z0.real*sin(phase(zv)))/arena_X)] *)
Definition crossing_phi (z0 zv : complex) (arena_X : R) : option R :=
  q ← float_div (imag z0 * cos (phase zv) - real z0 * sin (phase zv)) arena_X;
  a ← math_asin q;
  Some (phase zv + a).

(** The reflexive circular branch: new [z1] and new [zv]. *)
Definition reflexive_circular (z0 zv : complex) (arena_X : R)
  : option (complex * complex) :=
  phi ← crossing_phi z0 zv arena_X;
  let zc := rect arena_X phi in
  let z1 := Cadd zc (Cmul (RtoC (Cabs zv - Cabs (Csub zc z0)))
                          (expj (PI + 2 * phi - phase zv))) in
  let zv' := Cmul zv (expj (PI - 2 * (phase zv - phi))) in
  Some (z1, zv').

(** One axis of the rectangular arena: [(coordinate, velocity component)]. *)
Definition rect_axis (c v half periodic : R) : R * R :=
  if truthy periodic then
    (if Rgtb c half then c - 2 * half
     else if Rltb c (- half) then c + 2 * half
     else c, v)
  else
    if Rgtb c half then (2 * half - c, - v)
    else if Rltb c (- half) then (- 2 * half - c, - v)
    else (c, v).

(** [assign_2d(z0, z1, zv, arena, arena_X, arena_Y, periodic_X, periodic_Y)]
    returns [(px, py, vx, vy)].  When [arena] is neither 0 nor 1 no branch
    binds [px]: the result is [None]. *)
Definition assign_2d (z0 z1 zv : complex)
    (arena arena_X arena_Y periodic_X periodic_Y : R) : option (R * R * R * R) :=
  if Reqb arena 0 then
    if Rgtb (Cabs z1) arena_X then
      if truthy periodic_X then
        let z1' := rect (2 * arena_X - Cabs z1) (phase z1 + PI) in
        Some (real z1', imag z1', real zv, imag zv)
      else
        '(z1', zv') ← reflexive_circular z0 zv arena_X;
        Some (real z1', imag z1', real zv', imag zv')
    else Some (real z1, imag z1, real zv, imag zv)
  else if Reqb arena 1 then
    let '(px, vx) := rect_axis (real z1) (real zv) arena_X periodic_X in
    let '(py, vy) := rect_axis (imag z1) (imag zv) arena_Y periodic_Y in
    Some (px, py, vx, vy)
  else None.

(** ** Arrays *)

(** A two-dimensional numpy array: [shape = (length rows, ncols)]. *)
Record ndarray : Type := NDArray { ncols : nat; rows : list (list R) }.

Definition shape0 (a : ndarray) : nat := length (rows a).

(** [a[i,j]]; no value outside the array. *)
Definition getitem (a : ndarray) (i j : nat) : option R :=
  r ← rows a !! i; r !! j.

(** The array [a] with [x] in cell [(i, j)]; [a] itself when it has no
    such cell. *)
Definition put (a : ndarray) (i j : nat) (x : R) : ndarray :=
  NDArray (ncols a) (alter (λ r, <[j:=x]> r) i (rows a)).

(** [a[i,j] = x]; no array when [a] has no cell [(i, j)]. *)
Definition setitem (a : ndarray) (i j : nat) (x : R) : option ndarray :=
  _ ← getitem a i j; Some (put a i j x).

(** ** The CUDA kernel *)

(** [for j in range(dim): p1[i,j] = p0[i,j]] *)
Fixpoint copy_row (p0 p1 : ndarray) (i : nat) (js : list nat) : option ndarray :=
  match js with
  | [] => Some p1
  | j :: js' => x ← getitem p0 i j; p1 ← setitem p1 i j x; copy_row p0 p1 i js'
  end.

(** What the kernel computes between its two [match dim], in every
    dimension: [zv = complex(v0[i,0], v0[i,1])] and
    [an = noise[i,1]*xoroshiro128p_normal_float32(rng, i)], the call
    returning [sample]. *)
Definition velocity_and_noise (v0 noise : ndarray) (sample : R) (i : nat)
  : option (complex * R) :=
  v0x ← getitem v0 i 0; v0y ← getitem v0 i 1;
  n1 ← getitem noise i 1;
  Some (Complex v0x v0y, n1 * sample).

(** One lane of [CUDA_step], for a thread index [i < p0.shape[0]].

    [sample] is the value [xoroshiro128p_normal_float32(rng, i)] returns.
    [unbound_da] is what an evaluation of the local [da] yields on a lane
    where no assignment to it was executed (the only assignment is under
    [if atype[i]==1]): [None] when such a read has no value, [Some d] when
    the compiled kernel reads back a number [d].

    The two [match dim] of the kernel are one [match] here: the cases of
    the first (the reads of [param]) are followed by what the kernel does
    between the two, and only [case 2] of the second does anything.  A
    read or a write outside an array, like a read of a local without a
    value, leaves the lane without a result.  The result is the
    destination pair after the writes of this lane. *)
Definition CUDA_step_lane (unbound_da : option R) (atype : list nat)
    (p0 v0 p1 v1 noise : ndarray) (param : list R) (sample : R) (i : nat)
  : option (ndarray * ndarray) :=
  let dim := ncols p0 in
  t ← atype !! i;
  (* Fixed points *)
  p1 ← (if Nat.eqb t 0 then copy_row p0 p1 i (seq 0 dim) else Some p1);
  (* Deserialization of the parameters *)
  arena ← param !! 0%nat;
  match dim with
  | 1%nat =>
      arena_X ← param !! 1%nat;
      periodic_X ← param !! 2%nat;
      _ ← velocity_and_noise v0 noise sample i;
      Some (p1, v1)
  | 2%nat =>
      arena_X ← param !! 1%nat; arena_Y ← param !! 2%nat;
      periodic_X ← param !! 3%nat; periodic_Y ← param !! 4%nat;
      '(zv, an) ← velocity_and_noise v0 noise sample i;
      (* Blind agents *)
      da ← (if Nat.eqb t 1 then Some 0 else unbound_da);
      (* Reorient *)
      let zv := Cmul zv (expj (da + an)) in
      (* Candidate position and velocity *)
      p0x ← getitem p0 i 0; p0y ← getitem p0 i 1;
      let z0 := Complex p0x p0y in
      let z1 := Cadd z0 zv in
      (* Boundary conditions *)
      '(px, py, vx, vy) ← assign_2d z0 z1 zv arena arena_X arena_Y
                                     periodic_X periodic_Y;
      p1 ← setitem p1 i 0 px; p1 ← setitem p1 i 1 py;
      v1 ← setitem v1 i 0 vx; v1 ← setitem v1 i 1 vy;
      Some (p1, v1)
  | 3%nat =>
      arena_X ← param !! 1%nat; arena_Y ← param !! 2%nat;
      arena_Z ← param !! 3%nat;
      periodic_X ← param !! 4%nat; periodic_Y ← param !! 5%nat;
      periodic_Z ← param !! 6%nat;
      _ ← velocity_and_noise v0 noise sample i;
      Some (p1, v1)
  | _ =>
      _ ← velocity_and_noise v0 noise sample i;
      Some (p1, v1)
  end.

(** The generator of [numba.cuda.random], which is not part of this
    repository: [init_state seed i] is state [i] of
    [create_xoroshiro128p_states(n, seed)], and [normal_float32] is
    [xoroshiro128p_normal_float32] on one state, returning the sample and
    the advanced state. *)
Record generator : Type := Generator {
  rng_state : Type;
  init_state : Z → nat → rng_state;
  normal_float32 : rng_state → R * rng_state
}.

Definition create_xoroshiro128p_states (G : generator) (n : nat) (seed : Z)
  : list (rng_state G) := map (init_state G seed) (seq 0 n).

(** The threads of a launch, in index order.  Lanes write disjoint rows, so
    the order in which they are run does not show in the result.  A thread
    with [i >= p0.shape[0]] does nothing. *)
Fixpoint CUDA_step_threads (G : generator) (unbound_da : option R)
    (threads : list nat) (atype : list nat) (p0 v0 p1 v1 noise : ndarray)
    (param : list R) (rng : list (rng_state G))
  : option (ndarray * ndarray * list (rng_state G)) :=
  match threads with
  | [] => Some (p1, v1, rng)
  | i :: rest =>
      if Nat.ltb i (shape0 p0) then
        s ← rng !! i;
        let '(sample, s') := normal_float32 G s in
        '(p1', v1') ← CUDA_step_lane unbound_da atype p0 v0 p1 v1 noise
                                      param sample i;
        CUDA_step_threads G unbound_da rest atype p0 v0 p1' v1' noise param
                          (<[i:=s']> rng)
      else
        CUDA_step_threads G unbound_da rest atype p0 v0 p1 v1 noise param rng
  end.

(** [CUDA_step[gridDim, blockDim](i, atype, p0, v0, p1, v1, noise, group, param, rng)]:
    reads [(p0, v0)], writes [(p1, v1)]. *)
Definition CUDA_step (G : generator) (unbound_da : option R)
    (gridDim blockDim : nat) (atype : list nat) (p0 v0 p1 v1 noise : ndarray)
    (param : list R) (rng : list (rng_state G))
  : option (ndarray * ndarray * list (rng_state G)) :=
  CUDA_step_threads G unbound_da (seq 0 (gridDim * blockDim)) atype
                    p0 v0 p1 v1 noise param rng.

(** ** Exceptions *)

Inductive exn : Type :=
  | KeyError (key : string)
  | IndexError
  | TypeError
  | ValueError
  | AttributeError (name : string)
  | UnboundLocalError (name : string).

Definition result (A : Type) : Type := (exn + A)%type.

Definition rbind {A B : Type} (m : result A) (f : A → result B) : result B :=
  match m with inl e => inl e | inr a => f a end.

Notation "'letE' x := y 'in' z" := (rbind y (λ x, z))
  (at level 10, x name, y at level 100, z at level 200, only parsing).

Definition raises {A : Type} (m : result A) : Prop := ∃ e, m = inl e.

(** [l[k]] on a Python list. *)
Definition list_index {A : Type} (l : list A) (k : nat) : result A :=
  match l !! k with Some x => inr x | None => inl IndexError end.

(** ** Geometry *)

(** The value of [periodic]: one boolean (circular arena) or one boolean
    per axis (rectangular arena). *)
Inductive periodicity : Type :=
  | PBool (b : bool)
  | PList (l : list bool).

(** [periodic] is [None] when the constructor did not set the attribute. *)
Record Geometry : Type := MkGeometry {
  dimension : nat;
  arena : string;
  arena_shape : list R;
  periodic : option periodicity
}.

(** [Geometry(dimension, **kwargs)], with the keywords it reads. *)
Definition Geometry_init (dimension : nat) (kw_arena : option string)
    (kw_shape : option (list R)) (kw_periodic : option periodicity) : Geometry :=
  let arena := default "rectangular"%string kw_arena in
  MkGeometry dimension arena
    (default (replicate dimension 1) kw_shape)
    (if String.eqb arena "circular" then Some (default (PBool true) kw_periodic)
     else if String.eqb arena "rectangular"
          then Some (default (PList (replicate dimension true)) kw_periodic)
     else None).

(** ** Agents *)

(** Values that may be passed by keyword. *)
Inductive atom : Type :=
  | ANone
  | AStr (s : string)
  | ANum (x : R)
  | AVec (l : list R)
  | AArr (a : ndarray).

Inductive pyval : Type :=
  | Atom (a : atom)
  | Dict (d : gmap string atom).

Record Agents : Type := MkAgents {
  N_agents : nat;
  atype : list nat;
  pos : ndarray;
  vel : ndarray;
  noise : ndarray;
  N_groups : nat;
  group_names : list pyval;
  group : list nat
}.

Definition atypes : list string :=
  ["fixed"; "blind"; "ripo"; "rinno"]%string.

(** [Agents(dimension)] *)
Definition Agents_init (dimension : nat) : Agents :=
  MkAgents 0 [] (NDArray dimension []) (NDArray dimension [])
           (NDArray dimension []) 0 [] [].

(** ** Engine *)

(** The device side, once [run] has prepared it. *)
Record CUDA (G : generator) : Type := MkCUDA {
  blockDim : nat;
  gridDim : nat;
  param : list R;
  cp0 : ndarray;
  cv0 : ndarray;
  cp1 : ndarray;
  cv1 : ndarray;
  catype : list nat;
  cnoise : ndarray;
  cgroup : list nat;
  rng : list (rng_state G)
}.
Arguments MkCUDA {G}.
Arguments blockDim {G}.
Arguments gridDim {G}.
Arguments param {G}.
Arguments cp0 {G}.
Arguments cv0 {G}.
Arguments cp1 {G}.
Arguments cv1 {G}.
Arguments catype {G}.
Arguments cnoise {G}.
Arguments cgroup {G}.
Arguments rng {G}.

(** [steps] is the total number of steps ([1] after construction); the
    unbounded loop of [steps = None] is not represented. *)
Record Engine : Type := MkEngine {
  geom : Geometry;
  agents : Agents;
  steps : nat
}.

(** [Engine(dimension, **kwargs)] *)
Definition Engine_init (dimension : nat) (kw_arena : option string)
    (kw_shape : option (list R)) (kw_periodic : option periodicity) : Engine :=
  MkEngine (Geometry_init dimension kw_arena kw_shape kw_periodic)
           (Agents_init dimension) 1.

(** [cuda.device_array((n, d), np.float32)]: an array of that shape whose
    cells hold whatever the allocated memory [mem] held. *)
Definition device_array (mem : nat → nat → R) (n d : nat) : ndarray :=
  NDArray d (map (λ i, map (mem i) (seq 0 d)) (seq 0 n)).

Definition bool_to_float (b : bool) : R := if b then 1 else 0.

(** [0 if self.geom.arena=='circular' else 1] *)
Definition arena_code (g : Geometry) : R :=
  if String.eqb (arena g) "circular" then 0 else 1.

(** [self.geom.arena_shape[k]/2] *)
Definition arena_size (g : Geometry) (k : nat) : result R :=
  letE s := list_index (arena_shape g) k in inr (s / 2).

(** [self.geom.periodic if self.geom.arena=='circular' else self.geom.periodic[k]],
    stored into a float32 cell. *)
Definition arena_periodicity (g : Geometry) (k : nat) : result R :=
  match periodic g with
  | None => inl (AttributeError "periodic")
  | Some p =>
      if String.eqb (arena g) "circular" then
        match p with
        | PBool b => inr (bool_to_float b)
        | PList _ => inl ValueError
        end
      else
        match p with
        | PBool _ => inl TypeError
        | PList l => letE b := list_index l k in inr (bool_to_float b)
        end
  end.

(** Parameter serialization of [run]. *)
Definition serialize_param (g : Geometry) : result (list R) :=
  match dimension g with
  | 1%nat =>
      letE x := arena_size g 0 in
      letE px := arena_periodicity g 0 in
      inr [arena_code g; x; px]
  | 2%nat =>
      letE x := arena_size g 0 in letE y := arena_size g 1 in
      letE px := arena_periodicity g 0 in letE py := arena_periodicity g 1 in
      inr [arena_code g; x; y; px; py]
  | 3%nat =>
      letE x := arena_size g 0 in letE y := arena_size g 1 in letE z := arena_size g 2 in
      letE px := arena_periodicity g 0 in letE py := arena_periodicity g 1 in
      letE pz := arena_periodicity g 2 in
      inr [arena_code g; x; y; z; px; py; pz]
  | _ => inl (UnboundLocalError "param")
  end.

(** The part of [run] before the main loop: CUDA preparation and parameter
    serialization.  [mem_p1] and [mem_v1] are the contents of the memory
    that the two [device_array] calls allocate. *)
Definition run_setup (G : generator) (mem_p1 mem_v1 : nat → nat → R)
    (e : Engine) : result (CUDA G) :=
  let a := agents e in
  let blockDim := 32%nat in
  let gridDim := ((N_agents a + (blockDim - 1)) / blockDim)%nat in
  let rng := create_xoroshiro128p_states G (blockDim * gridDim) 0%Z in
  let p1 := device_array mem_p1 (N_agents a) (dimension (geom e)) in
  let v1 := device_array mem_v1 (N_agents a) (dimension (geom e)) in
  letE param := serialize_param (geom e) in
  inr (MkCUDA blockDim gridDim param (pos a) (vel a) p1 v1
              (atype a) (noise a) (group a) rng).

(** [Engine.step(i)]: launch the kernel, then copy the written pair back
    to [self.agents.pos] and [self.agents.vel]. *)
Definition Engine_step (G : generator) (unbound_da : option R) (i : nat)
    (st : Agents * CUDA G) : option (Agents * CUDA G) :=
  let '(a, c) := st in
  if negb (Nat.eqb (i mod 2) 0) then
    '(p1', v1', rng') ← CUDA_step G unbound_da (gridDim c) (blockDim c)
        (catype c) (cp0 c) (cv0 c) (cp1 c) (cv1 c) (cnoise c) (param c) (rng c);
    Some (MkAgents (N_agents a) (atype a) p1' v1' (noise a)
                   (N_groups a) (group_names a) (group a),
          MkCUDA (blockDim c) (gridDim c) (param c) (cp0 c) (cv0 c) p1' v1'
                 (catype c) (cnoise c) (cgroup c) rng')
  else
    '(p0', v0', rng') ← CUDA_step G unbound_da (gridDim c) (blockDim c)
        (catype c) (cp1 c) (cv1 c) (cp0 c) (cv0 c) (cnoise c) (param c) (rng c);
    Some (MkAgents (N_agents a) (atype a) p0' v0' (noise a)
                   (N_groups a) (group_names a) (group a),
          MkCUDA (blockDim c) (gridDim c) (param c) p0' v0' (cp1 c) (cv1 c)
                 (catype c) (cnoise c) (cgroup c) rng').

(** [while i < self.steps: self.step(i); i += 1], with [n] steps left. *)
Fixpoint main_loop (G : generator) (unbound_da : option R) (n i : nat)
    (st : Agents * CUDA G) : option (Agents * CUDA G) :=
  match n with
  | O => Some st
  | S n' => st' ← Engine_step G unbound_da i st;
            main_loop G unbound_da n' (S i) st'
  end.

(** [Engine.run()] without an animation: an exception of the setup, or the
    outcome of the main loop started at [i = 0]. *)
Definition Engine_run (G : generator) (unbound_da : option R)
    (mem_p1 mem_v1 : nat → nat → R) (e : Engine)
  : result (option (Agents * CUDA G)) :=
  letE c := run_setup G mem_p1 mem_v1 e in
  inr (main_loop G unbound_da (steps e) 0 (agents e, c)).

(** ** Group creation *)

#[global] Instance R_eq_dec : EqDecision R := Req_dec_T.
#[global] Instance ndarray_eq_dec : EqDecision ndarray.
Proof. solve_decision. Defined.
#[global] Instance atom_eq_dec : EqDecision atom.
Proof. solve_decision. Defined.
#[global] Instance pyval_eq_dec : EqDecision pyval.
Proof. solve_decision. Defined.

(** [str.lower()], on ASCII letters. *)
Definition ascii_lower (c : ascii) : ascii :=
  let n := nat_of_ascii c in
  if (Nat.leb 65 n && Nat.leb n 90)%bool then ascii_of_nat (n + 32) else c.

Fixpoint lower (s : string) : string :=
  match s with
  | EmptyString => EmptyString
  | String c s' => String (ascii_lower c) (lower s')
  end.

(** [l.index(x)]: the first position of [x], or no position. *)
Definition index_of {A : Type} `{EqDecision A} (x : A) (l : list A) : option nat :=
  fst <$> list_find (λ y, y = x) l.

(** The draws that numpy's generators hand out during one call:
    [np.random.rand(n, d)], the two successive [np.random.rand(n)] of the
    circular case, and [multivariate_normal(zeros(d), eye(d), size=n)]. *)
Record np_random : Type := MkRandom {
  rand : nat → nat → list (list R);
  rand_u1 : nat → list R;
  rand_u2 : nat → list R;
  multivariate_normal : nat → nat → list (list R)
}.

(** [ptype in [None, 'random', 'shuffle']] *)
Definition is_random_directive (ptype : atom) : bool :=
  match ptype with
  | ANone => true
  | AStr s => (String.eqb s "random" || String.eqb s "shuffle")%bool
  | _ => false
  end.

(** [pos = (np.random.rand(n, dim)-1/2)], then [pos[:,d] *= arena_shape[d]]
    for every [d] in [range(dim)]. *)
Definition uniform_box (rnd : np_random) (g : Geometry) (n : nat) : result ndarray :=
  if decide (dimension g ≤ length (arena_shape g))%nat then
    inr (NDArray (dimension g)
           (map (λ r, zip_with Rmult (map (λ u, u - 1 / 2) r) (arena_shape g))
                (rand rnd n (dimension g))))
  else inl IndexError.

(** The two-dimensional circular case of [set_initial_positions]. *)
Definition uniform_disc (rnd : np_random) (g : Geometry) (n : nat) : result ndarray :=
  letE s := list_index (arena_shape g) 0 in
  inr (NDArray 2
         (zip_with (λ u1 u2, [sqrt u2 * cos (2 * PI * u1) * s / 2;
                              sqrt u2 * sin (2 * PI * u1) * s / 2])
                   (rand_u1 rnd n) (rand_u2 rnd n))).

(** [Geometry.set_initial_positions(ptype, n)]; [pos] is unbound at the
    [return] when no branch assigned it. *)
Definition set_initial_positions (rnd : np_random) (g : Geometry)
    (ptype : atom) (n : nat) : result ndarray :=
  if is_random_directive ptype then
    if String.eqb (arena g) "rectangular" then uniform_box rnd g n
    else if String.eqb (arena g) "circular" then
      match dimension g with
      | 2%nat => uniform_disc rnd g n
      | _ => uniform_box rnd g n
      end
    else inl (UnboundLocalError "pos")
  else inl (UnboundLocalError "pos").

(** The rows that a group contributes to a column of [Agents]: a
    two-dimensional array, or an array of another rank (its content plays
    no role: [np.concatenate] rejects it). *)
Inductive block : Type :=
  | Block2 (a : ndarray)
  | BlockOther.

(** One row of [speeds[:,None]*tmp/np.sqrt(np.sum(tmp**2, axis=1))[:,None]].
    A draw of norm zero, whose quotient is not a real number, is not
    distinguished. *)
Definition scaled (s : R) (t : list R) : list R :=
  map (λ x, s * x / sqrt (foldr Rplus 0 (map (λ y, y * y) t))) t.

(** [Geometry.set_initial_velocities(ptype, n, speeds)], with numpy's
    broadcasting of [speeds[:,None]] against the [(n, dim)] draw. *)
Definition set_initial_velocities (rnd : np_random) (g : Geometry)
    (ptype : atom) (n : nat) (speeds : atom) : result block :=
  if is_random_directive ptype then
    let tmp := multivariate_normal rnd n (dimension g) in
    match speeds with
    | AVec l =>
        if decide (length l = length tmp) then
          inr (Block2 (NDArray (dimension g) (zip_with scaled l tmp)))
        else match l, tmp with
             | [s], _ => inr (Block2 (NDArray (dimension g) (map (scaled s) tmp)))
             | _, [t] => inr (Block2 (NDArray (dimension g) (map (λ s, scaled s t) l)))
             | _, _ => inl ValueError
             end
    | AArr a =>
        if decide (ncols a = dimension g ∨ ncols a = 1%nat ∨ dimension g = 1%nat)
        then inr BlockOther else inl ValueError
    | _ => inl TypeError
    end
  else inl (UnboundLocalError "vel").

(** [v[key]] for a string key. *)
Definition subscript (v : pyval) (key : string) : result atom :=
  match v with
  | Dict d => match d !! key with Some x => inr x | None => inl (KeyError key) end
  | Atom (AVec _) | Atom (AArr _) => inl IndexError
  | Atom _ => inl TypeError
  end.

(** [type(x) in [type(None), str]] *)
Definition is_none_or_str (x : atom) : bool :=
  match x with ANone | AStr _ => true | _ => false end.

(** [np.array(x)] as rows for a column of [Agents]. *)
Definition np_array (x : atom) : block :=
  match x with AArr a => Block2 a | _ => BlockOther end.

(** [np.concatenate((a, b), axis=0)] *)
Definition concatenate (a : ndarray) (b : block) : result ndarray :=
  match b with
  | Block2 b' =>
      if decide (ncols a = ncols b') then inr (NDArray (ncols a) (rows a ++ rows b'))
      else inl ValueError
  | BlockOther => inl ValueError
  end.

(** The default of [add_group]:
    [{'position': None, 'velocity': None, 'speed': 0.01}] *)
Definition default_initial_condition : pyval :=
  Dict (<["position" := ANone]> (<["velocity" := ANone]>
         (<["speed" := ANum 0.01]> ∅)))%string.

(** The section "Initial conditions" of [add_group]: nothing of
    [self.agents] is written here. *)
Definition initial_conditions (rnd : np_random) (g : Geometry) (N : nat)
    (kwargs : gmap string pyval) : result (block * block) :=
  letE initial_condition :=
    (if decide (is_Some (kwargs !! "initial_condition"%string)) then
       match kwargs !! "IC"%string with
       | Some v => inr v
       | None => inl (KeyError "IC")
       end
     else inr default_initial_condition) in
  (* Positions *)
  letE position := subscript initial_condition "position" in
  letE pos :=
    (if is_none_or_str position
     then (letE p := set_initial_positions rnd g position N in inr (Block2 p))
     else inr (np_array position)) in
  (* Velocities *)
  letE speed0 := subscript initial_condition "speed" in
  let speed := match speed0 with ANum x => AVec (replicate N x) | s => s end in
  letE velocity := subscript initial_condition "velocity" in
  letE vel :=
    (if is_none_or_str velocity
     then set_initial_velocities rnd g velocity N speed
     else inr (np_array velocity)) in
  inr (pos, vel).

(** The noise block of a new group:
    [noise = np.ones((N,2)); noise[:,0] = 0; noise[:,1] = 0.1] *)
Definition group_noise (N : nat) : ndarray := NDArray 2 (replicate N [0; 0.1]).

Definition set_N_agents (n : nat) (a : Agents) : Agents :=
  MkAgents n (atype a) (pos a) (vel a) (noise a) (N_groups a) (group_names a) (group a).
Definition set_atype (t : list nat) (a : Agents) : Agents :=
  MkAgents (N_agents a) t (pos a) (vel a) (noise a) (N_groups a) (group_names a) (group a).
Definition set_pos (p : ndarray) (a : Agents) : Agents :=
  MkAgents (N_agents a) (atype a) p (vel a) (noise a) (N_groups a) (group_names a) (group a).
Definition set_vel (v : ndarray) (a : Agents) : Agents :=
  MkAgents (N_agents a) (atype a) (pos a) v (noise a) (N_groups a) (group_names a) (group a).
Definition set_noise (x : ndarray) (a : Agents) : Agents :=
  MkAgents (N_agents a) (atype a) (pos a) (vel a) x (N_groups a) (group_names a) (group a).
Definition set_groups (n : nat) (names : list pyval) (a : Agents) : Agents :=
  MkAgents (N_agents a) (atype a) (pos a) (vel a) (noise a) n names (group a).
Definition set_group (x : list nat) (a : Agents) : Agents :=
  MkAgents (N_agents a) (atype a) (pos a) (vel a) (noise a) (N_groups a) (group_names a) x.

(** A numpy array, or a dictionary that holds one. *)
Definition holds_array (v : pyval) : bool :=
  match v with
  | Atom (AVec _) | Atom (AArr _) => true
  | Atom _ => false
  | Dict d =>
      existsb (λ x, match x with AVec _ | AArr _ => true | _ => false end)
              (snd <$> map_to_list d)
  end.

(** The truth value of [x == y].  The comparison with a numpy array is
    elementwise, and an array of several elements has no truth value:
    [ValueError].  The embedding gives this outcome to every comparison
    in which an array takes part; arrays of one element and the identity
    test that precedes [==] are not represented. *)
Definition py_eq (x y : pyval) : result bool :=
  if (holds_array x || holds_array y)%bool then inl ValueError
  else inr (bool_decide (x = y)).

(** [gname in names], then [names.index(gname)]: the position of the
    first name equal to [gname], or no position.  The names are compared
    in order, up to the first that is equal. *)
Fixpoint name_index (gname : pyval) (names : list pyval) : result (option nat) :=
  match names with
  | [] => inr None
  | x :: rest =>
      letE b := py_eq x gname in
      if b : bool then inr (Some 0%nat)
      else letE k := name_index gname rest in inr (S <$> k)
  end.

(** The section "Agents definition" of [add_group]: the assignments to
    [self.agents], in order.  An exception leaves the assignments made
    before it in place. *)
Definition define_agents (gtype : string) (gname : pyval) (N : nat)
    (pos_new vel_new : block) (a : Agents) : result unit * Agents :=
  let a := set_N_agents (N_agents a + N) a in
  match index_of (lower gtype) atypes with
  | None => (inl ValueError, a)
  | Some t =>
  let a := set_atype (atype a ++ replicate N t) a in
  match concatenate (pos a) pos_new with
  | inl e => (inl e, a)
  | inr p =>
  let a := set_pos p a in
  match concatenate (vel a) vel_new with
  | inl e => (inl e, a)
  | inr v =>
  let a := set_vel v a in
  match concatenate (noise a) (Block2 (group_noise N)) with
  | inl e => (inl e, a)
  | inr x =>
  let a := set_noise x a in
  match name_index gname (group_names a) with
  | inl e => (inl e, a)
  | inr found =>
  let '(iname, a) :=
    match found with
    | Some k => (k, a)
    | None => (length (group_names a),
               set_groups (N_groups a + 1) (group_names a ++ [gname]) a)
    end in
  (inr (), set_group (group a ++ replicate N iname) a)
  end end end end end.

(** [Engine.add_group(gtype, N, **kwargs)], on the agents of the engine:
    the outcome and the agents after the call. *)
Definition add_group (rnd : np_random) (g : Geometry) (gtype : string)
    (N : nat) (kwargs : gmap string pyval) (a : Agents) : result unit * Agents :=
  let gname := default (Atom (AStr gtype)) (kwargs !! "name"%string) in
  match initial_conditions rnd g N kwargs with
  | inl e => (inl e, a)
  | inr (pos_new, vel_new) => define_agents gtype gname N pos_new vel_new a
  end.

(** ** Statements used by the properties *)

(** Mirror rule of a reflective wall at [R] and [-R]: [c], [v] are the
    candidate coordinate and velocity component on one axis, [c'], [v']
    the resolved ones. *)
Definition reflective_bounce (R c v c' v' : R) : Prop :=
  (∀ δ, 0 < δ → c = R + δ → c' = R - δ ∧ v' = - v) ∧
  (∀ δ, 0 < δ → 0 <= R → c = - R - δ → c' = - R + δ ∧ v' = - v) ∧
  (- R <= c <= R → c' = c ∧ v' = v).

(** Equality of angles modulo a full turn. *)
Definition same_angle (a b : R) : Prop := ∃ k : Z, a = b + 2 * IZR k * PI.

(** Scalar product of two vectors of the plane. *)
Definition dot (a b : complex) : R := real a * real b + imag a * imag b.

(** Specular reflection of [v] into [v'] on a wall of unit normal [n]: the
    normal component is reversed, the tangential one (along [1j*n]) kept. *)
Definition specular (n v v' : complex) : Prop :=
  dot v' n = - dot v n ∧ dot v' (Cmul Cj n) = dot v (Cmul Cj n).

(** The state a generator is left in by one draw. *)
Definition advance (G : generator) (s : rng_state G) : rng_state G :=
  (normal_float32 G s).2.

(** The generator states after a launch: every thread below the agent
    count [N] has drawn once. *)
Definition advance_lanes (G : generator) (N : nat) (threads : list nat)
    (rng : list (rng_state G)) : list (rng_state G) :=
  foldl (λ r i, if Nat.ltb i N then alter (advance G) i r else r) rng threads.

(** What a launch writes into a buffer: for each agent, the two entries
    of its row. *)
Definition write_rows (ws : list (nat * (R * R))) (a : ndarray) : ndarray :=
  foldl (λ b w, put (put b w.1 0 w.2.1) w.1 1 w.2.2) a ws.

(** [a[i,j] = x] for each [(j, x)] of [ws], in order. *)
Fixpoint setitems (a : ndarray) (i : nat) (ws : list (nat * R)) : option ndarray :=
  match ws with
  | [] => Some a
  | w :: ws' => a' ← setitem a i w.1 w.2; setitems a' i ws'
  end.

(** The array after those writes, when row [i] has the cells. *)
Definition puts (a : ndarray) (i : nat) (ws : list (nat * R)) : ndarray :=
  foldl (λ b w, put b i w.1 w.2) a ws.

(** What a lane of dimension 2 computes from the source arrays: the
    position and the velocity that it writes to row [i]. *)
Definition lane_update (unbound_da : option R) (atype : list nat)
    (p0 v0 noise : ndarray) (param : list R) (sample : R) (i : nat)
  : option (R * R * R * R) :=
  t ← atype !! i;
  arena ← param !! 0%nat;
  arena_X ← param !! 1%nat; arena_Y ← param !! 2%nat;
  periodic_X ← param !! 3%nat; periodic_Y ← param !! 4%nat;
  '(zv, an) ← velocity_and_noise v0 noise sample i;
  da ← (if Nat.eqb t 1 then Some 0 else unbound_da);
  p0x ← getitem p0 i 0; p0y ← getitem p0 i 1;
  assign_2d (Complex p0x p0y)
    (Cadd (Complex p0x p0y) (Cmul zv (expj (da + an))))
    (Cmul zv (expj (da + an)))
    arena arena_X arena_Y periodic_X periodic_Y.

(** The entries of [param] that the kernel deserializes in dimension
    [dim]: the arena, and for dimensions 1 to 3 the extent and the
    periodicity of each axis. *)
Definition param_reads (dim : nat) : list nat :=
  match dim with
  | 1 => [0; 1; 2]
  | 2 => [0; 1; 2; 3; 4]
  | 3 => [0; 1; 2; 3; 4; 5; 6]
  | _ => [0]
  end%nat.

(** The reads that lane [i] performs whatever the dimension are inside
    their arrays: the parameters, [v0[i,0]], [v0[i,1]] and [noise[i,1]]. *)
Definition reads_ok (dim : nat) (v0 noise : ndarray) (param : list R)
    (i : nat) : Prop :=
  Forall (λ k, is_Some (param !! k)) (param_reads dim) ∧
  is_Some (getitem v0 i 0) ∧ is_Some (getitem v0 i 1) ∧
  is_Some (getitem noise i 1).

(** An [(N, 2)] array. *)
Definition shape_N2 (N : nat) (a : ndarray) : Prop :=
  ncols a = 2%nat ∧ length (rows a) = N ∧ Forall (λ r, length r = 2%nat) (rows a).

(** ** Configurations used as examples *)

(** [Engine(2, arena='rectangular', shape=[2, 2], periodic=[True, False])]:
    half-extents (1, 1), X periodic, Y reflective. *)
Definition scenario_A_geometry : Geometry :=
  Geometry_init 2 (Some "rectangular"%string) (Some [2; 2])
                (Some (PList [true; false])).

(** One agent of type [t] at [(x, y)] with velocity [(vx, vy)] and noise
    coefficients [(n0, n1)]. *)
Definition one_agent (t : nat) (x y vx vy n0 n1 : R) : Agents :=
  MkAgents 1 [t] (NDArray 2 [[x; y]]) (NDArray 2 [[vx; vy]])
           (NDArray 2 [[n0; n1]]) 1 [Atom (AStr "agent")] [0%nat].

(** The engine of scenario A around one agent, for one step. *)
Definition one_agent_engine (t : nat) (x y vx vy n0 n1 : R) : Engine :=
  MkEngine scenario_A_geometry (one_agent t x y vx vy n0 n1) 1.

Definition one_blind_engine (x y vx vy : R) : Engine :=
  one_agent_engine 1 x y vx vy 0 0.

(** Scenario A: one Blind agent at (0.999, 0) with velocity (0.01, 0) and
    no noise, one step. *)
Definition scenario_A_engine : Engine := one_blind_engine 0.999 0 0.01 0.

(** Device memory that holds zeros. *)
Definition zeroed : nat → nat → R := λ _ _, 0.

(** A generator whose samples are all 0. *)
Definition null_generator : generator := Generator unit (λ _ _, ()) (λ s, (0, s)).

(** Draws that are the same everywhere. *)
Definition constant_draws : np_random :=
  MkRandom (λ n d, replicate n (replicate d (1 / 2)))
           (λ n, replicate n 0) (λ n, replicate n 1)
           (λ n d, replicate n (replicate d 1)).

(** [add_group(..., noise=0.5)] *)
Definition noise_kwargs : gmap string pyval :=
  {[ "noise"%string := Atom (ANum 0.5) ]}.

(** [add_group(..., initial_condition={})] *)
Definition initial_condition_kwargs : gmap string pyval :=
  {[ "initial_condition"%string := Dict ∅ ]}.

(** ** Further statements used by the properties *)

(** Wrap rule of a periodic wall at [R] and [-R]. *)
Definition periodic_wrap (R c v c' v' : R) : Prop :=
  (∀ δ, 0 < δ → c = R + δ → c' = - R + δ ∧ v' = v) ∧
  (∀ δ, 0 < δ → 0 <= R → c = - R - δ → c' = R - δ ∧ v' = v) ∧
  (- R <= c <= R → c' = c ∧ v' = v).

(** Vector product of two vectors of the plane: zero when they are
    collinear. *)
Definition cross (a b : complex) : R := real a * imag b - imag a * real b.

(** The step that the double buffering of [Engine.step] is meant to
    implement: a launch that reads the state [(p, v)], with a destination
    pair of the shape of the state. *)
Definition launch_on (G : generator) (unbound_da : option R)
    (gridDim blockDim : nat) (atype : list nat) (noise : ndarray)
    (param : list R) (st : ndarray * ndarray * list (rng_state G))
  : option (ndarray * ndarray * list (rng_state G)) :=
  let '(p, v, r) := st in
  CUDA_step G unbound_da gridDim blockDim atype p v p v noise param r.

Fixpoint launches (G : generator) (unbound_da : option R)
    (gridDim blockDim : nat) (atype : list nat) (noise : ndarray)
    (param : list R) (n : nat) (st : ndarray * ndarray * list (rng_state G))
  : option (ndarray * ndarray * list (rng_state G)) :=
  match n with
  | O => Some st
  | S n' => st' ← launch_on G unbound_da gridDim blockDim atype noise param st;
            launches G unbound_da gridDim blockDim atype noise param n' st'
  end.

(** The state that [run] publishes and the generator states it leaves. *)
Definition published {G : generator} (st : Agents * CUDA G)
  : ndarray * ndarray * list (rng_state G) :=
  (pos st.1, vel st.1, rng st.2).

(** The pair that [Engine.step(i)] hands to the kernel as its source. *)
Definition source {G : generator} (i : nat) (c : CUDA G) : ndarray * ndarray :=
  if negb (Nat.eqb (i mod 2) 0) then (cp0 c, cv0 c) else (cp1 c, cv1 c).

(** The bookkeeping of [Agents] that [add_group] maintains: one type, one
    group index and one noise row per agent, types and group indices in
    range, group names without repetition. *)
Definition bookkeeping (a : Agents) : Prop :=
  N_agents a = length (atype a) ∧ N_agents a = length (group a) ∧
  N_agents a = shape0 (noise a) ∧
  N_groups a = length (group_names a) ∧ NoDup (group_names a) ∧
  Forall (λ k, k < N_groups a)%nat (group a) ∧
  Forall (λ t, t < length atypes)%nat (atype a).

(** Euclidean norm of a row. *)
Definition norm (t : list R) : R := sqrt (foldr Rplus 0 (map (λ y, y * y) t)).

(** ** Display ([animation.py]) *)

(** What [update_display] sets of a displayed item: its position and its
    orientation ([None] while the attribute was never set). *)
Record item : Type := Item { position : list R; orientation : option R }.

(** [self.item[i].position = self.engine.agents.pos[i]], then
    [self.item[i].orientation = self.engine.agents.vel[i,1]].  In each
    assignment the right-hand side is evaluated first.  The key of a
    [KeyError] is the index in decimal. *)
Definition update_item (a : Agents) (i : nat) (items : gmap nat item)
  : result unit * gmap nat item :=
  match rows (pos a) !! i with
  | None => (inl IndexError, items)
  | Some p =>
      match items !! i with
      | None => (inl (KeyError (pretty i)), items)
      | Some it =>
          let items := <[i := Item p (orientation it)]> items in
          match getitem (vel a) i 1 with
          | None => (inl IndexError, items)
          | Some o => (inr (), <[i := Item p (Some o)]> items)
          end
      end
  end.

(** The loop of [update_display] over the indices [idx]: the outcome and
    the items when it ends or raises. *)
Fixpoint update_display_from (a : Agents) (idx : list nat) (items : gmap nat item)
  : result unit * gmap nat item :=
  match idx with
  | [] => (inr (), items)
  | i :: rest =>
      match atype a !! i with
      | None => (inl IndexError, items)
      | Some t =>
          (* Skip fixed agents *)
          if Nat.eqb t 0 then update_display_from a rest items
          else match update_item a i items with
               | (inl e, items') => (inl e, items')
               | (inr _, items') => update_display_from a rest items'
               end
      end
  end.

(** [Animation2d.update_display()] *)
Definition update_display (a : Agents) (items : gmap nat item)
  : result unit * gmap nat item :=
  update_display_from a (seq 0 (N_agents a)) items.

(** [Animation2d.update(t)] with [t.step = i]: the step of the engine, then
    the display.  The timer display of the parent class is not
    represented. *)
Definition Animation2d_update (G : generator) (unbound_da : option R) (i : nat)
    (st : Agents * CUDA G) (items : gmap nat item)
  : option (Agents * CUDA G * (result unit * gmap nat item)) :=
  st' ← Engine_step G unbound_da i st;
  Some (st', update_display st'.1 items).

(** * Properties *)

(** ** Comparisons *)

Lemma truthy_0 : truthy 0 = false.
Proof. unfold truthy. destruct (Req_dec_T 0 0); [reflexivity | contradiction]. Qed.

Lemma truthy_neq (x : R) : x ≠ 0 → truthy x = true.
Proof. intros H. unfold truthy. destruct (Req_dec_T x 0); [contradiction | reflexivity]. Qed.

Lemma Rgtb_true (x y : R) : x > y → Rgtb x y = true.
Proof. intros H. unfold Rgtb. destruct (Rgt_dec x y); [reflexivity | contradiction]. Qed.

Lemma Rgtb_false (x y : R) : x <= y → Rgtb x y = false.
Proof. intros H. unfold Rgtb. destruct (Rgt_dec x y); [lra | reflexivity]. Qed.

Lemma Rltb_true (x y : R) : x < y → Rltb x y = true.
Proof. intros H. unfold Rltb. destruct (Rlt_dec x y); [reflexivity | contradiction]. Qed.

Lemma Rltb_false (x y : R) : y <= x → Rltb x y = false.
Proof. intros H. unfold Rltb. destruct (Rlt_dec x y); [lra | reflexivity]. Qed.

Lemma Reqb_refl (x : R) : Reqb x x = true.
Proof. unfold Reqb. destruct (Req_dec_T x x); [reflexivity | contradiction]. Qed.

Lemma Reqb_neq (x y : R) : x ≠ y → Reqb x y = false.
Proof. intros H. unfold Reqb. destruct (Req_dec_T x y); [contradiction | reflexivity]. Qed.

(** ** Rectangular arena *)

Lemma rect_axis_reflective_above (c v R : R) :
  c > R → rect_axis c v R 0 = (2 * R - c, - v).
Proof. intros H. unfold rect_axis. now rewrite truthy_0, Rgtb_true. Qed.

Lemma rect_axis_reflective_below (c v R : R) :
  c <= R → c < - R → rect_axis c v R 0 = (- 2 * R - c, - v).
Proof. intros H1 H2. unfold rect_axis. now rewrite truthy_0, Rgtb_false, Rltb_true. Qed.

Lemma rect_axis_inside (c v R p : R) :
  - R <= c <= R → rect_axis c v R p = (c, v).
Proof.
  intros [H1 H2]. unfold rect_axis.
  rewrite Rgtb_false, Rltb_false by lra. now destruct (truthy p).
Qed.

Lemma rect_axis_periodic_above (c v R p : R) :
  p ≠ 0 → c > R → rect_axis c v R p = (c - 2 * R, v).
Proof. intros Hp H. unfold rect_axis. now rewrite truthy_neq, Rgtb_true. Qed.

Lemma rect_axis_periodic_below (c v R p : R) :
  p ≠ 0 → c <= R → c < - R → rect_axis c v R p = (c + 2 * R, v).
Proof.
  intros Hp H1 H2. unfold rect_axis.
  now rewrite truthy_neq, Rgtb_false, Rltb_true.
Qed.

Lemma rect_axis_reflective_bounce (c v R : R) :
  reflective_bounce R c v (rect_axis c v R 0).1 (rect_axis c v R 0).2.
Proof.
  repeat split.
  - rewrite rect_axis_reflective_above by lra. simpl. lra.
  - now rewrite rect_axis_reflective_above by lra.
  - rewrite rect_axis_reflective_below by lra. simpl. lra.
  - now rewrite rect_axis_reflective_below by lra.
  - now rewrite rect_axis_inside by lra.
  - now rewrite rect_axis_inside by lra.
Qed.

Lemma assign_2d_rectangular (z0 z1 zv : complex) (aX aY pX pY : R) :
  assign_2d z0 z1 zv 1 aX aY pX pY =
  Some ((rect_axis (real z1) (real zv) aX pX).1,
        (rect_axis (imag z1) (imag zv) aY pY).1,
        (rect_axis (real z1) (real zv) aX pX).2,
        (rect_axis (imag z1) (imag zv) aY pY).2).
Proof.
  unfold assign_2d. rewrite Reqb_neq by lra. rewrite Reqb_refl.
  destruct (rect_axis (real z1) _ _ _), (rect_axis (imag z1) _ _ _). reflexivity.
Qed.

(** C4. Rectangular arena, reflective walls: on each axis whose
    periodicity flag is 0, a candidate coordinate [R + δ] resolves to
    [R - δ] with the velocity component negated, a candidate [- R - δ]
    (for a half-extent [R >= 0]) resolves to [- R + δ] with the velocity
    component negated, and a candidate inside [[-R, R]] leaves coordinate
    and velocity component as they are. *)
Theorem rectangular_reflective_bounce (z0 z1 zv : complex) (aX aY pX pY : R) :
  ∃ px py vx vy,
    assign_2d z0 z1 zv 1 aX aY pX pY = Some (px, py, vx, vy) ∧
    (pX = 0 → reflective_bounce aX (real z1) (real zv) px vx) ∧
    (pY = 0 → reflective_bounce aY (imag z1) (imag zv) py vy).
Proof.
  eexists _, _, _, _. split; [apply assign_2d_rectangular |].
  split; intros ->; apply rect_axis_reflective_bounce.
Qed.

Lemma rectangular_reflective_bounce_witness :
  assign_2d (Complex 1 (-1)) (Complex (3 / 2) (- 3 / 2)) (Complex (1 / 2) (- 1 / 2))
            1 1 1 0 0
  = Some (1 / 2, - 1 / 2, - (1 / 2), - (- 1 / 2)).
Proof.
  destruct (rectangular_reflective_bounce (Complex 1 (-1))
              (Complex (3 / 2) (- 3 / 2)) (Complex (1 / 2) (- 1 / 2)) 1 1 0 0)
    as (px & py & vx & vy & -> & HX & HY).
  destruct (HX eq_refl) as [Hup _]. destruct (HY eq_refl) as (_ & Hdown & _).
  destruct (Hup (1 / 2)) as [-> ->]; [lra | simpl; lra |].
  destruct (Hdown (1 / 2)) as [-> ->]; [lra | lra | simpl; lra |].
  repeat f_equal; lra.
Defined.

(** ** Polar form *)

Lemma sum_sq_nonneg (x y : R) : 0 <= x * x + y * y.
Proof. nra. Qed.

Lemma Cabs_nonneg (z : complex) : 0 <= Cabs z.
Proof. apply sqrt_pos. Qed.

Lemma Cabs_sq (z : complex) : Cabs z * Cabs z = real z * real z + imag z * imag z.
Proof. unfold Cabs. apply sqrt_sqrt, sum_sq_nonneg. Qed.

Lemma sqrt_one_plus_ratio (x y : R) :
  x ≠ 0 → sqrt (1 + (y / x)²) = sqrt (x * x + y * y) / Rabs x.
Proof.
  intros Hx.
  assert (Hxx : 0 < x * x) by nra.
  replace (1 + (y / x)²) with ((x * x + y * y) / (x * x))
    by (unfold Rsqr; field; exact Hx).
  rewrite sqrt_div_alt by exact Hxx.
  f_equal. change (x * x) with (x²). apply sqrt_Rsqr_abs.
Qed.

Lemma cos_atan_ratio (x y : R) :
  x ≠ 0 → cos (atan (y / x)) * sqrt (x * x + y * y) = Rabs x.
Proof.
  intros Hx. rewrite cos_atan, sqrt_one_plus_ratio by exact Hx.
  assert (0 < sqrt (x * x + y * y)) by (apply sqrt_lt_R0; nra).
  assert (0 < Rabs x) by (apply Rabs_pos_lt; exact Hx).
  field. split; lra.
Qed.

Lemma sin_atan_ratio (x y : R) :
  x ≠ 0 → sin (atan (y / x)) * sqrt (x * x + y * y) = y / x * Rabs x.
Proof.
  intros Hx. rewrite sin_atan, sqrt_one_plus_ratio by exact Hx.
  assert (0 < sqrt (x * x + y * y)) by (apply sqrt_lt_R0; nra).
  assert (0 < Rabs x) by (apply Rabs_pos_lt; exact Hx).
  field. repeat split; lra.
Qed.

(** Every complex number is [rect(abs(z), phase(z))]. *)
Lemma polar_form (z : complex) :
  real z = Cabs z * cos (phase z) ∧ imag z = Cabs z * sin (phase z).
Proof.
  destruct z as [x y]. unfold phase, atan2, Cabs. simpl.
  destruct (Rlt_dec 0 x) as [Hpos | Hnpos].
  - assert (Hx : x ≠ 0) by lra.
    pose proof (cos_atan_ratio x y Hx) as Hc.
    pose proof (sin_atan_ratio x y Hx) as Hs.
    rewrite Rabs_right in Hc, Hs by lra.
    split; [lra |]. rewrite Rmult_comm, Hs. field. exact Hx.
  - destruct (Rlt_dec x 0) as [Hneg | Hnneg].
    + assert (Hx : x ≠ 0) by lra.
      pose proof (cos_atan_ratio x y Hx) as Hc.
      pose proof (sin_atan_ratio x y Hx) as Hs.
      rewrite Rabs_left in Hc, Hs by lra.
      assert (Hs' : sin (atan (y / x)) * sqrt (x * x + y * y) = - y)
        by (rewrite Hs; field; exact Hx).
      destruct (Rle_dec 0 y).
      * rewrite neg_cos, neg_sin. split; lra.
      * unfold Rminus. rewrite cos_plus, sin_plus, cos_neg, sin_neg, cos_PI, sin_PI.
        split; lra.
    + assert (x = 0) by lra. subst x.
      replace (0 * 0 + y * y) with (y * y) by ring.
      destruct (Rlt_dec 0 y).
      * rewrite sqrt_square by lra. rewrite cos_PI2, sin_PI2. split; lra.
      * destruct (Rlt_dec y 0).
        -- replace (y * y) with ((- y) * (- y)) by ring.
           rewrite sqrt_square by lra.
           rewrite cos_neg, sin_neg, cos_PI2, sin_PI2. split; lra.
        -- assert (y = 0) by lra. subst y.
           rewrite Rmult_0_l, sqrt_0. split; lra.
Qed.

Lemma atan_nonpos (t : R) : t <= 0 → atan t <= 0.
Proof.
  intros [Ht | ->]; [| rewrite atan_0; lra].
  pose proof (atan_increasing _ _ Ht) as H. rewrite atan_0 in H. lra.
Qed.

Lemma atan_pos (t : R) : 0 < t → 0 < atan t.
Proof. intros Ht. pose proof (atan_increasing _ _ Ht) as H. now rewrite atan_0 in H. Qed.

(** [cmath.phase] takes its values in (-pi, pi]. *)
Lemma phase_bound (z : complex) : - PI < phase z <= PI.
Proof.
  destruct z as [x y]. unfold phase, atan2. simpl.
  pose proof PI_RGT_0 as HPI.
  pose proof (atan_bound (y / x)) as Hb.
  destruct (Rlt_dec 0 x); [lra |].
  destruct (Rlt_dec x 0) as [Hx |].
  - destruct (Rle_dec 0 y) as [Hy | Hy].
    + assert (atan (y / x) <= 0); [| lra].
      apply atan_nonpos. unfold Rdiv.
      assert (/ x < 0) by (apply Rinv_lt_0_compat; exact Hx). nra.
    + assert (0 < atan (y / x)); [| lra].
      apply atan_pos. unfold Rdiv.
      assert (/ x < 0) by (apply Rinv_lt_0_compat; exact Hx). nra.
  - destruct (Rlt_dec 0 y); [lra |]. destruct (Rlt_dec y 0); lra.
Qed.

(** An angle of (-pi, pi] is determined by its cosine and sine. *)
Lemma angle_unique (a b : R) :
  - PI < a <= PI → - PI < b <= PI → cos a = cos b → sin a = sin b → a = b.
Proof.
  intros Ha Hb Hc Hs.
  pose proof PI_RGT_0 as HPI.
  assert (Hsin : sin (a - b) = 0) by (rewrite sin_minus, Hc, Hs; ring).
  assert (Hcos : cos (a - b) = 1).
  { rewrite cos_minus, Hc, Hs. pose proof (sin2_cos2 b) as H. unfold Rsqr in H. lra. }
  destruct (sin_eq_0_0 _ Hsin) as [k Hk].
  assert (Hk1 : (-2 < k)%Z) by (apply lt_IZR; nra).
  assert (Hk2 : (k < 2)%Z) by (apply lt_IZR; nra).
  assert (Hcases : k = (-1)%Z ∨ k = 0%Z ∨ k = 1%Z) by lia.
  destruct Hcases as [-> | [-> | ->]].
  - replace (a - b) with (- PI) in Hcos by lra.
    rewrite cos_neg, cos_PI in Hcos. lra.
  - lra.
  - replace (a - b) with PI in Hcos by lra. rewrite cos_PI in Hcos. lra.
Qed.

Lemma Cabs_rect (r phi : R) : 0 <= r → Cabs (rect r phi) = r.
Proof.
  intros Hr. unfold Cabs, rect. simpl.
  apply sqrt_lem_1; [nra | exact Hr |].
  pose proof (sin2_cos2 phi) as H. unfold Rsqr in H. nra.
Qed.

Lemma phase_rect (r phi : R) :
  0 < r → - PI < phi <= PI → phase (rect r phi) = phi.
Proof.
  intros Hr Hphi.
  destruct (polar_form (rect r phi)) as [Hre Him].
  rewrite Cabs_rect in Hre, Him by lra. simpl in Hre, Him.
  apply angle_unique; [apply phase_bound | exact Hphi | nra | nra].
Qed.

Lemma rect_shift (r phi : R) : rect r (phi + PI) = rect r (phi - PI).
Proof.
  unfold rect. f_equal.
  - f_equal. replace (phi + PI) with (phi - PI + 2 * PI) by ring.
    rewrite cos_plus, cos_2PI, sin_2PI. ring.
  - f_equal. replace (phi + PI) with (phi - PI + 2 * PI) by ring.
    rewrite sin_plus, cos_2PI, sin_2PI. ring.
Qed.

(** ** Circular arena, periodic *)

Lemma assign_2d_circular_inside (z0 z1 zv : complex) (R aY pX pY : R) :
  Cabs z1 <= R →
  assign_2d z0 z1 zv 0 R aY pX pY = Some (real z1, imag z1, real zv, imag zv).
Proof. intros H. unfold assign_2d. now rewrite Reqb_refl, Rgtb_false. Qed.

Lemma assign_2d_circular_periodic (z0 z1 zv : complex) (R aY pX pY : R) :
  pX ≠ 0 → Cabs z1 > R →
  assign_2d z0 z1 zv 0 R aY pX pY =
  Some (real (rect (2 * R - Cabs z1) (phase z1 + PI)),
        imag (rect (2 * R - Cabs z1) (phase z1 + PI)), real zv, imag zv).
Proof.
  intros Hp H. unfold assign_2d. now rewrite Reqb_refl, Rgtb_true, truthy_neq.
Qed.

Lemma phase_rect_opposite (r phi : R) :
  0 < r → - PI < phi <= PI → same_angle (phase (rect r (phi + PI))) (phi + PI).
Proof.
  intros Hr Hphi. pose proof PI_RGT_0 as HPI.
  destruct (Rle_dec phi 0) as [Hle | Hgt].
  - exists 0%Z. rewrite phase_rect by lra. lra.
  - exists (-1)%Z. rewrite rect_shift, phase_rect by lra. lra.
Qed.

(** C5 (amended). Circular arena of radius [R], periodic: a candidate of
    radius [R + δ] with [0 < δ < R] and phase [φ] is resolved to a position
    of radius [R - δ] and phase [φ + π] modulo 2π, the velocity being
    returned as it is; a candidate of radius at most [R] is left
    unchanged. *)
Theorem circular_periodic_wrap (z0 z1 zv : complex) (R aY pX pY : R) :
  pX ≠ 0 →
  (∀ δ, 0 < δ → δ < R → Cabs z1 = R + δ →
     ∃ px py,
       assign_2d z0 z1 zv 0 R aY pX pY = Some (px, py, real zv, imag zv) ∧
       Cabs (Complex px py) = R - δ ∧
       same_angle (phase (Complex px py)) (phase z1 + PI)) ∧
  (Cabs z1 <= R →
     assign_2d z0 z1 zv 0 R aY pX pY = Some (real z1, imag z1, real zv, imag zv)).
Proof.
  intros Hp. split; [| apply assign_2d_circular_inside].
  intros δ Hδ HR Hz1.
  eexists _, _. split; [apply assign_2d_circular_periodic; [exact Hp | lra] |].
  replace (2 * R - Cabs z1) with (R - δ) by lra.
  change (Complex (real ?z) (imag ?z)) with z.
  split; [apply Cabs_rect; lra |].
  apply phase_rect_opposite; [lra | apply phase_bound].
Qed.

Lemma Cabs_real_pos (x : R) : 0 <= x → Cabs (Complex x 0) = x.
Proof.
  intros Hx. unfold Cabs. simpl. apply sqrt_lem_1; [nra | exact Hx | ring].
Qed.

Lemma phase_real_pos (x : R) : 0 < x → phase (Complex x 0) = 0.
Proof.
  intros Hx. unfold phase, atan2. simpl.
  destruct (Rlt_dec 0 x); [| contradiction].
  unfold Rdiv. rewrite Rmult_0_l. apply atan_0.
Qed.

Lemma circular_periodic_wrap_witness :
  ∃ px py,
    assign_2d (Complex 1 0) (Complex 3 0) (Complex 2 0) 0 2 2 1 1
      = Some (px, py, 2, 0) ∧
    Cabs (Complex px py) = 2 - 1 ∧
    same_angle (phase (Complex px py)) (phase (Complex 3 0) + PI).
Proof.
  assert (H1 : (1:R) ≠ 0) by lra.
  destruct (circular_periodic_wrap (Complex 1 0) (Complex 3 0) (Complex 2 0)
              2 2 1 1 H1) as [Hwrap _].
  apply (Hwrap 1); [lra | lra |].
  rewrite Cabs_real_pos; lra.
Defined.

(** C5, as stated for every [δ > 0]: with [R = 1] and the candidate
    (3, 0), of radius [1 + 2] and phase 0, the resolved position is (1, 0);
    its radius is not [1 - 2] and its phase is not π modulo 2π. *)
Lemma circular_periodic_wrap_overshoot :
  Cabs (Complex 3 0) = 1 + 2 ∧
  assign_2d (Complex (1 / 2) 0) (Complex 3 0) (Complex (5 / 2) 0) 0 1 1 1 1
    = Some (1, 0, 5 / 2, 0) ∧
  Cabs (Complex 1 0) ≠ 1 - 2 ∧
  ¬ same_angle (phase (Complex 1 0)) (phase (Complex 3 0) + PI).
Proof.
  assert (Habs : Cabs (Complex 3 0) = 3) by (apply Cabs_real_pos; lra).
  assert (Hph : phase (Complex 3 0) = 0) by (apply phase_real_pos; lra).
  split; [lra |]. split.
  - rewrite assign_2d_circular_periodic by lra.
    rewrite Habs, Hph. simpl. rewrite Rplus_0_l, cos_PI, sin_PI.
    repeat f_equal; lra.
  - split.
    + rewrite Cabs_real_pos by lra. lra.
    + intros [k Hk]. rewrite Hph, phase_real_pos in Hk by lra.
      pose proof PI_RGT_0 as HPI.
      assert (H : IZR (2 * k + 1) = 0).
      { rewrite plus_IZR, mult_IZR. simpl. nra. }
      apply eq_IZR in H. lia.
Qed.

(** ** Circular arena, reflective *)

Lemma expj_eq (x : R) : expj x = Complex (cos x) (sin x).
Proof.
  unfold expj, Cexp, Cmul, Cj, RtoC. simpl.
  replace (0 * x - 1 * 0) with 0 by ring.
  replace (0 * 0 + 1 * x) with x by ring.
  rewrite exp_0. f_equal; ring.
Qed.

Lemma Cabs_rotate (v : complex) (x : R) : Cabs (Cmul v (expj x)) = Cabs v.
Proof.
  rewrite expj_eq. unfold Cabs, Cmul. simpl. f_equal.
  pose proof (sin2_cos2 x) as H. unfold Rsqr in H. nsatz.
Qed.







(** The crossing angle exists for every move that starts inside the arena. *)
Lemma crossing_phi_in_arena (z0 zv : complex) (R : R) :
  0 < R → Cabs z0 <= R → ∃ phi, crossing_phi z0 zv R = Some phi.
Proof.
  intros HR Hz0. unfold crossing_phi, float_div, math_asin.
  destruct (Req_dec_T R 0) as [-> | _]; [lra |]. simpl.
  set (c := cos (phase zv)). set (s := sin (phase zv)).
  assert (Hcs : s * s + c * c = 1) by apply sin2_cos2.
  pose proof (Cabs_sq z0) as Hsq. pose proof (Cabs_nonneg z0) as Hnn.
  assert (Hnum : (imag z0 * c - real z0 * s) * (imag z0 * c - real z0 * s) <= R * R).
  { apply Rle_trans with (Cabs z0 * Cabs z0);
      [| apply Rmult_le_compat; lra].
    rewrite Hsq.
    assert (0 <= (real z0 * c + imag z0 * s) * (real z0 * c + imag z0 * s))
      by apply Rle_0_sqr.
    assert ((imag z0 * c - real z0 * s) * (imag z0 * c - real z0 * s)
            + (real z0 * c + imag z0 * s) * (real z0 * c + imag z0 * s)
            = (real z0 * real z0 + imag z0 * imag z0) * (s * s + c * c)) by ring.
    rewrite Hcs in *. lra. }
  assert (Hq : -1 <= (imag z0 * c - real z0 * s) / R <= 1).
  { assert (Hinv : 0 < / R) by (apply Rinv_0_lt_compat; exact HR).
    assert (- R <= imag z0 * c - real z0 * s <= R) by nra.
    unfold Rdiv. split.
    - apply Rmult_le_reg_r with R; [exact HR |].
      rewrite Rmult_assoc, Rinv_l by lra. lra.
    - apply Rmult_le_reg_r with R; [exact HR |].
      rewrite Rmult_assoc, Rinv_l by lra. lra. }
  destruct (Rle_dec (-1) _) as [_ | Hn]; [| lra].
  destruct (Rle_dec _ 1) as [_ | Hn]; [| lra].
  eexists. reflexivity.
Qed.

Lemma Cabs_rect_abs (r phi : R) : Cabs (rect r phi) = Rabs r.
Proof.
  unfold Cabs, rect. cbn [real imag]. rewrite <- sqrt_Rsqr_abs. f_equal.
  pose proof (sin2_cos2 phi) as H. unfold Rsqr in *. nsatz.
Qed.

Lemma crossing_phi_inv (z0 zv : complex) (R phi : R) :
  crossing_phi z0 zv R = Some phi →
  R ≠ 0 ∧
  -1 <= (imag z0 * cos (phase zv) - real z0 * sin (phase zv)) / R <= 1 ∧
  phi = phase zv
        + asin ((imag z0 * cos (phase zv) - real z0 * sin (phase zv)) / R).
Proof.
  unfold crossing_phi, float_div, math_asin.
  destruct (Req_dec_T R 0); [discriminate |]. cbn [mbind option_bind].
  destruct (Rle_dec (-1) _); [| discriminate].
  destruct (Rle_dec _ 1); [| discriminate]. cbn [mbind option_bind].
  intros H. injection H as <-. auto.
Qed.

(** The crossing angle in terms of the direction [(c, s)] of motion. *)
Lemma crossing_phi_trig (z0 zv : complex) (R phi : R) :
  crossing_phi z0 zv R = Some phi →
  let c := cos (phase zv) in
  let s := sin (phase zv) in
  R * sin (phi - phase zv) = imag z0 * c - real z0 * s ∧
  0 <= cos (phi - phase zv) ∧
  R * cos phi = R * cos (phi - phase zv) * c - (imag z0 * c - real z0 * s) * s ∧
  R * sin phi = R * cos (phi - phase zv) * s + (imag z0 * c - real z0 * s) * c.
Proof.
  intros H. cbv zeta. destruct (crossing_phi_inv _ _ _ _ H) as (HR & Hq & ->).
  clear H.
  set (c := cos (phase zv)) in *. set (s := sin (phase zv)) in *.
  set (q := (imag z0 * c - real z0 * s) / R) in *.
  replace (phase zv + asin q - phase zv) with (asin q) by ring.
  assert (HRq : R * q = imag z0 * c - real z0 * s) by (unfold q; field; exact HR).
  rewrite cos_plus, sin_plus, sin_asin by exact Hq. fold c s.
  pose proof (asin_bound q) as Hb.
  repeat split.
  - exact HRq.
  - apply cos_ge_0; lra.
  - rewrite <- HRq. ring.
  - rewrite <- HRq. ring.
Qed.

Lemma Cmul_real_unit (t theta : R) :
  Cmul (RtoC t) (rect 1 theta) = rect t theta.
Proof. unfold Cmul, RtoC, rect. cbn [real imag]. f_equal; ring. Qed.

Lemma Cmul_real_expj (t alpha : R) : Cmul (RtoC t) (expj alpha) = rect t alpha.
Proof. rewrite expj_eq. unfold Cmul, RtoC, rect. cbn [real imag]. f_equal; ring. Qed.

(** From the old position the crossing point is reached along the
    direction of the velocity, after the distance [t]. *)
Lemma crossing_offset (z0 zv : complex) (R phi : R) :
  crossing_phi z0 zv R = Some phi →
  Csub (rect R phi) z0
  = rect (R * cos (phi - phase zv)
          - (real z0 * cos (phase zv) + imag z0 * sin (phase zv)))
         (phase zv).
Proof.
  intros H. destruct (crossing_phi_trig _ _ _ _ H) as (_ & _ & Hc & Hs).
  pose proof (sin2_cos2 (phase zv)) as H1. unfold Rsqr in H1.
  unfold Csub, rect. cbn [real imag]. rewrite Hc, Hs.
  set (c := cos (phase zv)) in *. set (s := sin (phase zv)) in *.
  set (k := R * cos (phi - phase zv)).
  f_equal; nsatz.
Qed.

Lemma crossing_distance_nonneg (z0 zv : complex) (R phi : R) :
  0 < R → Cabs z0 <= R → crossing_phi z0 zv R = Some phi →
  0 <= R * cos (phi - phase zv)
       - (real z0 * cos (phase zv) + imag z0 * sin (phase zv)).
Proof.
  intros HR Hz0 H. destruct (crossing_phi_trig _ _ _ _ H) as (Hsin & Hcos & _).
  pose proof (sin2_cos2 (phase zv)) as H1. unfold Rsqr in H1.
  pose proof (sin2_cos2 (phi - phase zv)) as H2. unfold Rsqr in H2.
  pose proof (Cabs_sq z0) as Hsq. pose proof (Cabs_nonneg z0) as Hnn.
  set (c := cos (phase zv)) in *. set (s := sin (phase zv)) in *.
  set (ck := cos (phi - phase zv)) in *. set (sk := sin (phi - phase zv)) in *.
  set (A := real z0 * c + imag z0 * s).
  assert (HAB : A * A + (R * sk) * (R * sk) = Cabs z0 * Cabs z0).
  { rewrite Hsin, Hsq. unfold A. nsatz. }
  assert (Hk : (R * ck) * (R * ck) = R * R - (R * sk) * (R * sk)) by nsatz.
  assert (Hz : Cabs z0 * Cabs z0 <= R * R) by (apply Rmult_le_compat; lra).
  assert (Hk0 : 0 <= R * ck) by (apply Rmult_le_pos; lra).
  assert (HA : A * A <= (R * ck) * (R * ck)) by lra.
  destruct (Rle_dec A (R * ck)); [lra |]. exfalso.
  assert (R * ck < A) by lra.
  assert ((R * ck) * (R * ck) < A * A) by (apply Rmult_le_0_lt_compat; lra).
  lra.
Qed.

Lemma Cabs_le_sq (z : complex) (r : R) :
  0 <= r → real z * real z + imag z * imag z <= r * r → Cabs z <= r.
Proof.
  intros Hr H. unfold Cabs. rewrite <- (sqrt_square r) by exact Hr.
  now apply sqrt_le_1_alt.
Qed.

Lemma Cabs_gt_sq (z : complex) (r : R) :
  0 <= r → r * r < real z * real z + imag z * imag z → Cabs z > r.
Proof.
  intros Hr H. unfold Cabs.
  pose proof (sqrt_lt_1_alt (r * r) (real z * real z + imag z * imag z)) as Hs.
  rewrite sqrt_square in Hs by exact Hr.
  apply Hs. split; [now apply Rmult_le_pos | exact H].
Qed.

(** The crossing point, from the old position. *)
Lemma crossing_point_ahead (z0 zv : complex) (R phi : R) :
  crossing_phi z0 zv R = Some phi →
  rect R phi
  = Cadd z0 (rect (R * cos (phi - phase zv)
                   - (real z0 * cos (phase zv) + imag z0 * sin (phase zv)))
                  (phase zv)).
Proof.
  intros H. rewrite <- (crossing_offset _ _ _ _ H).
  unfold Cadd, Csub, rect. cbn [real imag]. f_equal; ring.
Qed.

(** A move that ends outside the arena passes the crossing point before
    its end. *)
Lemma crossing_within_reach (z0 zv : complex) (R phi : R) :
  0 < R → Cabs z0 <= R → Cabs (Cadd z0 zv) > R →
  crossing_phi z0 zv R = Some phi →
  R * cos (phi - phase zv)
  - (real z0 * cos (phase zv) + imag z0 * sin (phase zv)) < Cabs zv.
Proof.
  intros HR Hz0 Hout H. destruct (crossing_phi_trig _ _ _ _ H) as (Hsin & Hcos & _).
  destruct (polar_form zv) as [Hre Him].
  pose proof (sin2_cos2 (phase zv)) as H1. unfold Rsqr in H1.
  pose proof (sin2_cos2 (phi - phase zv)) as H2. unfold Rsqr in H2.
  pose proof (Cabs_sq z0) as Hsq. pose proof (Cabs_nonneg z0) as Hnn.
  pose proof (Cabs_nonneg zv) as Hv.
  assert (Hsq1 : Cabs (Cadd z0 zv) * Cabs (Cadd z0 zv)
                 = (real z0 + Cabs zv * cos (phase zv))
                   * (real z0 + Cabs zv * cos (phase zv))
                   + (imag z0 + Cabs zv * sin (phase zv))
                     * (imag z0 + Cabs zv * sin (phase zv))).
  { rewrite Cabs_sq. unfold Cadd. cbn [real imag]. now rewrite <- Hre, <- Him. }
  set (c := cos (phase zv)) in *. set (s := sin (phase zv)) in *.
  set (ck := cos (phi - phase zv)) in *. set (sk := sin (phi - phase zv)) in *.
  set (A := real z0 * c + imag z0 * s). set (v := Cabs zv) in *.
  assert (HAB : A * A + (R * sk) * (R * sk) = Cabs z0 * Cabs z0).
  { rewrite Hsin, Hsq. unfold A. nsatz. }
  assert (Hk : (R * ck) * (R * ck) = R * R - (R * sk) * (R * sk)) by nsatz.
  assert (Hz : Cabs z0 * Cabs z0 <= R * R) by (apply Rmult_le_compat; lra).
  assert (Hk0 : 0 <= R * ck) by (apply Rmult_le_pos; lra).
  assert (H1sq : (A + v) * (A + v) + (R * sk) * (R * sk)
                 = Cabs (Cadd z0 zv) * Cabs (Cadd z0 zv)).
  { rewrite Hsin, Hsq1. unfold A. nsatz. }
  assert (Hbig : R * R < Cabs (Cadd z0 zv) * Cabs (Cadd z0 zv))
    by (apply Rmult_le_0_lt_compat; lra).
  assert (Hlow : - (R * ck) <= A).
  { destruct (Rle_dec (- (R * ck)) A); [assumption |]. exfalso.
    assert ((R * ck) * (R * ck) < (- A) * (- A))
      by (apply Rmult_le_0_lt_compat; lra).
    lra. }
  destruct (Rlt_dec (R * ck - A) v); [assumption |]. exfalso.
  assert (Hle : (A + v) * (A + v) <= (R * ck) * (R * ck)).
  { assert (- (R * ck) <= A + v <= R * ck) by lra. nra. }
  lra.
Qed.



(** ** The kernel on one agent *)

Lemma Cmul_expj_0 (z : complex) (x : R) : x = 0 → Cmul z (expj x) = z.
Proof.
  intros ->. rewrite expj_eq, cos_0, sin_0. destruct z as [a b].
  unfold Cmul. simpl. f_equal; ring.
Qed.

(** Threads beyond the last agent do nothing. *)
Lemma CUDA_step_threads_idle (G : generator) (u : option R) (threads : list nat)
    (atype : list nat) (p0 v0 p1 v1 noise : ndarray) (param : list R)
    (rng : list (rng_state G)) :
  Forall (λ i, shape0 p0 ≤ i)%nat threads →
  CUDA_step_threads G u threads atype p0 v0 p1 v1 noise param rng
  = Some (p1, v1, rng).
Proof.
  induction 1 as [| i rest Hi _ IH]; [reflexivity |].
  simpl. destruct (Nat.ltb_spec i (shape0 p0)); [lia | exact IH].
Qed.

Lemma CUDA_step_threads_active (G : generator) (u : option R) (i : nat)
    (rest : list nat) (atype : list nat) (p0 v0 p1 v1 noise : ndarray)
    (param : list R) (rng : list (rng_state G)) (s : rng_state G) :
  (i < shape0 p0)%nat → rng !! i = Some s →
  CUDA_step_threads G u (i :: rest) atype p0 v0 p1 v1 noise param rng
  = '(p1', v1') ← CUDA_step_lane u atype p0 v0 p1 v1 noise param
                                 (normal_float32 G s).1 i;
    CUDA_step_threads G u rest atype p0 v0 p1' v1' noise param
                      (<[i := (normal_float32 G s).2]> rng).
Proof.
  intros Hi Hs. cbn [CUDA_step_threads].
  destruct (Nat.ltb_spec i (shape0 p0)); [| lia].
  rewrite Hs. cbn [mbind option_bind].
  destruct (normal_float32 G s) as [sample s']. reflexivity.
Qed.

Lemma grid_threads (blocks : nat) :
  seq 0 (S blocks * 32) = 0%nat :: seq 1 (31 + blocks * 32).
Proof. replace (S blocks * 32)%nat with (S (31 + blocks * 32)) by lia. apply eq_sym, cons_seq. Qed.

Lemma CUDA_step_single (G : generator) (u : option R) (blocks : nat)
    (atype : list nat) (p0 v0 p1 v1 noise : ndarray) (param : list R)
    (rng : list (rng_state G)) (s : rng_state G) :
  shape0 p0 = 1%nat → rng !! 0%nat = Some s →
  CUDA_step G u (S blocks) 32 atype p0 v0 p1 v1 noise param rng
  = '(p1', v1') ← CUDA_step_lane u atype p0 v0 p1 v1 noise param
                                 (normal_float32 G s).1 0;
    Some (p1', v1', <[0%nat := (normal_float32 G s).2]> rng).
Proof.
  intros HN Hs. unfold CUDA_step.
  rewrite grid_threads.
  rewrite (CUDA_step_threads_active G u 0 _ _ _ _ _ _ _ _ _ s) by (rewrite ?HN; auto).
  destruct (CUDA_step_lane _ _ _ _ _ _ _ _ _ _) as [[p1' v1'] |]; [| reflexivity].
  cbn [mbind option_bind].
  rewrite CUDA_step_threads_idle; [reflexivity |].
  rewrite HN. apply Forall_forall. intros i Hi. apply elem_of_seq in Hi. lia.
Qed.

Ltac lane_reduce :=
  unfold velocity_and_noise, setitem;
  cbn [ncols rows getitem lookup list_lookup mbind option_bind Nat.eqb
       copy_row seq put alter list_alter insert list_insert real imag
       Cadd fst snd];
  unfold setitem;
  cbn [ncols rows getitem lookup list_lookup mbind option_bind Nat.eqb
       copy_row seq put alter list_alter insert list_insert real imag
       Cadd fst snd].

Lemma one_row_pair (a b c d a' b' c' d' : R) :
  a = a' → b = b' → c = c' → d = d' →
  Some (NDArray 2 [[a; b]], NDArray 2 [[c; d]])
  = Some (NDArray 2 [[a'; b']], NDArray 2 [[c'; d']]).
Proof. now intros -> -> -> ->. Qed.

Lemma scenario_A_param :
  serialize_param scenario_A_geometry = inr [1; 2 / 2; 2 / 2; 1; 0].
Proof. reflexivity. Qed.

Lemma scenario_A_lane (u : option R) (sample a b c d : R) :
  CUDA_step_lane u [1%nat] (NDArray 2 [[0.999; 0]]) (NDArray 2 [[0.01; 0]])
                 (NDArray 2 [[a; b]]) (NDArray 2 [[c; d]]) (NDArray 2 [[0; 0]])
                 [1; 2 / 2; 2 / 2; 1; 0] sample 0
  = Some (NDArray 2 [[-0.991; 0]], NDArray 2 [[0.01; 0]]).
Proof.
  unfold CUDA_step_lane. lane_reduce.
  rewrite Cmul_expj_0 by ring.
  rewrite assign_2d_rectangular. lane_reduce.
  rewrite (rect_axis_periodic_above (0.999 + 0.01)) by lra.
  rewrite (rect_axis_inside (0 + 0)) by lra. lane_reduce.
  apply one_row_pair; lra.
Qed.

Lemma run_setup_one_agent (G : generator) (mem_p1 mem_v1 : nat → nat → R)
    (g : Geometry) (a : Agents) (n : nat) (param : list R) :
  N_agents a = 1%nat → dimension g = 2%nat → serialize_param g = inr param →
  run_setup G mem_p1 mem_v1 (MkEngine g a n)
  = inr (MkCUDA 32 1 param (pos a) (vel a)
           (NDArray 2 [[mem_p1 0%nat 0%nat; mem_p1 0%nat 1%nat]])
           (NDArray 2 [[mem_v1 0%nat 0%nat; mem_v1 0%nat 1%nat]])
           (atype a) (noise a) (group a)
           (create_xoroshiro128p_states G 32 0)).
Proof.
  intros HN Hd Hp. unfold run_setup. cbn [agents geom]. rewrite HN, Hd, Hp.
  reflexivity.
Qed.

Lemma create_states_lookup (G : generator) (n : nat) (seed : Z) (i : nat) :
  (i < n)%nat → create_xoroshiro128p_states G n seed !! i = Some (init_state G seed i).
Proof.
  intros Hi. unfold create_xoroshiro128p_states.
  rewrite list_lookup_fmap, lookup_seq_lt by exact Hi. reflexivity.
Qed.

(** The launch of scenario A from the pair that holds its state. *)
Lemma scenario_A_launch (G : generator) (u : option R) (a b c d : R) :
  CUDA_step G u 1 32 [1%nat] (NDArray 2 [[0.999; 0]]) (NDArray 2 [[0.01; 0]])
            (NDArray 2 [[a; b]]) (NDArray 2 [[c; d]]) (NDArray 2 [[0; 0]])
            [1; 2 / 2; 2 / 2; 1; 0] (create_xoroshiro128p_states G 32 0)
  = Some (NDArray 2 [[-0.991; 0]], NDArray 2 [[0.01; 0]],
          <[0%nat := advance G (init_state G 0 0)]>
            (create_xoroshiro128p_states G 32 0)).
Proof.
  rewrite (CUDA_step_single G u 0 _ _ _ _ _ _ _ _ (init_state G 0 0));
    [| reflexivity | apply create_states_lookup; lia].
  rewrite scenario_A_lane. reflexivity.
Qed.

(** Scenario A: one Blind agent at (0.999, 0) with velocity (0.01, 0)
    and no noise, in the rectangle of half-extents (1, 1) with X periodic
    and Y reflective.  The kernel launched on the pair that holds this
    state writes the position (-0.991, 0), the candidate 1.009 being
    wrapped, and the velocity (0.01, 0); this is the state that
    [Engine.step] publishes for an index that reads that pair. *)
Lemma scenario_A_odd_step (G : generator) (u : option R)
    (mem_p1 mem_v1 : nat → nat → R) :
  ∃ c,
    run_setup G mem_p1 mem_v1 scenario_A_engine = inr c ∧
    cp0 c = NDArray 2 [[0.999; 0]] ∧ cv0 c = NDArray 2 [[0.01; 0]] ∧
    CUDA_step G u (gridDim c) (blockDim c) (catype c) (cp0 c) (cv0 c)
              (cp1 c) (cv1 c) (cnoise c) (param c) (rng c)
    = Some (NDArray 2 [[-0.991; 0]], NDArray 2 [[0.01; 0]],
            <[0%nat := advance G (init_state G 0 0)]> (rng c)) ∧
    ∃ a' c',
      Engine_step G u 1 (agents scenario_A_engine, c) = Some (a', c') ∧
      pos a' = NDArray 2 [[-0.991; 0]] ∧ vel a' = NDArray 2 [[0.01; 0]].
Proof.
  eexists. split.
  { apply run_setup_one_agent; [reflexivity | reflexivity | apply scenario_A_param]. }
  split; [reflexivity |]. split; [reflexivity |].
  cbn [gridDim blockDim catype cp0 cv0 cp1 cv1 cnoise param rng
       scenario_A_engine one_blind_engine one_agent agents pos vel noise atype].
  split; [apply scenario_A_launch |].
  unfold Engine_step.
  cbn [Nat.modulo Nat.divmod Nat.sub Nat.eqb negb fst snd
       gridDim blockDim catype cp0 cv0 cp1 cv1 cnoise param rng].
  rewrite scenario_A_launch. cbn [mbind option_bind].
  eexists _, _. split; [reflexivity |]. split; reflexivity.
Qed.

(** A Blind agent without noise, whose candidate stays in the rectangle. *)
Lemma blind_lane_inside (u : option R) (sample x y vx vy a b c d hx hy px py : R) :
  - hx <= x + vx <= hx → - hy <= y + vy <= hy →
  CUDA_step_lane u [1%nat] (NDArray 2 [[x; y]]) (NDArray 2 [[vx; vy]])
                 (NDArray 2 [[a; b]]) (NDArray 2 [[c; d]]) (NDArray 2 [[0; 0]])
                 [1; hx; hy; px; py] sample 0
  = Some (NDArray 2 [[x + vx; y + vy]], NDArray 2 [[vx; vy]]).
Proof.
  intros Hx Hy. unfold CUDA_step_lane. lane_reduce.
  rewrite Cmul_expj_0 by ring.
  rewrite assign_2d_rectangular. lane_reduce.
  rewrite !rect_axis_inside by assumption. lane_reduce. reflexivity.
Qed.

(** A Blind agent at rest stays where it is, whatever the noise. *)
Lemma blind_lane_at_rest (u : option R)
    (sample x y a b c d n0 n1 hx hy px py : R) :
  - hx <= x <= hx → - hy <= y <= hy →
  CUDA_step_lane u [1%nat] (NDArray 2 [[x; y]]) (NDArray 2 [[0; 0]])
                 (NDArray 2 [[a; b]]) (NDArray 2 [[c; d]]) (NDArray 2 [[n0; n1]])
                 [1; hx; hy; px; py] sample 0
  = Some (NDArray 2 [[x; y]], NDArray 2 [[0; 0]]).
Proof.
  intros Hx Hy. unfold CUDA_step_lane. lane_reduce.
  rewrite expj_eq. unfold Cmul. lane_reduce.
  rewrite assign_2d_rectangular. lane_reduce.
  rewrite !rect_axis_inside by lra. lane_reduce.
  apply one_row_pair; lra.
Qed.

(** ** The first step of [run] *)

(** One step of [run] on a single agent: the lane reads the memory of the
    two [device_array] buffers and overwrites the initial state. *)
Lemma run_one_agent (G : generator) (u : option R) (mem_p1 mem_v1 : nat → nat → R)
    (t : nat) (x y vx vy n0 n1 : R) (p' v' : ndarray) :
  CUDA_step_lane u [t]
    (NDArray 2 [[mem_p1 0%nat 0%nat; mem_p1 0%nat 1%nat]])
    (NDArray 2 [[mem_v1 0%nat 0%nat; mem_v1 0%nat 1%nat]])
    (NDArray 2 [[x; y]]) (NDArray 2 [[vx; vy]]) (NDArray 2 [[n0; n1]])
    [1; 2 / 2; 2 / 2; 1; 0] (normal_float32 G (init_state G 0 0)).1 0
  = Some (p', v') →
  ∃ a c,
    Engine_run G u mem_p1 mem_v1 (one_agent_engine t x y vx vy n0 n1)
      = inr (Some (a, c)) ∧
    pos a = p' ∧ vel a = v'.
Proof.
  intros Hlane. unfold Engine_run, one_agent_engine.
  rewrite (run_setup_one_agent G mem_p1 mem_v1 _ _ _ [1; 2 / 2; 2 / 2; 1; 0]);
    [| reflexivity | reflexivity | apply scenario_A_param].
  cbn [rbind steps main_loop Engine_step agents Nat.modulo Nat.divmod Nat.sub
       Nat.eqb negb gridDim blockDim catype cp0 cv0 cp1 cv1 cnoise param rng
       one_agent pos vel noise atype fst snd].
  rewrite (CUDA_step_single G u 0 _ _ _ _ _ _ _ _ (init_state G 0 0));
    [| reflexivity | apply create_states_lookup; lia].
  rewrite Hlane.
  cbn [mbind option_bind]. eexists _, _. split; [reflexivity |]. split; reflexivity.
Qed.

Lemma run_one_blind (G : generator) (u : option R) (mem_p1 mem_v1 : nat → nat → R)
    (x y vx vy : R) :
  -1 <= mem_p1 0%nat 0%nat + mem_v1 0%nat 0%nat <= 1 →
  -1 <= mem_p1 0%nat 1%nat + mem_v1 0%nat 1%nat <= 1 →
  ∃ a c,
    Engine_run G u mem_p1 mem_v1 (one_blind_engine x y vx vy) = inr (Some (a, c)) ∧
    pos a = NDArray 2 [[mem_p1 0%nat 0%nat + mem_v1 0%nat 0%nat;
                        mem_p1 0%nat 1%nat + mem_v1 0%nat 1%nat]] ∧
    vel a = NDArray 2 [[mem_v1 0%nat 0%nat; mem_v1 0%nat 1%nat]].
Proof.
  intros Hx Hy. apply run_one_agent, blind_lane_inside; lra.
Qed.

(** C1 (the code departs from it). [run] starts its loop at index 0, for
    which [step] reads the pair allocated by [device_array]: whatever the
    initial position and velocity of a Blind agent and whatever its noise
    coefficients, after one step over zeroed device memory the published
    position and velocity are (0, 0). *)
Theorem run_first_step_reads_device_array (G : generator) (u : option R)
    (x y vx vy n0 n1 : R) :
  ∃ a c,
    Engine_run G u zeroed zeroed (one_agent_engine 1 x y vx vy n0 n1)
      = inr (Some (a, c)) ∧
    pos a = NDArray 2 [[0; 0]] ∧ vel a = NDArray 2 [[0; 0]].
Proof.
  apply run_one_agent. unfold zeroed. apply blind_lane_at_rest; lra.
Qed.

(** C7 (the code departs from it). Scenario A, one Blind agent at
    (0.999, 0) with velocity (0.01, 0) and no noise in the rectangle of
    half-extents (1, 1), X periodic and Y reflective, run for one step:
    the step that [run] executes has index 0 and reads the pair allocated
    by [device_array], so that over zeroed device memory the published
    position and velocity are (0, 0) and (0, 0), not (-0.991, 0) and
    (0.01, 0).  The wrapped position (-0.991, 0) with the velocity
    (0.01, 0) is what a step of odd index publishes from the state that
    the setup of [run] uploads. *)
Theorem scenario_A_run_one_step (G : generator) (u : option R) :
  (∃ a c,
     Engine_run G u zeroed zeroed scenario_A_engine = inr (Some (a, c)) ∧
     pos a = NDArray 2 [[0; 0]] ∧ vel a = NDArray 2 [[0; 0]] ∧
     pos a ≠ NDArray 2 [[-0.991; 0]] ∧ vel a ≠ NDArray 2 [[0.01; 0]]) ∧
  (∃ c a' c',
     run_setup G zeroed zeroed scenario_A_engine = inr c ∧
     Engine_step G u 1 (agents scenario_A_engine, c) = Some (a', c') ∧
     pos a' = NDArray 2 [[-0.991; 0]] ∧ vel a' = NDArray 2 [[0.01; 0]]).
Proof.
  split.
  - destruct (run_one_blind G u zeroed zeroed 0.999 0 0.01 0)
      as (a & c & Hrun & Hpos & Hvel); [unfold zeroed; lra | unfold zeroed; lra |].
    exists a, c. split; [exact Hrun |]. rewrite Hpos, Hvel. unfold zeroed.
    replace (0 + 0) with 0 by lra.
    split; [reflexivity |]. split; [reflexivity |].
    split; intros Heq; injection Heq as Heq; lra.
  - destruct (scenario_A_odd_step G u zeroed zeroed)
      as (c & Hc & _ & _ & _ & a' & c' & Hstep & Hpos & Hvel).
    exists c, a', c'. now repeat split.
Qed.

(** C8 (the code departs from it). Two runs of scenario A, with the same
    seed, the same initial state and the same number of steps, publish
    different positions when the memory handed out by [device_array]
    differs. *)
Theorem run_depends_on_device_memory (G : generator) (u : option R) :
  ∃ a c a' c',
    Engine_run G u zeroed zeroed scenario_A_engine = inr (Some (a, c)) ∧
    Engine_run G u (λ _ _, 1 / 2) (λ _ _, 1 / 4) scenario_A_engine
      = inr (Some (a', c')) ∧
    pos a ≠ pos a'.
Proof.
  destruct (run_one_blind G u zeroed zeroed 0.999 0 0.01 0) as (a & c & Hrun & Hpos & _);
    [unfold zeroed; lra | unfold zeroed; lra |].
  destruct (run_one_blind G u (λ _ _, 1 / 2) (λ _ _, 1 / 4) 0.999 0 0.01 0)
    as (a' & c' & Hrun' & Hpos' & _); [lra | lra |].
  exists a, c, a', c'. split; [exact Hrun |]. split; [exact Hrun' |].
  rewrite Hpos, Hpos'. unfold zeroed. intros Heq.
  injection Heq as Heq _. lra.
Qed.

(** ** Fixed agents *)

Lemma fixed_lane (d sample x y vx vy a b c e n0 n1 hx hy px py : R) :
  let v := Cmul (Complex vx vy) (expj (d + n1 * sample)) in
  - hx <= x + real v <= hx → - hy <= y + imag v <= hy →
  CUDA_step_lane (Some d) [0%nat] (NDArray 2 [[x; y]]) (NDArray 2 [[vx; vy]])
                 (NDArray 2 [[a; b]]) (NDArray 2 [[c; e]]) (NDArray 2 [[n0; n1]])
                 [1; hx; hy; px; py] sample 0
  = Some (NDArray 2 [[x + real v; y + imag v]], NDArray 2 [[real v; imag v]]).
Proof.
  intros v Hx Hy. unfold CUDA_step_lane. lane_reduce.
  fold v. rewrite assign_2d_rectangular. lane_reduce.
  rewrite !rect_axis_inside by assumption. lane_reduce. reflexivity.
Qed.

Lemma fixed_lane_unbound (sample : R) (p0 v0 p1 v1 noise : ndarray)
    (param : list R) (i : nat) (atype : list nat) :
  ncols p0 = 2%nat → atype !! i = Some 0%nat →
  CUDA_step_lane None atype p0 v0 p1 v1 noise param sample i = None.
Proof.
  intros Hd Ht. unfold CUDA_step_lane. rewrite Hd, Ht.
  cbn [mbind option_bind Nat.eqb].
  repeat match goal with
         | |- (?o ≫= _) = None => destruct o; cbn [mbind option_bind]; [| reflexivity]
         end.
  now destruct p.
Qed.

(** C2 (the code departs from it). A Fixed agent at (0, 0) with velocity
    (0.01, 0) in the default rectangle: whatever the read of the
    unassigned [da] yields, whatever the noise, the lane does not leave
    the source position and velocity in the destination. *)
Theorem fixed_agent_moves (u : option R) (n0 n1 sample a b c d : R) :
  CUDA_step_lane u [0%nat] (NDArray 2 [[0; 0]]) (NDArray 2 [[0.01; 0]])
                 (NDArray 2 [[a; b]]) (NDArray 2 [[c; d]]) (NDArray 2 [[n0; n1]])
                 [1; 0.5; 0.5; 1; 1] sample 0
  ≠ Some (NDArray 2 [[0; 0]], NDArray 2 [[0.01; 0]]).
Proof.
  destruct u as [da |]; [| now rewrite fixed_lane_unbound].
  set (t := da + n1 * sample).
  pose proof (COS_bound t) as Hc. pose proof (SIN_bound t) as Hs.
  rewrite fixed_lane; fold t; rewrite expj_eq; cbn [Cmul real imag]; [| lra | lra].
  intros Heq. injection Heq as Hx Hy _ _.
  apply (cos_sin_0 t). split; lra.
Qed.

(** When the unassigned [da] reads as 0 the Fixed agent moves like a Blind
    one: from (0, 0) to (0.01, 0). *)
Lemma fixed_lane_zero_init (sample a b c d : R) :
  CUDA_step_lane (Some 0) [0%nat] (NDArray 2 [[0; 0]]) (NDArray 2 [[0.01; 0]])
                 (NDArray 2 [[a; b]]) (NDArray 2 [[c; d]]) (NDArray 2 [[0; 0]])
                 [1; 0.5; 0.5; 1; 1] sample 0
  = Some (NDArray 2 [[0.01; 0]], NDArray 2 [[0.01; 0]]).
Proof.
  rewrite fixed_lane; rewrite Cmul_expj_0 by ring; cbn [real imag]; [| lra | lra].
  apply one_row_pair; lra.
Qed.

(** ** Writes to a row *)

Lemma put_overwrite (p : ndarray) (i : nat) (a b c d : R) :
  put (put (put (put p i 0 a) i 1 b) i 0 c) i 1 d
  = put (put p i 0 c) i 1 d.
Proof.
  unfold put. cbn [ncols rows]. f_equal.
  rewrite !list_alter_alter_eq. apply list_alter_ext; [| reflexivity].
  intros r _. unfold compose.
  rewrite (list_insert_insert_ne _ 0 1) by lia.
  now rewrite !list_insert_insert_eq.
Qed.

(** A write keeps the cells of the array. *)
Lemma getitem_put (a : ndarray) (i j k l : nat) (x : R) :
  is_Some (getitem (put a i j x) k l) ↔ is_Some (getitem a k l).
Proof.
  unfold getitem, put. cbn [rows].
  destruct (decide (k = i)) as [-> | Hk].
  - rewrite list_lookup_alter_eq. destruct (rows a !! i) as [r |]; cbn; [| reflexivity].
    rewrite !lookup_lt_is_Some, length_insert. reflexivity.
  - rewrite list_lookup_alter_ne by congruence. reflexivity.
Qed.

Lemma setitem_Some (a : ndarray) (i j : nat) (x : R) :
  is_Some (getitem a i j) → setitem a i j x = Some (put a i j x).
Proof. intros [y Hy]. unfold setitem. now rewrite Hy. Qed.

Lemma setitem_inv (a a' : ndarray) (i j : nat) (x : R) :
  setitem a i j x = Some a' → is_Some (getitem a i j) ∧ a' = put a i j x.
Proof.
  unfold setitem. destruct (getitem a i j) as [y |]; [| discriminate].
  cbn [mbind option_bind]. intros H. injection H as <-. eauto.
Qed.

Lemma puts_cons (a : ndarray) (i : nat) (w : nat * R) (ws : list (nat * R)) :
  puts a i (w :: ws) = puts (put a i w.1 w.2) i ws.
Proof. reflexivity. Qed.

(** The writes of a list succeed when row [i] has their cells, and then
    give the array with the cells replaced. *)
Lemma setitems_spec (a : ndarray) (i : nat) (ws : list (nat * R)) :
  setitems a i ws
  = if decide (Forall (λ w, is_Some (getitem a i w.1)) ws)
    then Some (puts a i ws) else None.
Proof.
  revert a. induction ws as [| w ws IH]; intros a; cbn [setitems].
  - now rewrite decide_True by constructor.
  - unfold setitem at 1. destruct (getitem a i w.1) as [y |] eqn:Hy;
      cbn [mbind option_bind].
    + rewrite IH, puts_cons.
      destruct (decide (Forall _ ws)) as [Hws | Hws].
      * rewrite decide_True; [reflexivity |].
        constructor; [rewrite Hy; eauto |].
        eapply Forall_impl; [exact Hws |]. intros v Hv. now apply getitem_put in Hv.
      * rewrite decide_False; [reflexivity |].
        intros Hall. apply Hws. apply Forall_cons in Hall as [_ Hall].
        eapply Forall_impl; [exact Hall |]. intros v Hv. now apply getitem_put.
    + rewrite decide_False; [reflexivity |].
      intros Hall. apply Forall_cons in Hall as [[z Hz] _]. congruence.
Qed.

(** The two cells of a row of an [(N, 2)] array. *)
Lemma setitems_pair (a : ndarray) (i : nat) (x y : R) :
  setitems a i [(0%nat, x); (1%nat, y)]
  = if decide (is_Some (getitem a i 0) ∧ is_Some (getitem a i 1))
    then Some (put (put a i 0 x) i 1 y) else None.
Proof.
  rewrite setitems_spec. cbn [puts foldl fst snd].
  destruct (decide (is_Some (getitem a i 0) ∧ is_Some (getitem a i 1))) as [[H0 H1] | Hn].
  - rewrite decide_True; [reflexivity |]. repeat constructor; assumption.
  - rewrite decide_False; [reflexivity |]. intros H.
    apply Forall_cons in H as [H0 H]. apply Forall_cons in H as [H1 _]. tauto.
Qed.

(** The copy of a Fixed agent in dimension 2, as writes. *)
Lemma copy_row_pair (p0 p1 : ndarray) (i : nat) (x y : R) :
  getitem p0 i 0 = Some x → getitem p0 i 1 = Some y →
  copy_row p0 p1 i [0; 1]%nat = setitems p1 i [(0%nat, x); (1%nat, y)].
Proof.
  intros Hx Hy. cbn [copy_row setitems fst snd]. rewrite Hx. cbn [mbind option_bind].
  destruct (setitem p1 i 0 x) as [q |]; cbn [mbind option_bind]; [| reflexivity].
  rewrite Hy. cbn [mbind option_bind]. reflexivity.
Qed.

(** A pair written over a pair. *)
Lemma setitems_pair_twice (a : ndarray) (i : nat) (x y x' y' : R) :
  (a' ← setitems a i [(0%nat, x); (1%nat, y)];
   setitems a' i [(0%nat, x'); (1%nat, y')])
  = setitems a i [(0%nat, x'); (1%nat, y')].
Proof.
  rewrite !setitems_pair.
  destruct (decide (is_Some (getitem a i 0) ∧ is_Some (getitem a i 1))) as [[H0 H1] | Hn];
    cbn [mbind option_bind]; [| reflexivity].
  rewrite setitems_pair, decide_True, put_overwrite; [reflexivity |].
  split; now do 2 apply getitem_put.
Qed.

(** A lane of dimension 2 reads the source only, and what it does to the
    destination is to write both cells of row [i] in each array; the
    values written for a Fixed agent are those of its update, the copy of
    its position being overwritten. *)
Lemma lane_dim2_writes (u : option R) (atype : list nat) (p0 v0 noise : ndarray)
    (param : list R) (sample : R) (i : nat) :
  ncols p0 = 2%nat →
  ∀ p1 v1,
    CUDA_step_lane u atype p0 v0 p1 v1 noise param sample i
    = '(px, py, vx, vy) ←
        lane_update u atype p0 v0 noise param sample i;
      p ← setitems p1 i [(0%nat, px); (1%nat, py)];
      v ← setitems v1 i [(0%nat, vx); (1%nat, vy)];
      Some (p, v).
Proof.
  intros Hd p1 v1. unfold CUDA_step_lane, lane_update. rewrite Hd.
  destruct (atype !! i) as [t |]; [| reflexivity]. cbn [mbind option_bind seq].
  assert (Hnone : ∀ (c : option ndarray) (k : ndarray → option (ndarray * ndarray)),
             (∀ q, k q = None) → c ≫= k = None).
  { intros [q |] k Hk; [apply Hk | reflexivity]. }
  destruct (param !! 0%nat) as [ar |]; cbn [mbind option_bind];
    [| now apply Hnone].
  destruct (param !! 1%nat) as [aX |]; cbn [mbind option_bind];
    [| now apply Hnone].
  destruct (param !! 2%nat) as [aY |]; cbn [mbind option_bind];
    [| now apply Hnone].
  destruct (param !! 3%nat) as [pX |]; cbn [mbind option_bind];
    [| now apply Hnone].
  destruct (param !! 4%nat) as [pY |]; cbn [mbind option_bind];
    [| now apply Hnone].
  destruct (velocity_and_noise v0 noise sample i) as [[zv an] |];
    cbn [mbind option_bind]; [| now apply Hnone].
  destruct (if Nat.eqb t 1 then Some 0 else u) as [da |];
    cbn [mbind option_bind]; [| now apply Hnone].
  destruct (getitem p0 i 0) as [x |] eqn:Hx; cbn [mbind option_bind].
  2: { destruct (Nat.eqb t 0); [| reflexivity].
       cbn [copy_row]. rewrite Hx. reflexivity. }
  destruct (getitem p0 i 1) as [y |] eqn:Hy; cbn [mbind option_bind].
  2: { destruct (Nat.eqb t 0); [| reflexivity].
       cbn [copy_row]. rewrite Hx. cbn [mbind option_bind].
       destruct (setitem p1 i 0 x); cbn [mbind option_bind]; [| reflexivity].
       rewrite Hy. reflexivity. }
  destruct (assign_2d _ _ _ _ _ _ _ _) as [[[[px py] vx] vy] |];
    cbn [mbind option_bind]; [| now apply Hnone].
  destruct (Nat.eqb t 0); cbn [mbind option_bind].
  - rewrite (copy_row_pair p0 p1 i x y Hx Hy).
    rewrite <- (setitems_pair_twice p1 i x y px py).
    destruct (setitems p1 i [(0%nat, x); (1%nat, y)]) as [q |];
      cbn [mbind option_bind]; [| reflexivity].
    cbn [setitems fst snd].
    destruct (setitem q i 0 px) as [q1 |]; cbn [mbind option_bind]; [| reflexivity].
    destruct (setitem q1 i 1 py) as [q2 |]; cbn [mbind option_bind]; [| reflexivity].
    destruct (setitem v1 i 0 vx) as [w1 |]; cbn [mbind option_bind]; [| reflexivity].
    destruct (setitem w1 i 1 vy) as [w2 |]; reflexivity.
  - cbn [setitems fst snd].
    destruct (setitem p1 i 0 px) as [q1 |]; cbn [mbind option_bind]; [| reflexivity].
    destruct (setitem q1 i 1 py) as [q2 |]; cbn [mbind option_bind]; [| reflexivity].
    destruct (setitem v1 i 0 vx) as [w1 |]; cbn [mbind option_bind]; [| reflexivity].
    destruct (setitem w1 i 1 vy) as [w2 |]; reflexivity.
Qed.

(** In dimension 2, when the unassigned [da] reads as 0, the lane of a
    Fixed agent is the lane of a Blind agent: the copy of the position is
    overwritten by the update. *)
Lemma fixed_lane_is_blind_lane (u : option R) (atype0 atype1 : list nat)
    (p0 v0 p1 v1 noise : ndarray) (param : list R) (sample : R) (i : nat) :
  ncols p0 = 2%nat → atype0 !! i = Some 0%nat → atype1 !! i = Some 1%nat →
  CUDA_step_lane (Some 0) atype0 p0 v0 p1 v1 noise param sample i
  = CUDA_step_lane u atype1 p0 v0 p1 v1 noise param sample i.
Proof.
  intros Hd H0 H1. rewrite !lane_dim2_writes by exact Hd.
  unfold lane_update. rewrite H0, H1. reflexivity.
Qed.

(** ** The noise streams *)

Lemma shape0_put (a : ndarray) (i j : nat) (x : R) :
  shape0 (put a i j x) = shape0 a.
Proof. unfold shape0, put. cbn [rows]. apply length_alter. Qed.

Lemma shape0_setitem (a a' : ndarray) (i j : nat) (x : R) :
  setitem a i j x = Some a' → shape0 a' = shape0 a.
Proof. intros H. apply setitem_inv in H as [_ ->]. apply shape0_put. Qed.

Lemma copy_row_shape0 (p0 : ndarray) (i : nat) (js : list nat) (p1 p1' : ndarray) :
  copy_row p0 p1 i js = Some p1' → shape0 p1' = shape0 p1.
Proof.
  revert p1. induction js as [| j js IH]; intros p1 H; cbn [copy_row] in H.
  - now injection H as <-.
  - destruct (getitem p0 i j) as [x |]; [| discriminate].
    cbn [mbind option_bind] in H.
    destruct (setitem p1 i j x) as [q |] eqn:Hq; [| discriminate].
    cbn [mbind option_bind] in H.
    rewrite (IH _ H). exact (shape0_setitem _ _ _ _ _ Hq).
Qed.

(** The steps of a computation that gave a result. *)
Ltac bind_inv H :=
  repeat match type of H with
         | (?o ≫= _) = Some _ =>
             let E := fresh "E" in
             destruct o eqn:E; [| discriminate H]; cbn [mbind option_bind] in H
         | (match ?p with pair _ _ => _ end) = Some _ => destruct p
         end.

Lemma CUDA_step_lane_shape0 (u : option R) (atype : list nat)
    (p0 v0 p1 v1 noise : ndarray) (param : list R) (sample : R) (i : nat)
    (p1' v1' : ndarray) :
  CUDA_step_lane u atype p0 v0 p1 v1 noise param sample i = Some (p1', v1') →
  shape0 p1' = shape0 p1 ∧ shape0 v1' = shape0 v1.
Proof.
  unfold CUDA_step_lane. intros H.
  destruct (atype !! i) as [t |]; [| discriminate]. cbn [mbind option_bind] in H.
  destruct (if Nat.eqb t 0 then _ else _) as [q |] eqn:Hq; [| discriminate].
  cbn [mbind option_bind] in H.
  assert (Hq' : shape0 q = shape0 p1).
  { destruct (Nat.eqb t 0); [exact (copy_row_shape0 _ _ _ _ _ Hq) | now injection Hq as <-]. }
  destruct (param !! 0%nat) as [arena |]; [| discriminate].
  cbn [mbind option_bind] in H.
  destruct (ncols p0) as [| [| [| [| n]]]]; bind_inv H;
    try (injection H as <- <-; now split).
  injection H as <- <-.
  repeat match goal with
         | E : setitem _ _ _ _ = Some _ |- _ => apply shape0_setitem in E
         end.
  split; congruence.
Qed.

Lemma insert_advance (G : generator) (rng : list (rng_state G)) (i : nat)
    (s : rng_state G) :
  rng !! i = Some s → <[i := advance G s]> rng = alter (advance G) i rng.
Proof.
  intros Hs. rewrite list_insert_alter.
  apply list_alter_ext; [| reflexivity].
  intros x Hx. rewrite Hs in Hx. now injection Hx as <-.
Qed.

Lemma CUDA_step_threads_rng (G : generator) (u : option R) (threads : list nat)
    (atype : list nat) (p0 v0 p1 v1 noise : ndarray) (param : list R)
    (rng : list (rng_state G)) (p1' v1' : ndarray) (rng' : list (rng_state G)) :
  CUDA_step_threads G u threads atype p0 v0 p1 v1 noise param rng
    = Some (p1', v1', rng') →
  rng' = advance_lanes G (shape0 p0) threads rng ∧
  shape0 p1' = shape0 p1 ∧ shape0 v1' = shape0 v1.
Proof.
  revert p1 v1 rng.
  induction threads as [| i rest IH]; intros p1 v1 rng H; cbn [CUDA_step_threads] in H.
  - injection H as <- <- <-. now split.
  - unfold advance_lanes. cbn [foldl]. fold (advance_lanes G (shape0 p0) rest).
    destruct (Nat.ltb i (shape0 p0)); [| exact (IH _ _ _ H)].
    destruct (rng !! i) as [s |] eqn:Hs; [| discriminate].
    cbn [mbind option_bind] in H.
    rewrite <- (insert_advance G rng i s Hs). unfold advance.
    destruct (normal_float32 G s) as [sample s'].
    destruct (CUDA_step_lane _ _ _ _ _ _ _ _ _ _) as [[q1 w1] |] eqn:Hl; [| discriminate].
    cbn [mbind option_bind] in H.
    destruct (CUDA_step_lane_shape0 _ _ _ _ _ _ _ _ _ _ _ _ Hl) as [Hq Hw].
    destruct (IH _ _ _ H) as (Hr & Hq' & Hw').
    cbn [snd]. rewrite Hr, Hq', Hw', Hq, Hw. now split.
Qed.

Lemma shape0_device_array (mem : nat → nat → R) (n d : nat) :
  shape0 (device_array mem n d) = n.
Proof. unfold shape0, device_array. cbn [rows]. now rewrite length_map, length_seq. Qed.

Lemma Engine_step_rng (G : generator) (u : option R) (i : nat)
    (a a' : Agents) (c c' : CUDA G) :
  shape0 (cp0 c) = shape0 (cp1 c) →
  Engine_step G u i (a, c) = Some (a', c') →
  rng c' = advance_lanes G (shape0 (cp0 c)) (seq 0 (gridDim c * blockDim c)) (rng c) ∧
  shape0 (cp0 c') = shape0 (cp0 c) ∧ shape0 (cp1 c') = shape0 (cp1 c) ∧
  gridDim c' = gridDim c ∧ blockDim c' = blockDim c.
Proof.
  intros Hshape H. unfold Engine_step, CUDA_step in H.
  destruct (negb _).
  - destruct (CUDA_step_threads _ _ _ _ _ _ _ _ _ _ _) as [[[q w] r] |] eqn:Hk;
      [| discriminate].
    cbn [mbind option_bind] in H. injection H as <- <-.
    destruct (CUDA_step_threads_rng _ _ _ _ _ _ _ _ _ _ _ _ _ _ Hk) as (Hr & Hq & _).
    cbn [rng cp0 cp1 gridDim blockDim]. now rewrite Hr, Hq.
  - destruct (CUDA_step_threads _ _ _ _ _ _ _ _ _ _ _) as [[[q w] r] |] eqn:Hk;
      [| discriminate].
    cbn [mbind option_bind] in H. injection H as <- <-.
    destruct (CUDA_step_threads_rng _ _ _ _ _ _ _ _ _ _ _ _ _ _ Hk) as (Hr & Hq & _).
    cbn [rng cp0 cp1 gridDim blockDim]. now rewrite Hr, Hq, Hshape.
Qed.

Lemma main_loop_rng (G : generator) (u : option R) (n i : nat)
    (a a' : Agents) (c c' : CUDA G) :
  shape0 (cp0 c) = shape0 (cp1 c) →
  main_loop G u n i (a, c) = Some (a', c') →
  rng c' = Nat.iter n (advance_lanes G (shape0 (cp0 c))
                         (seq 0 (gridDim c * blockDim c))) (rng c).
Proof.
  revert i a c. induction n as [| n IH]; intros i a c Hshape H; cbn [main_loop] in H.
  - now injection H as <- <-.
  - destruct (Engine_step G u i (a, c)) as [[a1 c1] |] eqn:Hstep; [| discriminate].
    cbn [mbind option_bind] in H.
    destruct (Engine_step_rng G u i a a1 c c1 Hshape Hstep)
      as (Hr & H0 & H1 & Hg & Hb).
    rewrite (IH _ _ _ (eq_trans H0 (eq_trans Hshape (eq_sym H1))) H).
    rewrite H0, Hg, Hb, Hr. symmetry. apply Nat.iter_succ_r.
Qed.

Lemma run_setup_fields (G : generator) (mem_p1 mem_v1 : nat → nat → R)
    (e : Engine) (c : CUDA G) :
  run_setup G mem_p1 mem_v1 e = inr c →
  blockDim c = 32%nat ∧ gridDim c = ((N_agents (agents e) + 31) / 32)%nat ∧
  rng c = create_xoroshiro128p_states G (32 * ((N_agents (agents e) + 31) / 32)) 0 ∧
  cp0 c = pos (agents e) ∧ cv0 c = vel (agents e) ∧
  cp1 c = device_array mem_p1 (N_agents (agents e)) (dimension (geom e)) ∧
  cv1 c = device_array mem_v1 (N_agents (agents e)) (dimension (geom e)) ∧
  catype c = atype (agents e) ∧ cnoise c = noise (agents e) ∧
  serialize_param (geom e) = inr (param c).
Proof.
  unfold run_setup. destruct (serialize_param (geom e)) as [err | p]; [discriminate |].
  unfold rbind. intros H. injection H as <-. repeat split; reflexivity.
Qed.

(** The first launch of [run] has the pair allocated by [device_array] as
    its source and the pair uploaded from the agents as its destination. *)
Lemma run_first_launch (G : generator) (u : option R)
    (mem_p1 mem_v1 : nat → nat → R) (e : Engine) (c : CUDA G) (n : nat) :
  run_setup G mem_p1 mem_v1 e = inr c → steps e = S n →
  Engine_run G u mem_p1 mem_v1 e
  = inr (st ← ('(p0', v0', rng') ←
                 CUDA_step G u (gridDim c) (blockDim c) (atype (agents e))
                   (device_array mem_p1 (N_agents (agents e)) (dimension (geom e)))
                   (device_array mem_v1 (N_agents (agents e)) (dimension (geom e)))
                   (pos (agents e)) (vel (agents e)) (noise (agents e))
                   (param c) (rng c);
               Some (set_vel v0' (set_pos p0' (agents e)),
                     MkCUDA (blockDim c) (gridDim c) (param c) p0' v0'
                            (cp1 c) (cv1 c) (catype c) (cnoise c) (cgroup c) rng'));
         main_loop G u n 1 st).
Proof.
  intros Hc Hn. unfold Engine_run. rewrite Hc, Hn. unfold rbind.
  destruct (run_setup_fields _ _ _ _ _ Hc)
    as (_ & _ & _ & H0 & Hv0 & H1 & Hv1 & Ht & Hno & _).
  cbn [main_loop Engine_step Nat.modulo Nat.divmod Nat.sub Nat.eqb negb fst snd].
  now rewrite H0, Hv0, H1, Hv1, Ht, Hno.
Qed.

(** The generator states that [run] leaves behind depend on the number of
    agents and of steps only: each lane has drawn [steps] times from the
    stream that seed 0 and its index determine. *)
Lemma run_noise_stream (G : generator) (u : option R)
    (mem_p1 mem_v1 : nat → nat → R) (e : Engine) (a' : Agents) (c' : CUDA G) :
  shape0 (pos (agents e)) = N_agents (agents e) →
  Engine_run G u mem_p1 mem_v1 e = inr (Some (a', c')) →
  let N := N_agents (agents e) in
  let grid := ((N + 31) / 32)%nat in
  rng c' = Nat.iter (steps e) (advance_lanes G N (seq 0 (grid * 32)))
                    (create_xoroshiro128p_states G (32 * grid) 0).
Proof.
  intros Hpos H N grid. unfold Engine_run in H.
  destruct (run_setup G mem_p1 mem_v1 e) as [err | c] eqn:Hc; [discriminate |].
  unfold rbind in H. injection H as H.
  destruct (run_setup_fields _ _ _ _ _ Hc)
    as (Hb & Hg & Hr & H0 & _ & H1 & _).
  apply main_loop_rng in H.
  - rewrite H, H0, Hpos, Hg, Hb, Hr. reflexivity.
  - now rewrite H0, H1, shape0_device_array.
Qed.

Lemma advance_lanes_cons (G : generator) (N : nat) (j : nat) (rest : list nat)
    (rng : list (rng_state G)) :
  advance_lanes G N (j :: rest) rng
  = advance_lanes G N rest (if Nat.ltb j N then alter (advance G) j rng else rng).
Proof. reflexivity. Qed.

Lemma advance_lanes_notin (G : generator) (N : nat) (threads : list nat)
    (rng : list (rng_state G)) (i : nat) :
  i ∉ threads → advance_lanes G N threads rng !! i = rng !! i.
Proof.
  revert rng. induction threads as [| j rest IH]; intros rng Hi; [reflexivity |].
  apply not_elem_of_cons in Hi as [Hij Hi].
  rewrite advance_lanes_cons, IH by exact Hi.
  destruct (Nat.ltb j N); [| reflexivity].
  apply list_lookup_alter_ne. congruence.
Qed.

Lemma advance_lanes_lookup (G : generator) (N : nat) (threads : list nat)
    (rng : list (rng_state G)) (i : nat) :
  NoDup threads → i ∈ threads → (i < N)%nat →
  advance_lanes G N threads rng !! i = advance G <$> rng !! i.
Proof.
  intros Hnd. revert rng. induction Hnd as [| j rest Hj Hnd IH]; intros rng Hi HN.
  - now apply elem_of_nil in Hi.
  - rewrite advance_lanes_cons.
    destruct (decide (i = j)) as [-> | Hij].
    + rewrite advance_lanes_notin by exact Hj.
      destruct (Nat.ltb_spec j N); [| lia]. apply list_lookup_alter_eq.
    + apply elem_of_cons in Hi as [Hi | Hi]; [contradiction |].
      rewrite IH by assumption.
      destruct (Nat.ltb j N); [| reflexivity].
      now rewrite list_lookup_alter_ne by congruence.
Qed.

Lemma iter_advance_lanes_lookup (G : generator) (N : nat) (threads : list nat)
    (n : nat) (rng : list (rng_state G)) (i : nat) (s : rng_state G) :
  NoDup threads → i ∈ threads → (i < N)%nat → rng !! i = Some s →
  Nat.iter n (advance_lanes G N threads) rng !! i = Some (Nat.iter n (advance G) s).
Proof.
  intros Hnd Hi HN Hs. induction n as [| n IH]; [exact Hs |].
  rewrite !Nat.iter_succ, advance_lanes_lookup, IH by assumption. reflexivity.
Qed.

Lemma grid_covers (N : nat) : (N <= 32 * ((N + 31) / 32))%nat.
Proof.
  pose proof (Nat.div_mod_eq (N + 31) 32) as H.
  pose proof (Nat.mod_upper_bound (N + 31) 32) as Hr. lia.
Qed.

(** The noise stream of a lane: after [run], the generator of agent [i] is
    the state that seed 0 and the index [i] determine, advanced once per
    step. *)
Lemma run_lane_stream (G : generator) (u : option R)
    (mem_p1 mem_v1 : nat → nat → R) (e : Engine) (a' : Agents) (c' : CUDA G)
    (i : nat) :
  shape0 (pos (agents e)) = N_agents (agents e) →
  Engine_run G u mem_p1 mem_v1 e = inr (Some (a', c')) →
  (i < N_agents (agents e))%nat →
  rng c' !! i = Some (Nat.iter (steps e) (advance G) (init_state G 0 i)).
Proof.
  intros Hpos Hrun Hi.
  rewrite (run_noise_stream G u mem_p1 mem_v1 e a' c' Hpos Hrun).
  pose proof (grid_covers (N_agents (agents e))) as Hgrid.
  apply iter_advance_lanes_lookup.
  - apply NoDup_seq.
  - apply elem_of_seq. lia.
  - exact Hi.
  - apply create_states_lookup. lia.
Qed.


(** ** What the first launch leaves of the initial state *)

Lemma write_rows_cons (w : nat * (R * R)) (ws : list (nat * (R * R))) (a : ndarray) :
  write_rows (w :: ws) a = write_rows ws (put (put a w.1 0 w.2.1) w.1 1 w.2.2).
Proof. reflexivity. Qed.

Lemma rows_write2 (a : ndarray) (i : nat) (x y : R) :
  rows (put (put a i 0 x) i 1 y)
  = alter (λ r, <[1%nat := y]> (<[0%nat := x]> r)) i (rows a).
Proof. unfold put. cbn [rows]. now rewrite list_alter_alter_eq. Qed.

Lemma shape_N2_write2 (N : nat) (a : ndarray) (i : nat) (x y : R) :
  shape_N2 N a → shape_N2 N (put (put a i 0 x) i 1 y).
Proof.
  intros (Hc & Hl & Hr). split; [exact Hc |]. rewrite rows_write2. split.
  - now rewrite length_alter.
  - apply Forall_alter; [exact Hr |]. intros r _ Hlen. now rewrite !length_insert.
Qed.

Lemma insert_pair (r : list R) (x y : R) :
  length r = 2%nat → <[1%nat := y]> (<[0%nat := x]> r) = [x; y].
Proof. destruct r as [| a [| b [| c r]]]; try discriminate. reflexivity. Qed.

(** After the same writes, two [(N, 2)] arrays agree on the rows that were
    written and on the rows on which they agreed before. *)
Lemma write_rows_agree (N : nat) (ws : list (nat * (R * R))) (a a' : ndarray)
    (S : nat → Prop) :
  shape_N2 N a → shape_N2 N a' →
  (∀ j, S j → rows a !! j = rows a' !! j) →
  shape_N2 N (write_rows ws a) ∧ shape_N2 N (write_rows ws a') ∧
  ∀ j, S j ∨ j ∈ ws.*1 → rows (write_rows ws a) !! j = rows (write_rows ws a') !! j.
Proof.
  revert a a' S. induction ws as [| [i [x y]] ws IH]; intros a a' S Ha Ha' HS.
  - split; [exact Ha |]. split; [exact Ha' |].
    intros j [Hj | Hj]; [now apply HS | now apply elem_of_nil in Hj].
  - rewrite !write_rows_cons. cbn [fst snd].
    destruct (IH (put (put a i 0 x) i 1 y) (put (put a' i 0 x) i 1 y)
                 (λ j, S j ∨ j = i)) as (Hb & Hb' & Hrows).
    + now apply shape_N2_write2.
    + now apply shape_N2_write2.
    + intros j Hj. rewrite !rows_write2.
      destruct (decide (j = i)) as [-> | Hne].
      * rewrite !list_lookup_alter_eq.
        destruct Ha as (_ & Hl & Hr), Ha' as (_ & Hl' & Hr').
        destruct (rows a !! i) as [r |] eqn:Hi, (rows a' !! i) as [r' |] eqn:Hi';
          cbn [fmap option_fmap option_map].
        -- rewrite !insert_pair; [reflexivity | |].
           ++ exact (Forall_lookup_1 _ _ _ _ Hr' Hi').
           ++ exact (Forall_lookup_1 _ _ _ _ Hr Hi).
        -- apply lookup_lt_Some in Hi. apply lookup_ge_None in Hi'. lia.
        -- apply lookup_ge_None in Hi. apply lookup_lt_Some in Hi'. lia.
        -- reflexivity.
      * rewrite !list_lookup_alter_ne by congruence.
        destruct Hj as [Hj | Hj]; [now apply HS | contradiction].
    + split; [exact Hb |]. split; [exact Hb' |].
      intros j Hj. apply Hrows. cbn [fmap list_fmap fst] in Hj.
      destruct Hj as [Hj | Hj]; [now left; left |].
      apply elem_of_cons in Hj as [-> | Hj]; [left; now right | now right].
Qed.

(** Writes that cover every row erase what the array held. *)
Lemma write_rows_full (N : nat) (ws : list (nat * (R * R))) (a a' : ndarray) :
  shape_N2 N a → shape_N2 N a' → (∀ j, (j < N)%nat → j ∈ ws.*1) →
  write_rows ws a = write_rows ws a'.
Proof.
  intros Ha Ha' Hcover.
  destruct (write_rows_agree N ws a a' (λ _, False) Ha Ha') as (Hb & Hb' & Hrows);
    [contradiction |].
  destruct Hb as (Hc & Hl & _), Hb' as (Hc' & Hl' & _).
  destruct (write_rows ws a) as [n rs], (write_rows ws a') as [n' rs'].
  cbn [ncols rows] in *. f_equal; [congruence |].
  apply list_eq. intros j. destruct (decide (j < N)%nat) as [Hj | Hj].
  - apply Hrows. right. now apply Hcover.
  - rewrite !lookup_ge_None_2 by lia. reflexivity.
Qed.

Lemma shape_N2_getitem (N : nat) (a : ndarray) (i j : nat) :
  shape_N2 N a → (i < N)%nat → (j < 2)%nat → is_Some (getitem a i j).
Proof.
  intros (_ & Hl & Hr) Hi Hj. unfold getitem.
  destruct (rows a !! i) as [r |] eqn:Er.
  - cbn [mbind option_bind]. apply lookup_lt_is_Some.
    rewrite (Forall_lookup_1 _ _ _ _ Hr Er). exact Hj.
  - apply lookup_ge_None in Er. lia.
Qed.

(** Both cells of a row of an [(N, 2)] array can be written. *)
Lemma setitems_shape_N2 (N : nat) (a : ndarray) (i : nat) (x y : R) :
  shape_N2 N a → (i < N)%nat →
  setitems a i [(0%nat, x); (1%nat, y)] = Some (put (put a i 0 x) i 1 y).
Proof.
  intros Ha Hi. rewrite setitems_pair, decide_True; [reflexivity |].
  split; apply (shape_N2_getitem N); (assumption || lia).
Qed.

(** In dimension 2 a lane reads the source only; what it writes are the
    two entries of its row in each destination. *)
Lemma lane_as_write (u : option R) (atype : list nat) (p0 v0 noise : ndarray)
    (param : list R) (sample : R) (i : nat) :
  ncols p0 = 2%nat →
  ∃ o : option (R * R * R * R),
    ∀ N p1 v1, shape_N2 N p1 → shape_N2 N v1 → (i < N)%nat →
      CUDA_step_lane u atype p0 v0 p1 v1 noise param sample i
      = '(px, py, vx, vy) ← o;
        Some (put (put p1 i 0 px) i 1 py,
              put (put v1 i 0 vx) i 1 vy).
Proof.
  intros Hd. exists (lane_update u atype p0 v0 noise param sample i).
  intros N p1 v1 Hp Hv Hi.
  rewrite (lane_dim2_writes u atype p0 v0 noise param sample i Hd p1 v1).
  destruct (lane_update _ _ _ _ _ _ _ _) as [[[[px py] vx] vy] |];
    cbn [mbind option_bind]; [| reflexivity].
  rewrite (setitems_shape_N2 N p1 i px py Hp Hi),
          (setitems_shape_N2 N v1 i vx vy Hv Hi).
  reflexivity.
Qed.

(** A launch in dimension 2 reads the source only; what it writes are the
    rows of the agents, once each. *)
Lemma threads_as_writes (G : generator) (u : option R) (threads : list nat)
    (atype : list nat) (p0 v0 noise : ndarray) (param : list R)
    (rng : list (rng_state G)) :
  ncols p0 = 2%nat →
  ∃ o : option (list (nat * (R * R)) * list (nat * (R * R)) * list (rng_state G)),
    (∀ p1 v1, shape_N2 (shape0 p0) p1 → shape_N2 (shape0 p0) v1 →
       CUDA_step_threads G u threads atype p0 v0 p1 v1 noise param rng
       = '(wp, wv, r) ← o; Some (write_rows wp p1, write_rows wv v1, r)) ∧
    (∀ wp wv r, o = Some (wp, wv, r) →
       wp.*1 = filter (λ i, i < shape0 p0)%nat threads ∧
       wv.*1 = filter (λ i, i < shape0 p0)%nat threads).
Proof.
  intros Hd. revert rng. induction threads as [| i rest IH]; intros rng.
  - exists (Some ([], [], rng)). split; [reflexivity |].
    intros wp wv r H. injection H as <- <- <-. now split.
  - cbn [CUDA_step_threads]. destruct (Nat.ltb_spec i (shape0 p0)) as [Hi | Hi].
    + destruct (rng !! i) as [s |]; cbn [mbind option_bind].
      2: { exists None. split; [reflexivity | discriminate]. }
      destruct (normal_float32 G s) as [sample s'].
      destruct (lane_as_write u atype p0 v0 noise param sample i Hd) as [ol Hl].
      destruct (IH (<[i:=s']> rng)) as (o' & Ho' & Hf).
      destruct ol as [[[[px py] vx] vy] |].
      2: { exists None. split; [| discriminate]. intros p1 v1 Hp Hv.
           now rewrite (Hl _ p1 v1 Hp Hv Hi). }
      destruct o' as [[[wp wv] r] |].
      2: { exists None. split; [| discriminate]. intros p1 v1 Hp Hv.
           rewrite (Hl _ p1 v1 Hp Hv Hi). cbn [mbind option_bind].
           rewrite Ho' by now apply shape_N2_write2. reflexivity. }
      exists (Some ((i, (px, py)) :: wp, (i, (vx, vy)) :: wv, r)). split.
      * intros p1 v1 Hp Hv. rewrite (Hl _ p1 v1 Hp Hv Hi). cbn [mbind option_bind].
        rewrite Ho' by now apply shape_N2_write2. reflexivity.
      * intros wp' wv' r' H. injection H as <- <- <-.
        destruct (Hf wp wv r eq_refl) as [Hwp Hwv].
        rewrite !fmap_cons, Hwp, Hwv, filter_cons_True by exact Hi.
        now split.
    + destruct (IH rng) as (o' & Ho' & Hf). exists o'. split; [exact Ho' |].
      intros wp wv r H. rewrite filter_cons_False by lia. exact (Hf wp wv r H).
Qed.

Lemma shape_N2_shape0 (N : nat) (a : ndarray) : shape_N2 N a → shape0 a = N.
Proof. now intros (_ & H & _). Qed.

(** A launch that covers every agent leaves nothing of what the
    destination held. *)
Lemma CUDA_step_erases (G : generator) (u : option R) (gridDim blockDim : nat)
    (atype : list nat) (p0 v0 p1 v1 p1' v1' noise : ndarray) (param : list R)
    (rng : list (rng_state G)) :
  ncols p0 = 2%nat → (shape0 p0 <= gridDim * blockDim)%nat →
  shape_N2 (shape0 p0) p1 → shape_N2 (shape0 p0) v1 →
  shape_N2 (shape0 p0) p1' → shape_N2 (shape0 p0) v1' →
  CUDA_step G u gridDim blockDim atype p0 v0 p1' v1' noise param rng
  = CUDA_step G u gridDim blockDim atype p0 v0 p1 v1 noise param rng.
Proof.
  intros Hd Hgrid Hp Hv Hp' Hv'. unfold CUDA_step.
  destruct (threads_as_writes G u (seq 0 (gridDim * blockDim)) atype p0 v0 noise
              param rng Hd) as (o & Ho & Hf).
  rewrite !Ho by assumption. destruct o as [[[wp wv] r] |]; [| reflexivity].
  destruct (Hf wp wv r eq_refl) as [Hwp Hwv]. cbn [mbind option_bind].
  assert (Hcover : ∀ j, (j < shape0 p0)%nat →
                        j ∈ filter (λ i, i < shape0 p0)%nat (seq 0 (gridDim * blockDim))).
  { intros j Hj. apply list_elem_of_filter. split; [exact Hj |].
    apply elem_of_seq. lia. }
  rewrite (write_rows_full (shape0 p0) wp p1' p1), (write_rows_full (shape0 p0) wv v1' v1);
    try assumption; [reflexivity | |]; intros j Hj; [rewrite Hwv | rewrite Hwp];
    now apply Hcover.
Qed.

(** In dimension 2 the outcome of [run] over at least one step does not
    depend on the initial positions and velocities of the agents: the
    first launch reads the [device_array] pair and overwrites them. *)
Lemma run_ignores_initial_state (G : generator) (u : option R)
    (mem_p1 mem_v1 : nat → nat → R) (e : Engine) (p' v' : ndarray) :
  dimension (geom e) = 2%nat → steps e ≠ 0%nat →
  shape_N2 (N_agents (agents e)) (pos (agents e)) →
  shape_N2 (N_agents (agents e)) (vel (agents e)) →
  shape_N2 (N_agents (agents e)) p' → shape_N2 (N_agents (agents e)) v' →
  Engine_run G u mem_p1 mem_v1
             (MkEngine (geom e) (set_vel v' (set_pos p' (agents e))) (steps e))
  = Engine_run G u mem_p1 mem_v1 e.
Proof.
  intros Hdim Hsteps Hp Hv Hp' Hv'. unfold Engine_run, run_setup.
  cbn [geom agents steps set_vel set_pos N_agents pos vel atype noise group].
  destruct (serialize_param (geom e)) as [err | p]; [reflexivity |].
  unfold rbind. f_equal.
  destruct (steps e) as [| n]; [contradiction |].
  cbn [main_loop]. f_equal. unfold Engine_step.
  cbn [Nat.modulo Nat.divmod Nat.sub Nat.eqb negb fst snd
       gridDim blockDim catype cp0 cv0 cp1 cv1 cnoise cgroup param rng
       N_agents pos vel atype noise group N_groups group_names].
  pose proof (grid_covers (N_agents (agents e))) as Hgrid.
  rewrite (CUDA_step_erases G u _ _ _ _ _ (pos (agents e)) (vel (agents e)) p' v');
    rewrite ?shape0_device_array; try assumption; [reflexivity | lia].
Qed.

(** ** Dimensions other than 2 *)

Lemma serialize_param_1 :
  serialize_param (Geometry_init 1 None None None) = inr [1; 1 / 2; 1].
Proof. reflexivity. Qed.

Lemma serialize_param_3 :
  serialize_param (Geometry_init 3 None None None)
  = inr [1; 1 / 2; 1 / 2; 1 / 2; 1; 1; 1].
Proof. reflexivity. Qed.

Lemma run_setup_ok (G : generator) (mem_p1 mem_v1 : nat → nat → R) (e : Engine)
    (p : list R) :
  serialize_param (geom e) = inr p →
  ∃ c, run_setup G mem_p1 mem_v1 e = inr c ∧ param c = p.
Proof. intros H. unfold run_setup. rewrite H. eexists. split; reflexivity. Qed.

Lemma run_setup_unbound_param (G : generator) (mem_p1 mem_v1 : nat → nat → R)
    (e : Engine) :
  dimension (geom e) ≠ 1%nat → dimension (geom e) ≠ 2%nat →
  dimension (geom e) ≠ 3%nat →
  run_setup G mem_p1 mem_v1 e = inl (UnboundLocalError "param").
Proof.
  intros H1 H2 H3. unfold run_setup, serialize_param.
  destruct (dimension (geom e)) as [| [| [| [| n]]]]; try reflexivity; contradiction.
Qed.

(** Outside dimension 2 the kernel has no update stage: when the reads of
    the lane succeed it leaves the destination as the copy of a Fixed agent
    made it, and it has no result when one of them fails. *)
Lemma lane_other_dimension (u : option R) (atype : list nat)
    (p0 v0 p1 v1 noise : ndarray) (param : list R) (sample : R) (i : nat) :
  ncols p0 ≠ 2%nat → reads_ok (ncols p0) v0 noise param i →
  CUDA_step_lane u atype p0 v0 p1 v1 noise param sample i
  = t ← atype !! i;
    p1' ← (if Nat.eqb t 0 then copy_row p0 p1 i (seq 0 (ncols p0)) else Some p1);
    Some (p1', v1).
Proof.
  intros Hd (Hp & [a Ha] & [b Hb] & [n Hn]).
  unfold CUDA_step_lane, velocity_and_noise. rewrite Ha, Hb, Hn.
  destruct (atype !! i) as [t |]; [| reflexivity]. cbn [mbind option_bind].
  destruct (if Nat.eqb t 0 then _ else _) as [q |]; [| reflexivity].
  cbn [mbind option_bind].
  destruct (ncols p0) as [| [| [| [| k]]]]; try contradiction;
    cbn [param_reads] in Hp;
    repeat match type of Hp with
           | Forall _ (_ :: _) =>
               let x := fresh "x" in let E := fresh "E" in
               apply Forall_cons in Hp as [[x E] Hp]; rewrite E
           end;
    reflexivity.
Qed.

Lemma velocity_and_noise_inv (v0 noise : ndarray) (sample : R) (i : nat)
    (r : complex * R) :
  velocity_and_noise v0 noise sample i = Some r →
  ∃ vx vy n, getitem v0 i 0 = Some vx ∧ getitem v0 i 1 = Some vy ∧
             getitem noise i 1 = Some n ∧ r = (Complex vx vy, n * sample).
Proof.
  unfold velocity_and_noise. intros H. bind_inv H. injection H as <-.
  eauto 10.
Qed.

Lemma lane_failed_read (u : option R) (atype : list nat)
    (p0 v0 p1 v1 noise : ndarray) (param : list R) (sample : R) (i : nat) :
  ncols p0 ≠ 2%nat → ¬ reads_ok (ncols p0) v0 noise param i →
  CUDA_step_lane u atype p0 v0 p1 v1 noise param sample i = None.
Proof.
  intros Hd Hno.
  destruct (CUDA_step_lane _ _ _ _ _ _ _ _ _ _) as [[q w] |] eqn:H; [| reflexivity].
  exfalso. apply Hno. unfold CUDA_step_lane in H.
  destruct (atype !! i) as [t |]; [| discriminate]. cbn [mbind option_bind] in H.
  destruct (if Nat.eqb t 0 then _ else _) as [q' |]; [| discriminate].
  cbn [mbind option_bind] in H.
  destruct (ncols p0) as [| [| [| [| k]]]]; try contradiction; bind_inv H;
    match goal with
    | E : velocity_and_noise _ _ _ _ = Some _ |- _ =>
        apply velocity_and_noise_inv in E as (vx & vy & n & Hx & Hy & Hn & _)
    end;
    unfold reads_ok; cbn [param_reads];
    repeat lazymatch goal with |- _ ∧ _ => split end;
    repeat constructor; eauto.
Qed.

Lemma CUDA_step_lane_no_update (u : option R) (atype : list nat)
    (p0 v0 p1 v1 noise : ndarray) (param : list R) (sample : R) (i t : nat) :
  ncols p0 ≠ 2%nat → atype !! i = Some t → t ≠ 0%nat →
  reads_ok (ncols p0) v0 noise param i →
  CUDA_step_lane u atype p0 v0 p1 v1 noise param sample i = Some (p1, v1).
Proof.
  intros Hd Ht Hfix Hreads. rewrite lane_other_dimension by assumption.
  rewrite Ht. cbn [mbind option_bind].
  destruct (Nat.eqb_spec t 0); [contradiction | reflexivity].
Qed.

Lemma CUDA_step_lane_fixed_copy (u : option R) (atype : list nat)
    (p0 v0 p1 v1 noise : ndarray) (param : list R) (sample : R) (i : nat) :
  ncols p0 ≠ 2%nat → atype !! i = Some 0%nat →
  reads_ok (ncols p0) v0 noise param i →
  CUDA_step_lane u atype p0 v0 p1 v1 noise param sample i
  = p1' ← copy_row p0 p1 i (seq 0 (ncols p0)); Some (p1', v1).
Proof.
  intros Hd Ht Hreads. rewrite lane_other_dimension by assumption.
  rewrite Ht. reflexivity.
Qed.

(** ** [add_group] *)

Lemma concatenate_noise (a : ndarray) (N : nat) (x : ndarray) :
  concatenate a (Block2 (group_noise N)) = inr x →
  ncols a = 2%nat ∧ x = NDArray (ncols a) (rows a ++ replicate N [0; 0.1]).
Proof.
  unfold concatenate, group_noise. cbn [ncols rows].
  destruct (decide (ncols a = 2%nat)); [| discriminate].
  intros H. now injection H as <-.
Qed.

Lemma define_agents_noise (gtype : string) (gname : pyval) (N : nat)
    (pos_new vel_new : block) (a a' : Agents) :
  define_agents gtype gname N pos_new vel_new a = (inr (), a') →
  ncols (noise a) = 2%nat ∧
  noise a' = NDArray (ncols (noise a)) (rows (noise a) ++ replicate N [0; 0.1]).
Proof.
  unfold define_agents.
  destruct (index_of _ _) as [t |]; [| discriminate].
  destruct (concatenate _ pos_new) as [? | p]; [discriminate |].
  destruct (concatenate _ vel_new) as [? | v]; [discriminate |].
  destruct (concatenate _ (Block2 _)) as [? | x] eqn:Hx; [discriminate |].
  apply concatenate_noise in Hx. cbn [noise set_vel set_pos set_atype set_N_agents] in Hx.
  destruct Hx as [Hc ->].
  destruct (name_index gname _) as [? | found]; [discriminate |].
  destruct found; intros H; injection H as <-; now split.
Qed.

(** C9. Whatever the arguments of [add_group], when the call succeeds the
    noise column has grown by [N] rows that are all [(0, 0.1)]: speed-noise
    coefficient 0 and angular-noise coefficient 0.1. *)
Theorem add_group_noise (rnd : np_random) (g : Geometry) (gtype : string)
    (N : nat) (kwargs : gmap string pyval) (a a' : Agents) :
  add_group rnd g gtype N kwargs a = (inr (), a') →
  noise a' = NDArray (ncols (noise a)) (rows (noise a) ++ replicate N [0; 0.1]).
Proof.
  unfold add_group.
  destruct (initial_conditions rnd g N kwargs) as [? | [pos_new vel_new]];
    [discriminate |].
  intros H. now apply define_agents_noise in H.
Qed.

Lemma add_group_example :
  ∃ a', add_group constant_draws (Geometry_init 2 None None None) "Blind" 2
                  noise_kwargs (Agents_init 2) = (inr (), a').
Proof.
  unfold add_group, initial_conditions, noise_kwargs.
  rewrite !lookup_singleton_ne by discriminate.
  destruct (decide (is_Some None)) as [[? Hn] | _]; [discriminate |].
  cbn [rbind default_initial_condition subscript].
  rewrite lookup_insert_eq. cbn [rbind is_none_or_str].
  rewrite lookup_insert_ne, lookup_insert_ne, lookup_insert_eq by discriminate.
  rewrite lookup_insert_ne, lookup_insert_eq by discriminate.
  cbn [rbind is_none_or_str].
  eexists. reflexivity.
Qed.

Lemma add_group_noise_witness :
  ∃ a', add_group constant_draws (Geometry_init 2 None None None) "Blind" 2
                  noise_kwargs (Agents_init 2) = (inr (), a') ∧
        noise a' = NDArray 2 ([] ++ replicate 2 [0; 0.1]).
Proof.
  destruct add_group_example as [a' H]. exists a'. split; [exact H |].
  exact (add_group_noise _ _ _ _ _ _ _ H).
Defined.

(** A group can only be added when the noise column has two entries per
    agent, that is in dimension 2. *)
Lemma add_group_dimension (rnd : np_random) (g : Geometry) (gtype : string)
    (N : nat) (kwargs : gmap string pyval) (a : Agents) :
  ncols (noise a) ≠ 2%nat → (add_group rnd g gtype N kwargs a).1 ≠ inr ().
Proof.
  intros Hd. destruct (add_group rnd g gtype N kwargs a) as [r a'] eqn:H.
  cbn [fst]. intros ->. unfold add_group in H.
  destruct (initial_conditions rnd g N kwargs) as [? | [pos_new vel_new]];
    [discriminate |].
  apply define_agents_noise in H. now destruct H.
Qed.

(** C10. With the keyword [initial_condition] present and the keyword
    [IC] absent, [add_group] raises [KeyError('IC')] and leaves the agents
    as they were. *)
Theorem add_group_KeyError (rnd : np_random) (g : Geometry) (gtype : string)
    (N : nat) (kwargs : gmap string pyval) (a : Agents) :
  is_Some (kwargs !! "initial_condition"%string) →
  kwargs !! "IC"%string = None →
  add_group rnd g gtype N kwargs a = (inl (KeyError "IC"), a).
Proof.
  intros Hic HIC. unfold add_group, initial_conditions.
  destruct (decide (is_Some _)); [| contradiction].
  rewrite HIC. reflexivity.
Qed.

Lemma add_group_KeyError_witness :
  add_group constant_draws (Geometry_init 2 None None None) "blind" 5
            initial_condition_kwargs (Agents_init 2)
  = (inl (KeyError "IC"), Agents_init 2).
Proof.
  apply add_group_KeyError.
  - unfold initial_condition_kwargs. rewrite lookup_singleton_eq. eauto.
  - apply lookup_singleton_ne. discriminate.
Defined.

(** ** Unsupported dimensions *)

(** C3 (amended). [run] checks no dimension and raises no configuration
    error: for dimension 1 or 3 with the default shape and periodicity its
    setup succeeds and serializes 3 or 7 parameters; for a dimension other
    than 1, 2 and 3 it raises [UnboundLocalError] for [param], in the
    setup.  [add_group] does not succeed when the noise column is not two
    entries wide, as in any dimension other than 2.  In the kernel a lane
    of a dimension other than 2 still reads the parameters of its
    dimension, both entries 0 and 1 of its velocity row and entry 1 of its
    noise row; when these reads are inside their arrays it writes nothing
    for an agent that is not Fixed, no candidate position and no velocity,
    and when one of them is not it has no result. *)
Theorem unsupported_dimension (G : generator) (mem_p1 mem_v1 : nat → nat → R) :
  (∀ d kw_arena,
     d = 1%nat ∨ d = 3%nat →
     kw_arena = None ∨ kw_arena = Some "rectangular"%string
       ∨ kw_arena = Some "circular"%string →
     ∃ c, run_setup G mem_p1 mem_v1 (Engine_init d kw_arena None None) = inr c ∧
          length (param c) = (2 * d + 1)%nat) ∧
  (∀ e, dimension (geom e) ≠ 1%nat → dimension (geom e) ≠ 2%nat →
        dimension (geom e) ≠ 3%nat →
        run_setup G mem_p1 mem_v1 e = inl (UnboundLocalError "param")) ∧
  (∀ rnd g gtype N kwargs a,
     ncols (noise a) ≠ 2%nat → (add_group rnd g gtype N kwargs a).1 ≠ inr ()) ∧
  (∀ u atype p0 v0 p1 v1 noise param sample i t,
     ncols p0 ≠ 2%nat → atype !! i = Some t → t ≠ 0%nat →
     (reads_ok (ncols p0) v0 noise param i →
      CUDA_step_lane u atype p0 v0 p1 v1 noise param sample i = Some (p1, v1)) ∧
     (¬ reads_ok (ncols p0) v0 noise param i →
      CUDA_step_lane u atype p0 v0 p1 v1 noise param sample i = None)).
Proof.
  split; [| split; [| split]].
  - intros d kw Hd Hkw.
    assert (Hp : ∃ p, serialize_param (geom (Engine_init d kw None None)) = inr p
                      ∧ length p = (2 * d + 1)%nat).
    { destruct Hd as [-> | ->], Hkw as [-> | [-> | ->]];
        (eexists; split; reflexivity). }
    destruct Hp as (p & Hp & Hlen).
    destruct (run_setup_ok G mem_p1 mem_v1 _ p Hp) as (c & Hc & Hpc).
    exists c. split; [exact Hc | now rewrite Hpc].
  - apply run_setup_unbound_param.
  - apply add_group_dimension.
  - intros u atype p0 v0 p1 v1 noise param sample i t Hd Ht Hfix. split.
    + now apply CUDA_step_lane_no_update with t.
    + now apply lane_failed_read.
Qed.

Lemma unsupported_dimension_witness :
  (∃ c, run_setup null_generator zeroed zeroed (Engine_init 3 None None None) = inr c ∧
        length (param c) = 7%nat) ∧
  run_setup null_generator zeroed zeroed (Engine_init 4 None None None)
    = inl (UnboundLocalError "param") ∧
  (add_group constant_draws (Geometry_init 3 None None None) "blind" 1 ∅
             (Agents_init 3)).1 ≠ inr () ∧
  CUDA_step_lane None [1%nat] (NDArray 3 [[0; 0; 0]]) (NDArray 3 [[1; 0; 0]])
                 (NDArray 3 [[5; 5; 5]]) (NDArray 3 [[7; 7; 7]])
                 (NDArray 2 [[0; 0]])
                 [1; 1 / 2; 1 / 2; 1 / 2; 1; 1; 1] 0 0
  = Some (NDArray 3 [[5; 5; 5]], NDArray 3 [[7; 7; 7]]) ∧
  CUDA_step_lane None [1%nat] (NDArray 1 [[0]]) (NDArray 1 [[1]])
                 (NDArray 1 [[5]]) (NDArray 1 [[7]])
                 (NDArray 2 [[0; 0]]) [1; 1 / 2; 1] 0 0
  = None.
Proof.
  destruct (unsupported_dimension null_generator zeroed zeroed)
    as (H13 & Hother & Hadd & Hlane).
  split; [| split; [| split; [| split]]].
  - apply (H13 3%nat None); [right | left]; reflexivity.
  - apply Hother; cbn; lia.
  - apply Hadd. cbn. lia.
  - apply (Hlane None [1%nat] _ _ _ _ _ _ _ 0%nat 1%nat); [cbn; lia | reflexivity | lia |].
    unfold reads_ok. cbn [ncols param_reads].
    repeat lazymatch goal with |- _ ∧ _ => split end;
      repeat constructor; eexists; reflexivity.
  - apply (Hlane None [1%nat] _ _ _ _ _ _ _ 0%nat 1%nat); [cbn; lia | reflexivity | lia |].
    intros (_ & _ & [x Hx] & _). discriminate Hx.
Defined.

(** C3, as stated: the setup of [run] for an engine of dimension 3 raises
    nothing. *)
Lemma setup_accepts_dimension_3 :
  ¬ raises (run_setup null_generator zeroed zeroed (Engine_init 3 None None None)).
Proof.
  destruct (run_setup_ok null_generator zeroed zeroed (Engine_init 3 None None None)
              _ serialize_param_3) as (c & Hc & _).
  intros [err Herr]. rewrite Hc in Herr. discriminate.
Qed.

(** * Further properties *)

(** ** Boundary resolution *)

Lemma rect_axis_periodic_wrap (c v R p : R) :
  p ≠ 0 → periodic_wrap R c v (rect_axis c v R p).1 (rect_axis c v R p).2.
Proof.
  intros Hp. repeat split.
  - rewrite rect_axis_periodic_above by lra. cbn [fst]. lra.
  - now rewrite rect_axis_periodic_above by lra.
  - rewrite rect_axis_periodic_below by lra. cbn [fst]. lra.
  - now rewrite rect_axis_periodic_below by lra.
  - now rewrite rect_axis_inside by lra.
  - now rewrite rect_axis_inside by lra.
Qed.

(** X1. Rectangular arena, periodic walls: on each axis whose periodicity
    flag is not 0, a candidate [R + δ] reappears at [- R + δ], a candidate
    [- R - δ] (half-extent [R >= 0]) at [R - δ], a candidate inside
    [[-R, R]] stays; the velocity component is returned as it is. *)
Theorem rectangular_periodic_wrap (z0 z1 zv : complex) (aX aY pX pY : R) :
  ∃ px py vx vy,
    assign_2d z0 z1 zv 1 aX aY pX pY = Some (px, py, vx, vy) ∧
    (pX ≠ 0 → periodic_wrap aX (real z1) (real zv) px vx) ∧
    (pY ≠ 0 → periodic_wrap aY (imag z1) (imag zv) py vy).
Proof.
  eexists _, _, _, _. split; [apply assign_2d_rectangular |].
  split; intros Hp; now apply rect_axis_periodic_wrap.
Qed.

Lemma rectangular_periodic_wrap_witness :
  assign_2d (Complex 1 (-1)) (Complex (3 / 2) (- 3 / 2)) (Complex (1 / 2) (- 1 / 2))
            1 1 1 1 1
  = Some (- (1 / 2), 1 / 2, 1 / 2, - 1 / 2).
Proof.
  destruct (rectangular_periodic_wrap (Complex 1 (-1))
              (Complex (3 / 2) (- 3 / 2)) (Complex (1 / 2) (- 1 / 2)) 1 1 1 1)
    as (px & py & vx & vy & -> & HX & HY).
  assert (H1 : (1 : R) ≠ 0) by lra.
  destruct (HX H1) as [Hup _]. destruct (HY H1) as (_ & Hdown & _).
  destruct (Hup (1 / 2)) as [-> ->]; [lra | cbn [real]; lra |].
  destruct (Hdown (1 / 2)) as [-> ->]; [lra | lra | cbn [imag]; lra |].
  cbn [real imag]. repeat f_equal; lra.
Defined.

Lemma rect_axis_contained (c v R p : R) :
  0 <= R → - 3 * R <= c <= 3 * R → - R <= (rect_axis c v R p).1 <= R.
Proof.
  intros HR Hc. unfold rect_axis, Rgtb, Rltb.
  destruct (truthy p), (Rgt_dec c R), (Rlt_dec c (- R)); cbn [fst]; lra.
Qed.

(** X2. Rectangular arena: a candidate that is at most two half-extents
    beyond a wall on each axis is resolved into the arena, whatever the
    boundary policy of the axis. *)
Theorem rectangular_contained (z0 z1 zv : complex) (aX aY pX pY : R) :
  0 <= aX → 0 <= aY →
  - 3 * aX <= real z1 <= 3 * aX → - 3 * aY <= imag z1 <= 3 * aY →
  ∃ px py vx vy,
    assign_2d z0 z1 zv 1 aX aY pX pY = Some (px, py, vx, vy) ∧
    - aX <= px <= aX ∧ - aY <= py <= aY.
Proof.
  intros HX HY Hx Hy. eexists _, _, _, _. split; [apply assign_2d_rectangular |].
  split; now apply rect_axis_contained.
Qed.

Lemma rectangular_contained_witness :
  ∃ px py vx vy,
    assign_2d (Complex 0 0) (Complex (5 / 2) (- 3)) (Complex (5 / 2) (- 3))
              1 1 1 0 1 = Some (px, py, vx, vy) ∧
    - 1 <= px <= 1 ∧ - 1 <= py <= 1.
Proof. apply rectangular_contained; cbn [real imag]; lra. Defined.

Lemma rect_axis_velocity (c v R p : R) :
  (rect_axis c v R p).2 = v ∨ (rect_axis c v R p).2 = - v.
Proof.
  unfold rect_axis, Rgtb, Rltb.
  destruct (truthy p), (Rgt_dec c R), (Rlt_dec c (- R)); cbn [snd]; auto.
Qed.

Lemma assign_2d_speed (z0 z1 zv : complex) (arena aX aY pX pY px py vx vy : R) :
  assign_2d z0 z1 zv arena aX aY pX pY = Some (px, py, vx, vy) →
  Cabs (Complex vx vy) = Cabs zv.
Proof.
  unfold assign_2d, reflexive_circular. intros H.
  destruct (Reqb arena 0).
  - destruct (Rgtb (Cabs z1) aX); [destruct (truthy pX) |].
    + injection H as _ _ <- <-. now destruct zv.
    + destruct (crossing_phi z0 zv aX) as [phi |]; [| discriminate].
      cbn [mbind option_bind] in H. injection H as _ _ <- <-.
      change (Complex (real ?z) (imag ?z)) with z. apply Cabs_rotate.
    + injection H as _ _ <- <-. now destruct zv.
  - destruct (Reqb arena 1); [| discriminate].
    pose proof (rect_axis_velocity (real z1) (real zv) aX pX) as HvX.
    pose proof (rect_axis_velocity (imag z1) (imag zv) aY pY) as HvY.
    destruct (rect_axis (real z1) _ _ _) as [qx wx].
    destruct (rect_axis (imag z1) _ _ _) as [qy wy].
    injection H as _ _ <- <-. cbn [snd] in HvX, HvY.
    unfold Cabs. cbn [real imag]. f_equal.
    destruct HvX as [-> | ->], HvY as [-> | ->]; ring.
Qed.

(** X3. Whatever the arena and the boundary policy, when [assign_2d] has a
    result the velocity it returns has the magnitude of the velocity it
    was given. *)
Theorem assign_2d_keeps_speed (z0 z1 zv : complex)
    (arena aX aY pX pY px py vx vy : R) :
  assign_2d z0 z1 zv arena aX aY pX pY = Some (px, py, vx, vy) →
  Cabs (Complex vx vy) = Cabs zv.
Proof. apply assign_2d_speed. Qed.

Lemma reflective_bounce_example :
  assign_2d (Complex 1 0) (Complex (3 / 2) 0) (Complex (1 / 2) 0) 1 1 1 0 0
  = Some (2 * 1 - 3 / 2, 0, - (1 / 2), 0).
Proof.
  rewrite assign_2d_rectangular. cbn [real imag].
  rewrite rect_axis_reflective_above, rect_axis_inside by lra. reflexivity.
Qed.

Lemma assign_2d_keeps_speed_witness :
  Cabs (Complex (- (1 / 2)) 0) = Cabs (Complex (1 / 2) 0).
Proof.
  exact (assign_2d_keeps_speed _ _ _ _ _ _ _ _ _ _ _ _ reflective_bounce_example).
Defined.

(** X4. Circular arena of radius [R], periodic: a candidate outside the
    arena at radius at most [3 R] is resolved into the arena. *)
Theorem circular_periodic_contained (z0 z1 zv : complex) (R aY pX pY : R) :
  pX ≠ 0 → R < Cabs z1 → Cabs z1 <= 3 * R →
  ∃ px py,
    assign_2d z0 z1 zv 0 R aY pX pY = Some (px, py, real zv, imag zv) ∧
    Cabs (Complex px py) <= R.
Proof.
  intros Hp Hout Hin. eexists _, _.
  split; [apply assign_2d_circular_periodic; [exact Hp | lra] |].
  change (Complex (real ?z) (imag ?z)) with z.
  rewrite Cabs_rect_abs. apply Rabs_le. lra.
Qed.

Lemma circular_periodic_contained_witness :
  ∃ px py,
    assign_2d (Complex 0 0) (Complex 3 0) (Complex 3 0) 0 1 1 1 1
      = Some (px, py, 3, 0) ∧
    Cabs (Complex px py) <= 1.
Proof.
  apply (circular_periodic_contained (Complex 0 0) (Complex 3 0) (Complex 3 0));
    rewrite ?Cabs_real_pos; lra.
Defined.

(** X5. The crossing point [rect(R, phi)] of the reflexive circular branch
    lies on the circle of radius [|R|] and on the line through the old
    position along the velocity.  For a move that starts in the arena
    (radius [R > 0]) it is ahead of the old position: it is reached from
    the old position along the direction of the velocity after a
    distance [d >= 0], and before the end of the move when the candidate
    is outside the arena. *)
Theorem crossing_point_on_path (z0 zv : complex) (R phi : R) :
  crossing_phi z0 zv R = Some phi →
  Cabs (rect R phi) = Rabs R ∧
  cross (Csub (rect R phi) z0) zv = 0 ∧
  0 <= cos (phi - phase zv) ∧
  (0 < R → Cabs z0 <= R →
   ∃ d, 0 <= d ∧ rect R phi = Cadd z0 (rect d (phase zv)) ∧
        Cabs (Csub (rect R phi) z0) = d ∧
        (Cabs (Cadd z0 zv) > R → d < Cabs zv)).
Proof.
  intros H. destruct (crossing_phi_trig _ _ _ _ H) as (_ & Hcos & Hc & Hs).
  split; [apply Cabs_rect_abs |]. split; [| split; [exact Hcos |]].
  - destruct (polar_form zv) as [Hre Him].
    pose proof (sin2_cos2 (phase zv)) as H1. unfold Rsqr in H1.
    unfold cross, Csub, rect. cbn [real imag]. rewrite Hre, Him, Hc, Hs.
    set (c := cos (phase zv)) in *. set (s := sin (phase zv)) in *.
    set (k := R * cos (phi - phase zv)). set (r := Cabs zv).
    nsatz.
  - intros HR Hz0.
    pose proof (crossing_distance_nonneg _ _ _ _ HR Hz0 H) as Hd.
    exists (R * cos (phi - phase zv)
            - (real z0 * cos (phase zv) + imag z0 * sin (phase zv))).
    split; [exact Hd |]. split; [now apply crossing_point_ahead |].
    split; [rewrite (crossing_offset _ _ _ _ H); now apply Cabs_rect |].
    intros Hout. now apply crossing_within_reach.
Qed.

Lemma crossing_point_on_path_witness :
  ∃ phi,
    crossing_phi (Complex 0 (1 / 2)) (Complex 1 0) 1 = Some phi ∧
    Cabs (rect 1 phi) = Rabs 1 ∧
    cross (Csub (rect 1 phi) (Complex 0 (1 / 2))) (Complex 1 0) = 0 ∧
    0 <= cos (phi - phase (Complex 1 0)) ∧
    ∃ d, 0 <= d ∧
         rect 1 phi = Cadd (Complex 0 (1 / 2)) (rect d (phase (Complex 1 0))) ∧
         Cabs (Csub (rect 1 phi) (Complex 0 (1 / 2))) = d ∧
         d < Cabs (Complex 1 0).
Proof.
  assert (Hin : Cabs (Complex 0 (1 / 2)) <= 1)
    by (apply Cabs_le_sq; cbn [real imag]; lra).
  assert (Hout : Cabs (Cadd (Complex 0 (1 / 2)) (Complex 1 0)) > 1)
    by (apply Cabs_gt_sq; unfold Cadd; cbn [real imag]; lra).
  destruct (crossing_phi_in_arena (Complex 0 (1 / 2)) (Complex 1 0) 1)
    as [phi Hphi]; [lra | exact Hin |].
  exists phi. split; [exact Hphi |].
  destruct (crossing_point_on_path _ _ _ _ Hphi) as (H1 & H2 & H3 & H4).
  split; [exact H1 |]. split; [exact H2 |]. split; [exact H3 |].
  destruct (H4 ltac:(lra) Hin) as (d & Hd & Hp & Ha & Hr).
  exists d. split; [exact Hd |]. split; [exact Hp |]. split; [exact Ha |].
  exact (Hr Hout).
Defined.

(** X6. Circular arena of radius [R > 0], reflective, for a move from a
    position of the arena to a candidate outside it: the resolved position
    is the mirror image of the candidate in the tangent to the circle at
    the crossing point, and the distance to the crossing point plus the
    distance from it to the mirror image is the speed when the crossing
    point is within reach. *)
Theorem circular_reflective_mirror (z0 zv : complex) (R aY pX pY : R) :
  0 < R → Cabs z0 <= R → pX = 0 → Cabs (Cadd z0 zv) > R →
  ∃ phi px py vx vy,
    crossing_phi z0 zv R = Some phi ∧
    assign_2d z0 (Cadd z0 zv) zv 0 R aY pX pY = Some (px, py, vx, vy) ∧
    specular (rect 1 phi) (Csub (Cadd z0 zv) (rect R phi))
             (Csub (Complex px py) (rect R phi)) ∧
    (Cabs (Csub (rect R phi) z0) <= Cabs zv →
     Cabs (Csub (rect R phi) z0) + Cabs (Csub (Complex px py) (rect R phi))
     = Cabs zv).
Proof.
  intros HR Hz0 -> Hout.
  destruct (crossing_phi_in_arena z0 zv R HR Hz0) as [phi Hphi].
  pose proof (crossing_offset _ _ _ _ Hphi) as Hoff.
  pose proof (crossing_distance_nonneg _ _ _ _ HR Hz0 Hphi) as Ht.
  set (t := R * cos (phi - phase zv)
            - (real z0 * cos (phase zv) + imag z0 * sin (phase zv))) in *.
  assert (Habs : Cabs (Csub (rect R phi) z0) = t)
    by (rewrite Hoff; apply Cabs_rect; exact Ht).
  exists phi.
  exists (real (Cadd (rect R phi) (rect (Cabs zv - t) (PI + 2 * phi - phase zv)))).
  exists (imag (Cadd (rect R phi) (rect (Cabs zv - t) (PI + 2 * phi - phase zv)))).
  exists (real (Cmul zv (expj (PI - 2 * (phase zv - phi))))).
  exists (imag (Cmul zv (expj (PI - 2 * (phase zv - phi))))).
  split; [exact Hphi |]. split.
  { unfold assign_2d, reflexive_circular.
    rewrite Reqb_refl, Rgtb_true, truthy_0, Hphi by exact Hout.
    cbn [mbind option_bind]. now rewrite Habs, Cmul_real_expj. }
  change (Complex (real ?z) (imag ?z)) with z.
  assert (Hnew : Csub (Cadd (rect R phi) (rect (Cabs zv - t) (PI + 2 * phi - phase zv)))
                      (rect R phi)
                 = rect (Cabs zv - t) (PI + 2 * phi - phase zv)).
  { unfold Csub, Cadd, rect. cbn [real imag]. f_equal; ring. }
  assert (Hold : Csub (Cadd z0 zv) (rect R phi) = rect (Cabs zv - t) (phase zv)).
  { destruct (polar_form zv) as [Hre Him].
    assert (H0 : z0 = Csub (rect R phi) (rect t (phase zv))).
    { rewrite <- Hoff. destruct z0 as [x0 y0]. unfold Csub, rect. cbn [real imag]. f_equal; ring. }
    rewrite H0 at 1. unfold Csub, Cadd, rect. cbn [real imag].
    rewrite Hre, Him. f_equal; ring. }
  rewrite Hnew, Hold. split.
  - unfold specular, dot, Cmul, Cj, rect. cbn [real imag].
    replace (PI + 2 * phi - phase zv) with (phi - phase zv + phi + PI) by ring.
    rewrite neg_cos, neg_sin, (cos_plus (phi - phase zv)), (sin_plus (phi - phase zv)).
    rewrite cos_minus, sin_minus.
    pose proof (sin2_cos2 (phase zv)) as H1. pose proof (sin2_cos2 phi) as H2.
    unfold Rsqr in H1, H2.
    set (c := cos (phase zv)) in *. set (s := sin (phase zv)) in *.
    set (cp := cos phi) in *. set (sp := sin phi) in *.
    set (d := Cabs zv - t).
    split; nsatz.
  - intros Hreach. rewrite Habs, Cabs_rect by lra. ring.
Qed.

Lemma circular_reflective_mirror_witness :
  ∃ phi px py vx vy,
    crossing_phi (Complex (99 / 100) 0) (Complex (2 / 100) 0) 1 = Some phi ∧
    assign_2d (Complex (99 / 100) 0)
              (Cadd (Complex (99 / 100) 0) (Complex (2 / 100) 0))
              (Complex (2 / 100) 0) 0 1 1 0 0 = Some (px, py, vx, vy) ∧
    specular (rect 1 phi)
      (Csub (Cadd (Complex (99 / 100) 0) (Complex (2 / 100) 0)) (rect 1 phi))
      (Csub (Complex px py) (rect 1 phi)) ∧
    (Cabs (Csub (rect 1 phi) (Complex (99 / 100) 0)) <= Cabs (Complex (2 / 100) 0) →
     Cabs (Csub (rect 1 phi) (Complex (99 / 100) 0))
     + Cabs (Csub (Complex px py) (rect 1 phi))
     = Cabs (Complex (2 / 100) 0)).
Proof.
  apply circular_reflective_mirror.
  - lra.
  - rewrite Cabs_real_pos; lra.
  - reflexivity.
  - unfold Cadd. cbn [real imag].
    replace (99 / 100 + 2 / 100) with (101 / 100) by lra.
    replace (0 + 0) with 0 by lra. rewrite Cabs_real_pos; lra.
Defined.

(** ** The kernel: what a lane writes *)

Lemma ndarray_eta (a : ndarray) : NDArray (ncols a) (rows a) = a.
Proof. now destruct a. Qed.

(** The copy of a Fixed agent reads the source only; what it does to the
    destination is a list of writes to row [i]. *)
Lemma copy_row_as_writes (p0 : ndarray) (i : nat) (js : list nat) :
  ∃ o : option (list (nat * R)),
    ∀ p1, copy_row p0 p1 i js = ws ← o; setitems p1 i ws.
Proof.
  induction js as [| j js [o IH]].
  - exists (Some []). reflexivity.
  - cbn [copy_row]. destruct (getitem p0 i j) as [x |].
    + exists (ws ← o; Some ((j, x) :: ws)). intros p1.
      cbn [mbind option_bind]. destruct o as [ws |]; cbn [mbind option_bind setitems fst snd].
      * destruct (setitem p1 i j x) as [q |]; cbn [mbind option_bind]; [| reflexivity].
        apply IH.
      * destruct (setitem p1 i j x) as [q |]; cbn [mbind option_bind]; [| reflexivity].
        apply IH.
    + exists None. reflexivity.
Qed.

Lemma reads_ok_dec (dim : nat) (v0 noise : ndarray) (param : list R) (i : nat) :
  reads_ok dim v0 noise param i ∨ ¬ reads_ok dim v0 noise param i.
Proof.
  unfold reads_ok.
  destruct (decide (Forall (λ k, is_Some (param !! k)) (param_reads dim)));
    [| right; tauto].
  destruct (decide (is_Some (getitem v0 i 0))); [| right; tauto].
  destruct (decide (is_Some (getitem v0 i 1))); [| right; tauto].
  destruct (decide (is_Some (getitem noise i 1))); [| right; tauto].
  left. tauto.
Qed.

(** In every dimension a lane reads the source only, and what it does to
    the destination pair is a list of writes to row [i] of each array. *)
Lemma lane_as_writes (u : option R) (atype : list nat) (p0 v0 noise : ndarray)
    (param : list R) (sample : R) (i : nat) :
  ∃ o : option (list (nat * R) * list (nat * R)),
    ∀ p1 v1,
      CUDA_step_lane u atype p0 v0 p1 v1 noise param sample i
      = '(wp, wv) ← o;
        p ← setitems p1 i wp; v ← setitems v1 i wv; Some (p, v).
Proof.
  destruct (decide (ncols p0 = 2%nat)) as [Hd | Hd].
  - exists ('(px, py, vx, vy) ← lane_update u atype p0 v0 noise param sample i;
            Some ([(0%nat, px); (1%nat, py)], [(0%nat, vx); (1%nat, vy)])).
    intros p1 v1. rewrite lane_dim2_writes by exact Hd.
    now destruct (lane_update _ _ _ _ _ _ _ _) as [[[[px py] vx] vy] |].
  - destruct (reads_ok_dec (ncols p0) v0 noise param i) as [Hr | Hr].
    + destruct (copy_row_as_writes p0 i (seq 0 (ncols p0))) as [oc Hc].
      exists (t ← atype !! i;
              ws ← (if Nat.eqb t 0 then oc else Some []);
              Some (ws, [])).
      intros p1 v1. rewrite lane_other_dimension by assumption.
      destruct (atype !! i) as [t |]; [| reflexivity]. cbn [mbind option_bind].
      destruct (Nat.eqb t 0); [| reflexivity].
      rewrite Hc. destruct oc as [ws |]; [| reflexivity].
      cbn [mbind option_bind setitems].
      now destruct (setitems p1 i ws).
    + exists None. intros p1 v1. now apply lane_failed_read.
Qed.

Lemma puts_as_alter (i : nat) (ws : list (nat * R)) :
  ∃ f : list R → list R,
    ∀ a, puts a i ws = NDArray (ncols a) (alter f i (rows a)).
Proof.
  induction ws as [| w ws [f IH]].
  - exists (λ r, r). intros a. cbn [puts foldl].
    now rewrite list_alter_id, ndarray_eta.
  - exists (λ r, f (<[w.1 := w.2]> r)). intros a.
    rewrite puts_cons, IH. unfold put. cbn [ncols rows].
    now rewrite list_alter_alter_eq.
Qed.

(** Writes to row [i] depend on that row of the array only, and change
    that row only. *)
Lemma setitems_as_alter (i : nat) (ws : list (nat * R)) :
  ∃ F : option (list R) → option (list R → list R),
    ∀ a, setitems a i ws
         = f ← F (rows a !! i); Some (NDArray (ncols a) (alter f i (rows a))).
Proof.
  destruct (puts_as_alter i ws) as [f Hf].
  exists (λ r, if decide (Forall (λ w : nat * R, is_Some (r ≫= λ row, row !! w.1)) ws)
               then Some f else None).
  intros a. rewrite setitems_spec. unfold getitem.
  destruct (decide _); [| reflexivity]. cbn [mbind option_bind]. now rewrite Hf.
Qed.

(** In every dimension a lane reads the source and row [i] of the
    destination pair only, and what it does to the destination pair is a
    change of row [i] in each array. *)
Lemma lane_as_alter (u : option R) (atype : list nat) (p0 v0 noise : ndarray)
    (param : list R) (sample : R) (i : nat) :
  ∃ F : option (list R) → option (list R)
        → option ((list R → list R) * (list R → list R)),
    ∀ p1 v1,
      CUDA_step_lane u atype p0 v0 p1 v1 noise param sample i
      = fg ← F (rows p1 !! i) (rows v1 !! i);
        Some (NDArray (ncols p1) (alter fg.1 i (rows p1)),
              NDArray (ncols v1) (alter fg.2 i (rows v1))).
Proof.
  destruct (lane_as_writes u atype p0 v0 noise param sample i) as [o Ho].
  destruct o as [[wp wv] |].
  - destruct (setitems_as_alter i wp) as [Fp Hp].
    destruct (setitems_as_alter i wv) as [Fv Hv].
    exists (λ r s, f ← Fp r; g ← Fv s; Some (f, g)).
    intros p1 v1. rewrite Ho. cbn [mbind option_bind]. rewrite Hp, Hv.
    destruct (Fp (rows p1 !! i)) as [f |]; [| reflexivity]. cbn [mbind option_bind].
    destruct (Fv (rows v1 !! i)) as [g |]; reflexivity.
  - exists (λ _ _, None). intros p1 v1. now rewrite Ho.
Qed.

Lemma lane_frame (u : option R) (atype : list nat)
    (p0 v0 p1 v1 noise : ndarray) (param : list R) (sample : R) (i : nat)
    (q w : ndarray) :
  CUDA_step_lane u atype p0 v0 p1 v1 noise param sample i = Some (q, w) →
  (∀ j, j ≠ i → rows q !! j = rows p1 !! j ∧ rows w !! j = rows v1 !! j) ∧
  ncols q = ncols p1 ∧ ncols w = ncols v1.
Proof.
  destruct (lane_as_alter u atype p0 v0 noise param sample i) as [F HF].
  rewrite HF. destruct (F _ _) as [[f g] |]; [| discriminate].
  cbn [mbind option_bind fst snd]. intros H. injection H as <- <-.
  cbn [rows ncols]. split; [| now split].
  intros j Hj. now rewrite !list_lookup_alter_ne by congruence.
Qed.

(** ** The kernel: the order of the threads *)

Lemma threads_skip (G : generator) (u : option R) (i : nat) (l l' : list nat)
    (atype : list nat) (p0 v0 noise : ndarray) (param : list R) :
  (∀ p1 v1 rng,
     CUDA_step_threads G u l atype p0 v0 p1 v1 noise param rng
     = CUDA_step_threads G u l' atype p0 v0 p1 v1 noise param rng) →
  ∀ p1 v1 rng,
    CUDA_step_threads G u (i :: l) atype p0 v0 p1 v1 noise param rng
    = CUDA_step_threads G u (i :: l') atype p0 v0 p1 v1 noise param rng.
Proof.
  intros IH p1 v1 rng. cbn [CUDA_step_threads].
  destruct (Nat.ltb i (shape0 p0)); [| apply IH].
  destruct (rng !! i) as [s |]; [| reflexivity]. cbn [mbind option_bind].
  destruct (normal_float32 G s) as [sample s'].
  destruct (CUDA_step_lane _ _ _ _ _ _ _ _ _ _) as [[q w] |]; [| reflexivity].
  cbn [mbind option_bind]. apply IH.
Qed.

Lemma threads_swap (G : generator) (u : option R) (i j : nat) (l : list nat)
    (atype : list nat) (p0 v0 p1 v1 noise : ndarray) (param : list R)
    (rng : list (rng_state G)) :
  CUDA_step_threads G u (i :: j :: l) atype p0 v0 p1 v1 noise param rng
  = CUDA_step_threads G u (j :: i :: l) atype p0 v0 p1 v1 noise param rng.
Proof.
  destruct (decide (i = j)) as [-> | Hij]; [reflexivity |].
  cbn [CUDA_step_threads].
  destruct (Nat.ltb i (shape0 p0)), (Nat.ltb j (shape0 p0)); try reflexivity.
  destruct (rng !! i) as [si |] eqn:Hi, (rng !! j) as [sj |] eqn:Hj;
    cbn [mbind option_bind].
  - destruct (normal_float32 G si) as [xi si'] eqn:Ei.
    destruct (normal_float32 G sj) as [xj sj'] eqn:Ej.
    destruct (lane_as_alter u atype p0 v0 noise param xi i) as [Fi Hoi].
    destruct (lane_as_alter u atype p0 v0 noise param xj j) as [Fj Hoj].
    rewrite (Hoi p1 v1), (Hoj p1 v1).
    assert (Hji : j ≠ i) by congruence.
    destruct (Fi (rows p1 !! i) (rows v1 !! i)) as [[fi gi] |] eqn:EFi,
             (Fj (rows p1 !! j) (rows v1 !! j)) as [[fj gj] |] eqn:EFj;
      cbn [mbind option_bind fst snd].
    + rewrite (list_lookup_insert_ne rng i j) by exact Hij.
      rewrite (list_lookup_insert_ne rng j i) by exact Hji.
      rewrite Hi, Hj. cbn [mbind option_bind]. rewrite Ei, Ej.
      rewrite Hoi, Hoj. cbn [ncols rows].
      rewrite !(list_lookup_alter_ne _ _ i j) by exact Hij.
      rewrite !(list_lookup_alter_ne _ _ j i) by exact Hji.
      rewrite EFi, EFj. cbn [mbind option_bind fst snd ncols rows].
      rewrite (list_alter_alter_ne fj fi), (list_alter_alter_ne gj gi) by exact Hji.
      now rewrite (list_insert_insert_ne _ j i) by exact Hji.
    + rewrite (list_lookup_insert_ne rng i j) by exact Hij.
      rewrite Hj. cbn [mbind option_bind]. rewrite Ej, Hoj. cbn [ncols rows].
      rewrite !(list_lookup_alter_ne _ _ i j) by exact Hij.
      now rewrite EFj.
    + rewrite (list_lookup_insert_ne rng j i) by exact Hji.
      rewrite Hi. cbn [mbind option_bind]. rewrite Ei, Hoi. cbn [ncols rows].
      rewrite !(list_lookup_alter_ne _ _ j i) by exact Hji.
      now rewrite EFi.
    + reflexivity.
  - destruct (normal_float32 G si) as [xi si'].
    destruct (CUDA_step_lane _ _ _ _ _ _ _ _ _ _) as [[q w] |]; [| reflexivity].
    cbn [mbind option_bind]. rewrite list_lookup_insert_ne, Hj by congruence.
    reflexivity.
  - destruct (normal_float32 G sj) as [xj sj'].
    destruct (CUDA_step_lane _ _ _ _ _ _ _ _ _ _) as [[q w] |]; [| reflexivity].
    cbn [mbind option_bind]. rewrite list_lookup_insert_ne, Hi by congruence.
    reflexivity.
  - reflexivity.
Qed.

Lemma threads_permutation (G : generator) (u : option R)
    (threads threads' : list nat) (atype : list nat)
    (p0 v0 p1 v1 noise : ndarray) (param : list R) (rng : list (rng_state G)) :
  threads ≡ₚ threads' →
  CUDA_step_threads G u threads atype p0 v0 p1 v1 noise param rng
  = CUDA_step_threads G u threads' atype p0 v0 p1 v1 noise param rng.
Proof.
  intros Hp. revert p1 v1 rng.
  induction Hp as [| i l l' _ IH | i j l | l l' l'' _ IH1 _ IH2]; intros p1 v1 rng.
  - reflexivity.
  - now apply threads_skip.
  - apply threads_swap.
  - now rewrite IH1.
Qed.

(** X7. The lanes of a launch do not interfere: each reads the source pair
    and changes only its own row and its own generator state, so running
    the threads of the grid in any order gives the buffers and generator
    states of the launch (or fails as the launch does). *)
Theorem launch_order_irrelevant (G : generator) (u : option R)
    (gridDim blockDim : nat) (threads : list nat) (atype : list nat)
    (p0 v0 p1 v1 noise : ndarray) (param : list R) (rng : list (rng_state G)) :
  threads ≡ₚ seq 0 (gridDim * blockDim) →
  CUDA_step_threads G u threads atype p0 v0 p1 v1 noise param rng
  = CUDA_step G u gridDim blockDim atype p0 v0 p1 v1 noise param rng.
Proof. intros Hp. unfold CUDA_step. now apply threads_permutation. Qed.

Lemma launch_order_irrelevant_witness :
  CUDA_step_threads null_generator None [1; 0]%nat [1; 1]%nat
    (NDArray 2 [[0; 0]; [1; 1]]) (NDArray 2 [[1; 0]; [0; 1]])
    (NDArray 2 [[0; 0]; [0; 0]]) (NDArray 2 [[0; 0]; [0; 0]])
    (NDArray 2 [[0; 0]; [0; 0]]) [1; 2; 2; 1; 1] [(); ()]
  = CUDA_step null_generator None 1 2 [1; 1]%nat
      (NDArray 2 [[0; 0]; [1; 1]]) (NDArray 2 [[1; 0]; [0; 1]])
      (NDArray 2 [[0; 0]; [0; 0]]) (NDArray 2 [[0; 0]; [0; 0]])
      (NDArray 2 [[0; 0]; [0; 0]]) [1; 2; 2; 1; 1] [(); ()].
Proof. apply launch_order_irrelevant. apply perm_swap. Defined.

(** ** The kernel: a launch, agent by agent *)

Lemma getitem_row (a : ndarray) (i j : nat) (r : list R) :
  rows a !! i = Some r → getitem a i j = r !! j.
Proof. intros H. unfold getitem. now rewrite H. Qed.

Lemma rows_write2_lookup (a : ndarray) (i : nat) (x y : R) (r : list R) :
  rows a !! i = Some r → length r = 2%nat →
  rows (put (put a i 0 x) i 1 y) !! i = Some [x; y].
Proof.
  intros Hr Hl. rewrite rows_write2, list_lookup_alter_eq, Hr.
  cbn [fmap option_fmap option_map]. now rewrite insert_pair.
Qed.

(** A lane in dimension 2, on an agent whose rows are in the source and
    in the destination. *)
Lemma lane_dim2 (u : option R) (atype : list nat)
    (p0 v0 p1 v1 noise : ndarray) (sample : R) (i t N : nat)
    (x y vx vy n0 n1 ar aX aY pX pY d : R) :
  ncols p0 = 2%nat → atype !! i = Some t →
  (if Nat.eqb t 1 then Some 0 else u) = Some d →
  rows p0 !! i = Some [x; y] → rows v0 !! i = Some [vx; vy] →
  rows noise !! i = Some [n0; n1] →
  shape_N2 N p1 → shape_N2 N v1 → (i < N)%nat →
  CUDA_step_lane u atype p0 v0 p1 v1 noise [ar; aX; aY; pX; pY] sample i
  = '(px, py, wx, wy) ←
       assign_2d (Complex x y)
         (Cadd (Complex x y) (Cmul (Complex vx vy) (expj (d + n1 * sample))))
         (Cmul (Complex vx vy) (expj (d + n1 * sample))) ar aX aY pX pY;
    Some (put (put p1 i 0 px) i 1 py,
          put (put v1 i 0 wx) i 1 wy).
Proof.
  intros Hdim Ht Hd Hp Hv Hn Hp1 Hv1 Hi.
  rewrite lane_dim2_writes by exact Hdim.
  unfold lane_update, velocity_and_noise. rewrite Ht.
  rewrite !(getitem_row _ _ _ _ Hp), !(getitem_row _ _ _ _ Hv),
          !(getitem_row _ _ _ _ Hn).
  cbn [lookup list_lookup mbind option_bind].
  rewrite Hd. cbn [mbind option_bind].
  destruct (assign_2d _ _ _ _ _ _ _ _) as [[[[px py] wx] wy] |];
    cbn [mbind option_bind]; [| reflexivity].
  rewrite (setitems_shape_N2 N p1 i px py Hp1 Hi),
          (setitems_shape_N2 N v1 i wx wy Hv1 Hi).
  reflexivity.
Qed.

Lemma threads_frame (G : generator) (u : option R) (threads : list nat)
    (atype : list nat) (p0 v0 p1 v1 noise : ndarray) (param : list R)
    (rng : list (rng_state G)) (q w : ndarray) (r : list (rng_state G)) (i : nat) :
  i ∉ threads →
  CUDA_step_threads G u threads atype p0 v0 p1 v1 noise param rng = Some (q, w, r) →
  rows q !! i = rows p1 !! i ∧ rows w !! i = rows v1 !! i.
Proof.
  revert p1 v1 rng.
  induction threads as [| j rest IH]; intros p1 v1 rng Hi H; cbn [CUDA_step_threads] in H.
  - injection H as <- <- <-. now split.
  - apply not_elem_of_cons in Hi as [Hij Hi].
    destruct (Nat.ltb j (shape0 p0)); [| exact (IH _ _ _ Hi H)].
    destruct (rng !! j) as [s |]; [| discriminate]. cbn [mbind option_bind] in H.
    destruct (normal_float32 G s) as [sample s'].
    destruct (CUDA_step_lane _ _ _ _ _ _ _ _ _ _) as [[q1 w1] |] eqn:Hl; [| discriminate].
    cbn [mbind option_bind] in H.
    destruct (IH _ _ _ Hi H) as [Hq Hw].
    destruct (proj1 (lane_frame _ _ _ _ _ _ _ _ _ _ _ _ Hl) i Hij) as [Hq1 Hw1].
    rewrite Hq, Hw, Hq1, Hw1. now split.
Qed.

Lemma threads_lane (G : generator) (u : option R) (threads : list nat)
    (atype : list nat) (p0 v0 p1 v1 noise : ndarray) (param : list R)
    (rng : list (rng_state G)) (q w : ndarray) (r : list (rng_state G)) (i : nat) :
  NoDup threads → i ∈ threads → (i < shape0 p0)%nat →
  CUDA_step_threads G u threads atype p0 v0 p1 v1 noise param rng = Some (q, w, r) →
  ∃ s q1 w1,
    rng !! i = Some s ∧
    CUDA_step_lane u atype p0 v0 p1 v1 noise param (normal_float32 G s).1 i
      = Some (q1, w1) ∧
    rows q !! i = rows q1 !! i ∧ rows w !! i = rows w1 !! i.
Proof.
  intros Hnd. revert p1 v1 rng.
  induction Hnd as [| j rest Hj Hnd IH]; intros p1 v1 rng Hi HN H.
  - now apply elem_of_nil in Hi.
  - cbn [CUDA_step_threads] in H.
    destruct (Nat.ltb_spec j (shape0 p0)) as [HjN | HjN].
    + destruct (rng !! j) as [sj |] eqn:Hsj; [| discriminate].
      cbn [mbind option_bind] in H.
      destruct (normal_float32 G sj) as [xj sj'] eqn:Ej.
      destruct (CUDA_step_lane _ _ _ _ _ _ _ _ _ _) as [[qj wj] |] eqn:Hl; [| discriminate].
      cbn [mbind option_bind] in H.
      destruct (decide (i = j)) as [-> | Hij].
      * exists sj, qj, wj. rewrite Ej. cbn [fst].
        destruct (threads_frame _ _ _ _ _ _ _ _ _ _ _ _ _ _ _ Hj H) as [Hq Hw].
        now repeat split.
      * apply elem_of_cons in Hi as [Hi | Hi]; [contradiction |].
        destruct (IH _ _ _ Hi HN H) as (s & q1 & w1 & Hs & Hli & Hq & Hw).
        rewrite list_lookup_insert_ne in Hs by congruence.
        destruct (lane_as_alter u atype p0 v0 noise param (normal_float32 G s).1 i)
          as [F HF].
        destruct (proj1 (lane_frame _ _ _ _ _ _ _ _ _ _ _ _ Hl) i Hij) as [Hq1 Hw1].
        rewrite HF, Hq1, Hw1 in Hli.
        destruct (F (rows p1 !! i) (rows v1 !! i)) as [[f g] |] eqn:EF; [| discriminate].
        cbn [mbind option_bind fst snd] in Hli. injection Hli as <- <-.
        exists s, (NDArray (ncols p1) (alter f i (rows p1))),
               (NDArray (ncols v1) (alter g i (rows v1))).
        split; [exact Hs |]. split; [now rewrite HF, EF |].
        rewrite Hq, Hw. cbn [rows].
        now rewrite !list_lookup_alter_eq, Hq1, Hw1.
    + apply elem_of_cons in Hi as [-> | Hi]; [lia |].
      exact (IH _ _ _ Hi HN H).
Qed.

(** X8. A launch, agent by agent: for every agent that the grid covers,
    the rows of the agent in the buffers that the launch returns are the
    rows that its lane alone writes, with the sample drawn from the
    generator state of the agent. *)
Theorem launch_row_is_lane (G : generator) (u : option R) (gridDim blockDim : nat)
    (atype : list nat) (p0 v0 p1 v1 noise : ndarray) (param : list R)
    (rng : list (rng_state G)) (q w : ndarray) (r : list (rng_state G)) (i : nat) :
  CUDA_step G u gridDim blockDim atype p0 v0 p1 v1 noise param rng = Some (q, w, r) →
  (i < shape0 p0)%nat → (i < gridDim * blockDim)%nat →
  ∃ s q1 w1,
    rng !! i = Some s ∧
    CUDA_step_lane u atype p0 v0 p1 v1 noise param (normal_float32 G s).1 i
      = Some (q1, w1) ∧
    rows q !! i = rows q1 !! i ∧ rows w !! i = rows w1 !! i.
Proof.
  intros H HN Hg. unfold CUDA_step in H.
  apply (threads_lane _ _ _ _ _ _ _ _ _ _ _ _ _ _ i (NoDup_seq _ _)) in H;
    [exact H | apply elem_of_seq; lia | exact HN].
Qed.

Lemma launch_row_is_lane_witness :
  ∃ s q1 w1,
    create_xoroshiro128p_states null_generator 32 0 !! 0%nat = Some s ∧
    CUDA_step_lane None [1%nat] (NDArray 2 [[0.999; 0]]) (NDArray 2 [[0.01; 0]])
      (NDArray 2 [[0; 0]]) (NDArray 2 [[0; 0]]) (NDArray 2 [[0; 0]])
      [1; 2 / 2; 2 / 2; 1; 0] (normal_float32 null_generator s).1 0
      = Some (q1, w1) ∧
    rows (NDArray 2 [[-0.991; 0]]) !! 0%nat = rows q1 !! 0%nat ∧
    rows (NDArray 2 [[0.01; 0]]) !! 0%nat = rows w1 !! 0%nat.
Proof.
  apply (launch_row_is_lane null_generator None 1 32 _ _ _ _ _ _ _ _ _ _ _ 0%nat
           (scenario_A_launch null_generator None 0 0 0 0)).
  - unfold shape0. cbn [rows length]. lia.
  - lia.
Defined.

(** ** The kernel: speeds *)

(** What a lane of dimension 2 writes, when it has a result. *)
Lemma lane_update_inv (u : option R) (atype : list nat) (p0 v0 noise : ndarray)
    (param : list R) (sample : R) (i : nat) (px py wx wy : R) :
  lane_update u atype p0 v0 noise param sample i = Some (px, py, wx, wy) →
  ∃ t ar aX aY pX pY x y vx vy n1 d,
    atype !! i = Some t ∧
    param !! 0%nat = Some ar ∧ param !! 1%nat = Some aX ∧ param !! 2%nat = Some aY ∧
    param !! 3%nat = Some pX ∧ param !! 4%nat = Some pY ∧
    getitem p0 i 0 = Some x ∧ getitem p0 i 1 = Some y ∧
    getitem v0 i 0 = Some vx ∧ getitem v0 i 1 = Some vy ∧
    getitem noise i 1 = Some n1 ∧
    (if Nat.eqb t 1 then Some 0 else u) = Some d ∧
    assign_2d (Complex x y)
      (Cadd (Complex x y) (Cmul (Complex vx vy) (expj (d + n1 * sample))))
      (Cmul (Complex vx vy) (expj (d + n1 * sample))) ar aX aY pX pY
    = Some (px, py, wx, wy).
Proof.
  unfold lane_update. intros H. bind_inv H.
  match goal with
  | E : velocity_and_noise _ _ _ _ = Some _ |- _ =>
      pose proof (velocity_and_noise_inv _ _ _ _ _ E) as (vx & vy & n1 & Hx & Hy & Hn & Hzv)
  end.
  injection Hzv as -> ->.
  repeat eexists; eauto.
Qed.

Lemma lane_speed (u : option R) (atype : list nat)
    (p0 v0 p1 v1 noise : ndarray) (param : list R) (sample : R) (i : nat)
    (q w : ndarray) (a b : R) :
  ncols p0 = 2%nat → shape_N2 (shape0 p0) v1 → (i < shape0 p0)%nat →
  rows v0 !! i = Some [a; b] →
  CUDA_step_lane u atype p0 v0 p1 v1 noise param sample i = Some (q, w) →
  shape_N2 (shape0 p0) w ∧
  ∃ vx vy, rows w !! i = Some [vx; vy] ∧
           Cabs (Complex vx vy) = Cabs (Complex a b).
Proof.
  intros Hdim Hv1 Hi Hv0 H. rewrite lane_dim2_writes in H by exact Hdim.
  destruct (lane_update _ _ _ _ _ _ _ _) as [[[[px py] vx] vy] |] eqn:Hu;
    [| discriminate].
  cbn [mbind option_bind] in H.
  destruct (setitems p1 i _) as [q' |]; [| discriminate].
  cbn [mbind option_bind] in H.
  rewrite (setitems_shape_N2 _ v1 i vx vy Hv1 Hi) in H.
  cbn [mbind option_bind] in H. injection H as <- <-.
  split; [now apply shape_N2_write2 |].
  exists vx, vy. split.
  - destruct Hv1 as (_ & Hlen & Hall).
    destruct (lookup_lt_is_Some_2 (rows v1) i) as [row Hrow]; [lia |].
    apply (rows_write2_lookup _ _ _ _ row Hrow).
    exact (proj1 (Forall_lookup _ _) Hall i row Hrow).
  - apply lane_update_inv in Hu
      as (t & ar & aX & aY & pX & pY & x & y & ux & uy & n1 & d
          & _ & _ & _ & _ & _ & _ & _ & _ & Hux & Huy & _ & _ & Ha).
    rewrite (getitem_row _ _ _ _ Hv0) in Hux.
    rewrite (getitem_row _ _ _ _ Hv0) in Huy.
    cbn [lookup list_lookup] in Hux, Huy.
    injection Hux as <-. injection Huy as <-.
    rewrite (assign_2d_speed _ _ _ _ _ _ _ _ _ _ _ _ Ha). apply Cabs_rotate.
Qed.

Lemma threads_speed (G : generator) (u : option R) (threads : list nat)
    (atype : list nat) (p0 v0 p1 v1 noise : ndarray) (param : list R)
    (rng : list (rng_state G)) (q w : ndarray) (r : list (rng_state G))
    (i : nat) (a b : R) :
  ncols p0 = 2%nat → NoDup threads → shape_N2 (shape0 p0) v1 →
  CUDA_step_threads G u threads atype p0 v0 p1 v1 noise param rng = Some (q, w, r) →
  i ∈ threads → (i < shape0 p0)%nat → rows v0 !! i = Some [a; b] →
  ∃ vx vy, rows w !! i = Some [vx; vy] ∧
           Cabs (Complex vx vy) = Cabs (Complex a b).
Proof.
  intros Hdim Hnd Hv1 H Hi HN Hv0.
  destruct (threads_lane _ _ _ _ _ _ _ _ _ _ _ _ _ _ i Hnd Hi HN H)
    as (s & q1 & w1 & _ & Hl & _ & Hw).
  destruct (lane_speed _ _ _ _ _ _ _ _ _ _ _ _ a b Hdim Hv1 HN Hv0 Hl)
    as (_ & vx & vy & Hrow & Hs).
  exists vx, vy. now rewrite Hw.
Qed.

(** X9. A launch keeps the speed of every agent: in dimension 2, for each
    agent that the grid covers, the velocity written to the destination
    has the magnitude of the velocity read from the source, whatever the
    agent type, the arena, the boundary condition and the noise. *)
Theorem launch_keeps_speed (G : generator) (u : option R) (gridDim blockDim : nat)
    (atype : list nat) (p0 v0 p1 v1 noise : ndarray) (param : list R)
    (rng : list (rng_state G)) (q w : ndarray) (r : list (rng_state G))
    (i : nat) (a b : R) :
  ncols p0 = 2%nat → shape_N2 (shape0 p0) v1 →
  CUDA_step G u gridDim blockDim atype p0 v0 p1 v1 noise param rng = Some (q, w, r) →
  (i < shape0 p0)%nat → (i < gridDim * blockDim)%nat →
  rows v0 !! i = Some [a; b] →
  ∃ vx vy, rows w !! i = Some [vx; vy] ∧
           Cabs (Complex vx vy) = Cabs (Complex a b).
Proof.
  intros Hdim Hv1 H HN Hg Hv0. unfold CUDA_step in H.
  apply (threads_speed _ _ _ _ _ _ _ _ _ _ _ _ _ _ i a b Hdim (NoDup_seq _ _) Hv1 H);
    [apply elem_of_seq; lia | exact HN | exact Hv0].
Qed.

Lemma launch_keeps_speed_witness :
  ∃ vx vy, rows (NDArray 2 [[0.01; 0]]) !! 0%nat = Some [vx; vy] ∧
           Cabs (Complex vx vy) = Cabs (Complex 0.01 0).
Proof.
  apply (launch_keeps_speed null_generator None 1 32 [1%nat]
           (NDArray 2 [[0.999; 0]]) (NDArray 2 [[0.01; 0]])
           (NDArray 2 [[0; 0]]) (NDArray 2 [[0; 0]]) (NDArray 2 [[0; 0]])
           [1; 2 / 2; 2 / 2; 1; 0] (create_xoroshiro128p_states null_generator 32 0)
           (NDArray 2 [[-0.991; 0]]) (NDArray 2 [[0.01; 0]])
           (<[0%nat := advance null_generator (init_state null_generator 0 0)]>
              (create_xoroshiro128p_states null_generator 32 0))
           0%nat 0.01 0).
  - reflexivity.
  - split; [reflexivity | split; [reflexivity | repeat constructor]].
  - apply scenario_A_launch.
  - unfold shape0. cbn [rows length]. lia.
  - lia.
  - reflexivity.
Defined.

(** ** The kernel: noise draws *)

Lemma advance_lanes_ge (G : generator) (N : nat) (threads : list nat)
    (rng : list (rng_state G)) (i : nat) :
  (N <= i)%nat → advance_lanes G N threads rng !! i = rng !! i.
Proof.
  intros Hi. revert rng. induction threads as [| j rest IH]; intros rng; [reflexivity |].
  rewrite advance_lanes_cons, IH.
  destruct (Nat.ltb_spec j N); [| reflexivity].
  apply list_lookup_alter_ne. lia.
Qed.

Lemma advance_lanes_length (G : generator) (N : nat) (threads : list nat)
    (rng : list (rng_state G)) :
  length (advance_lanes G N threads rng) = length rng.
Proof.
  revert rng. induction threads as [| j rest IH]; intros rng; [reflexivity |].
  rewrite advance_lanes_cons, IH.
  destruct (Nat.ltb j N); [apply length_alter | reflexivity].
Qed.

Lemma launch_draws_length (G : generator) (u : option R) (gridDim blockDim : nat)
    (atype : list nat) (p0 v0 p1 v1 noise : ndarray) (param : list R)
    (rng : list (rng_state G)) (q w : ndarray) (r : list (rng_state G)) :
  CUDA_step G u gridDim blockDim atype p0 v0 p1 v1 noise param rng = Some (q, w, r) →
  length r = length rng.
Proof.
  intros H. unfold CUDA_step in H.
  destruct (CUDA_step_threads_rng _ _ _ _ _ _ _ _ _ _ _ _ _ _ H) as (-> & _ & _).
  apply advance_lanes_length.
Qed.

(** X10. A launch that returns has drawn exactly once from the generator of
    every agent that the grid covers, and has left every other generator
    state as it was. *)
Theorem launch_draws_once (G : generator) (u : option R) (gridDim blockDim : nat)
    (atype : list nat) (p0 v0 p1 v1 noise : ndarray) (param : list R)
    (rng : list (rng_state G)) (q w : ndarray) (r : list (rng_state G)) :
  CUDA_step G u gridDim blockDim atype p0 v0 p1 v1 noise param rng = Some (q, w, r) →
  length r = length rng ∧
  ∀ i, r !! i = if decide (i < shape0 p0 ∧ i < gridDim * blockDim)%nat
                then advance G <$> rng !! i else rng !! i.
Proof.
  intros H. unfold CUDA_step in H.
  destruct (CUDA_step_threads_rng _ _ _ _ _ _ _ _ _ _ _ _ _ _ H) as (-> & _ & _).
  split; [apply advance_lanes_length |].
  intros i. destruct (decide _) as [[HN Hg] | Hno].
  - apply advance_lanes_lookup; [apply NoDup_seq | apply elem_of_seq; lia | exact HN].
  - destruct (decide (i < shape0 p0)%nat) as [HN | HN].
    + apply advance_lanes_notin. rewrite elem_of_seq. lia.
    + apply advance_lanes_ge. lia.
Qed.

Lemma launch_draws_once_witness :
  (<[0%nat := advance null_generator (init_state null_generator 0 0)]>
     (create_xoroshiro128p_states null_generator 32 0)) !! 1%nat
  = create_xoroshiro128p_states null_generator 32 0 !! 1%nat.
Proof.
  exact (proj2 (launch_draws_once null_generator None 1 32 [1%nat]
                  (NDArray 2 [[0.999; 0]]) (NDArray 2 [[0.01; 0]])
                  (NDArray 2 [[0; 0]]) (NDArray 2 [[0; 0]]) (NDArray 2 [[0; 0]])
                  [1; 2 / 2; 2 / 2; 1; 0] _ _ _ _
                  (scenario_A_launch null_generator None 0 0 0 0)) 1%nat).
Defined.

(** ** The kernel: Fixed agents outside dimension 2 *)

Lemma rows_put (a : ndarray) (i j : nat) (x : R) (r : list R) :
  rows a !! i = Some r → rows (put a i j x) = <[i := <[j := x]> r]> (rows a).
Proof.
  intros Hr. unfold put. cbn [rows]. rewrite list_insert_alter.
  apply list_alter_ext; [| reflexivity].
  intros y Hy. rewrite Hr in Hy. now injection Hy as <-.
Qed.

Lemma copy_row_lookup (p0 : ndarray) (i : nat) (r : list R) (js : list nat)
    (p1 : ndarray) (r1 : list R) :
  rows p0 !! i = Some r → rows p1 !! i = Some r1 →
  Forall (λ j, j < length r ∧ j < length r1)%nat js →
  ∃ r', copy_row p0 p1 i js = Some (NDArray (ncols p1) (<[i := r']> (rows p1))) ∧
        length r' = length r1 ∧
        ∀ j, r' !! j = if decide (j ∈ js) then r !! j else r1 !! j.
Proof.
  intros Hr. revert p1 r1.
  induction js as [| k js IH]; intros p1 r1 Hr1 Hjs; cbn [copy_row].
  - exists r1. rewrite list_insert_id by exact Hr1. rewrite ndarray_eta.
    split; [reflexivity | split; [reflexivity |]].
    intros j. destruct (decide _) as [Hj |]; [| reflexivity].
    now apply elem_of_nil in Hj.
  - apply Forall_cons in Hjs as [[Hk Hk1] Hjs].
    destruct (lookup_lt_is_Some_2 r k Hk) as [x Hx].
    rewrite (getitem_row _ _ _ _ Hr), Hx. cbn [mbind option_bind].
    rewrite setitem_Some
      by (rewrite (getitem_row _ _ _ _ Hr1); now apply lookup_lt_is_Some_2).
    cbn [mbind option_bind].
    destruct (IH (put p1 i k x) (<[k := x]> r1)) as (r' & Hc & Hl & Hlook).
    { rewrite (rows_put _ _ _ _ _ Hr1). apply list_lookup_insert_eq.
      now apply lookup_lt_is_Some_1; eauto. }
    { eapply Forall_impl; [exact Hjs |]. intros j. rewrite length_insert. tauto. }
    exists r'. rewrite Hc, (rows_put _ _ _ _ _ Hr1), list_insert_insert_eq.
    split; [reflexivity |]. rewrite length_insert in Hl. split; [exact Hl |].
    intros j. rewrite Hlook.
    destruct (decide (j = k)) as [-> | Hjk].
    + rewrite (decide_True (P := k ∈ k :: js)) by (apply elem_of_cons; now left).
      destruct (decide (k ∈ js)); [reflexivity |].
      rewrite list_lookup_insert_eq by exact Hk1. now rewrite Hx.
    + rewrite list_lookup_insert_ne by congruence.
      destruct (decide (j ∈ js)) as [Hin | Hno].
      * rewrite decide_True; [reflexivity |]. apply elem_of_cons; now right.
      * rewrite decide_False; [reflexivity |].
        intros Hin. apply Hno.
        apply elem_of_cons in Hin as [-> | Hin]; [contradiction | exact Hin].
Qed.

(** X11. Outside dimension 2 the lane of a Fixed agent, when the reads that
    the kernel still performs (the parameters of the dimension, entries 0
    and 1 of the velocity row, entry 1 of the noise row) are inside their
    arrays, copies the position row of the agent from the source to the
    destination and writes nothing else: the destination velocity keeps
    what it held. *)
Theorem fixed_lane_copies_position (u : option R) (atype : list nat)
    (p0 v0 p1 v1 noise : ndarray) (param : list R) (sample : R) (i : nat)
    (r r1 : list R) :
  ncols p0 ≠ 2%nat → atype !! i = Some 0%nat →
  reads_ok (ncols p0) v0 noise param i →
  rows p0 !! i = Some r → length r = ncols p0 →
  rows p1 !! i = Some r1 → length r1 = ncols p0 →
  CUDA_step_lane u atype p0 v0 p1 v1 noise param sample i
  = Some (NDArray (ncols p1) (<[i := r]> (rows p1)), v1).
Proof.
  intros Hdim Ht Hreads Hr Hlr Hr1 Hlr1.
  rewrite CUDA_step_lane_fixed_copy by assumption.
  destruct (copy_row_lookup p0 i r (seq 0 (ncols p0)) p1 r1 Hr Hr1)
    as (r' & Hc & Hl & Hlook).
  { apply Forall_forall. intros j Hj. apply elem_of_seq in Hj. lia. }
  rewrite Hc. cbn [mbind option_bind]. repeat f_equal.
  apply list_eq. intros j. rewrite Hlook.
  destruct (decide _) as [_ | Hno]; [reflexivity |].
  rewrite elem_of_seq in Hno.
  rewrite !lookup_ge_None_2 by lia. reflexivity.
Qed.

Lemma fixed_lane_copies_position_witness :
  CUDA_step_lane None [0%nat] (NDArray 3 [[1; 2; 3]]) (NDArray 3 [[4; 5; 6]])
                 (NDArray 3 [[0; 0; 0]]) (NDArray 3 [[7; 8; 9]])
                 (NDArray 2 [[0; 1 / 10]]) [1; 1 / 2; 1 / 2; 1 / 2; 1; 1; 1] 0 0
  = Some (NDArray 3 (<[0%nat := [1; 2; 3]]> [[0; 0; 0]]), NDArray 3 [[7; 8; 9]]).
Proof.
  apply (fixed_lane_copies_position None [0%nat] (NDArray 3 [[1; 2; 3]])
           (NDArray 3 [[4; 5; 6]]) (NDArray 3 [[0; 0; 0]]) (NDArray 3 [[7; 8; 9]])
           (NDArray 2 [[0; 1 / 10]]) [1; 1 / 2; 1 / 2; 1 / 2; 1; 1; 1] 0 0
           [1; 2; 3] [0; 0; 0]);
    cbn [ncols]; first [lia | reflexivity | idtac].
  unfold reads_ok. cbn [param_reads].
  repeat lazymatch goal with |- _ ∧ _ => split end;
    repeat constructor; eexists; reflexivity.
Defined.

(** ** The kernel: rectangular arena *)

Lemma real_le_Cabs (z : complex) : Rabs (real z) <= Cabs z.
Proof.
  unfold Cabs. rewrite <- sqrt_Rsqr_abs. apply sqrt_le_1_alt. unfold Rsqr.
  pose proof (Rle_0_sqr (imag z)) as H. unfold Rsqr in H. lra.
Qed.

Lemma imag_le_Cabs (z : complex) : Rabs (imag z) <= Cabs z.
Proof.
  unfold Cabs. rewrite <- sqrt_Rsqr_abs. apply sqrt_le_1_alt. unfold Rsqr.
  pose proof (Rle_0_sqr (real z)) as H. unfold Rsqr in H. lra.
Qed.

Lemma lane_inside_rectangle (u : option R) (atype : list nat)
    (p0 v0 p1 v1 noise : ndarray) (aX aY pX pY sample : R) (i : nat)
    (q w : ndarray) (x y vx vy : R) :
  ncols p0 = 2%nat → shape_N2 (shape0 p0) p1 → (i < shape0 p0)%nat →
  rows p0 !! i = Some [x; y] → rows v0 !! i = Some [vx; vy] →
  - aX <= x <= aX → - aY <= y <= aY →
  Cabs (Complex vx vy) <= 2 * aX → Cabs (Complex vx vy) <= 2 * aY →
  CUDA_step_lane u atype p0 v0 p1 v1 noise [1; aX; aY; pX; pY] sample i
    = Some (q, w) →
  ∃ px py, rows q !! i = Some [px; py] ∧ - aX <= px <= aX ∧ - aY <= py <= aY.
Proof.
  intros Hdim Hp1 Hi Hp0 Hv0 Hx Hy HsX HsY H.
  rewrite lane_dim2_writes in H by exact Hdim.
  destruct (lane_update _ _ _ _ _ _ _ _) as [[[[px py] wx] wy] |] eqn:Hu;
    [| discriminate].
  cbn [mbind option_bind] in H.
  rewrite (setitems_shape_N2 _ p1 i px py Hp1 Hi) in H.
  cbn [mbind option_bind] in H.
  destruct (setitems v1 i _) as [w' |]; [| discriminate].
  cbn [mbind option_bind] in H. injection H as <- <-.
  apply lane_update_inv in Hu
    as (t & ar & aX' & aY' & pX' & pY' & x' & y' & ux & uy & n1 & d
        & _ & Har & HaX & HaY & HpX & HpY & Hx' & Hy' & Hux & Huy & _ & _ & Ha).
  cbn [lookup list_lookup] in Har, HaX, HaY, HpX, HpY.
  injection Har as <-. injection HaX as <-. injection HaY as <-.
  injection HpX as <-. injection HpY as <-.
  rewrite (getitem_row _ _ _ _ Hp0) in Hx'. rewrite (getitem_row _ _ _ _ Hp0) in Hy'.
  rewrite (getitem_row _ _ _ _ Hv0) in Hux. rewrite (getitem_row _ _ _ _ Hv0) in Huy.
  cbn [lookup list_lookup] in Hx', Hy', Hux, Huy.
  injection Hx' as <-. injection Hy' as <-. injection Hux as <-. injection Huy as <-.
  rewrite assign_2d_rectangular in Ha.
  pose proof (Cabs_rotate (Complex vx vy) (d + n1 * sample)) as Hzv.
  set (zv := Cmul (Complex vx vy) (expj (d + n1 * sample))) in Ha, Hzv.
  clearbody zv. injection Ha as <- <- _ _.
  pose proof (real_le_Cabs zv) as Hre. pose proof (imag_le_Cabs zv) as Him.
  assert (Hre' : - Cabs zv <= real zv <= Cabs zv).
  { revert Hre. unfold Rabs. destruct (Rcase_abs (real zv)); lra. }
  assert (Him' : - Cabs zv <= imag zv <= Cabs zv).
  { revert Him. unfold Rabs. destruct (Rcase_abs (imag zv)); lra. }
  destruct Hp1 as (_ & Hlen & Hall).
  destruct (lookup_lt_is_Some_2 (rows p1) i) as [row Hrow]; [lia |].
  eexists _, _. split.
  - apply (rows_write2_lookup _ _ _ _ row Hrow).
    exact (proj1 (Forall_lookup _ _) Hall i row Hrow).
  - split; apply rect_axis_contained; unfold Cadd; cbn [real imag]; lra.
Qed.

(** X12. Agents stay in a rectangular arena: in dimension 2, an agent that
    the grid covers, whose source position is in the rectangle and whose
    speed is at most twice each half-extent, has its destination position
    in the rectangle after the launch, whatever the boundary conditions
    and the noise. *)
Theorem launch_stays_in_rectangle (G : generator) (u : option R)
    (gridDim blockDim : nat) (atype : list nat) (p0 v0 p1 v1 noise : ndarray)
    (aX aY pX pY : R) (rng : list (rng_state G)) (q w : ndarray)
    (r : list (rng_state G)) (i : nat) (x y vx vy : R) :
  ncols p0 = 2%nat → shape_N2 (shape0 p0) p1 →
  CUDA_step G u gridDim blockDim atype p0 v0 p1 v1 noise [1; aX; aY; pX; pY] rng
    = Some (q, w, r) →
  (i < shape0 p0)%nat → (i < gridDim * blockDim)%nat →
  rows p0 !! i = Some [x; y] → rows v0 !! i = Some [vx; vy] →
  - aX <= x <= aX → - aY <= y <= aY →
  Cabs (Complex vx vy) <= 2 * aX → Cabs (Complex vx vy) <= 2 * aY →
  ∃ px py, rows q !! i = Some [px; py] ∧ - aX <= px <= aX ∧ - aY <= py <= aY.
Proof.
  intros Hdim Hp1 H HN Hg Hp0 Hv0 Hx Hy HsX HsY. unfold CUDA_step in H.
  apply (threads_lane _ _ _ _ _ _ _ _ _ _ _ _ _ _ i (NoDup_seq _ _)) in H;
    [| apply elem_of_seq; lia | exact HN].
  destruct H as (s & q1 & w1 & _ & Hl & -> & _).
  exact (lane_inside_rectangle _ _ _ _ _ _ _ _ _ _ _ _ _ _ _ _ _ _ _
           Hdim Hp1 HN Hp0 Hv0 Hx Hy HsX HsY Hl).
Qed.

Lemma launch_stays_in_rectangle_witness :
  ∃ px py, rows (NDArray 2 [[-0.991; 0]]) !! 0%nat = Some [px; py] ∧
           - (2 / 2) <= px <= 2 / 2 ∧ - (2 / 2) <= py <= 2 / 2.
Proof.
  eapply (launch_stays_in_rectangle null_generator None 1 32 [1%nat]
           (NDArray 2 [[0.999; 0]]) (NDArray 2 [[0.01; 0]])
           (NDArray 2 [[0; 0]]) (NDArray 2 [[0; 0]]) (NDArray 2 [[0; 0]])
           (2 / 2) (2 / 2) 1 0 _ _ (NDArray 2 [[0.01; 0]]) _ 0%nat
           0.999 0 0.01 0).
  - reflexivity.
  - split; [reflexivity | split; [reflexivity | repeat constructor]].
  - apply scenario_A_launch.
  - unfold shape0. cbn [rows length]. lia.
  - lia.
  - reflexivity.
  - reflexivity.
  - lra.
  - lra.
  - rewrite Cabs_real_pos; lra.
  - rewrite Cabs_real_pos; lra.
Defined.

(** ** The kernel returns in a rectangular arena *)

Lemma shape_N2_row (N : nat) (a : ndarray) (i : nat) :
  shape_N2 N a → (i < N)%nat → ∃ x y, rows a !! i = Some [x; y].
Proof.
  intros (_ & Hlen & Hall) Hi.
  destruct (lookup_lt_is_Some_2 (rows a) i) as [r Hr]; [lia |].
  pose proof (proj1 (Forall_lookup _ _) Hall i r Hr) as Hl. cbn beta in Hl.
  destruct r as [| x [| y [| z r]]]; try discriminate. now exists x, y.
Qed.

Lemma shape_N2_write_rows (N : nat) (ws : list (nat * (R * R))) (a : ndarray) :
  shape_N2 N a → shape_N2 N (write_rows ws a).
Proof.
  revert a. induction ws as [| w ws IH]; intros a Ha; [exact Ha |].
  rewrite write_rows_cons. apply IH. now apply shape_N2_write2.
Qed.

(** Every agent has a value for [da]: it is Blind, or the evaluation of
    the unassigned local yields a number. *)
Lemma da_defined (u : option R) (t : nat) :
  is_Some u ∨ t = 1%nat → ∃ d, (if Nat.eqb t 1 then Some 0 else u) = Some d.
Proof.
  intros [[d ->] | ->].
  - destruct (Nat.eqb t 1); eauto.
  - exists 0. reflexivity.
Qed.

Lemma threads_total_rectangle (G : generator) (u : option R) (threads : list nat)
    (atype : list nat) (p0 v0 p1 v1 noise : ndarray) (aX aY pX pY : R)
    (rng : list (rng_state G)) :
  ncols p0 = 2%nat → shape_N2 (shape0 p0) p0 → shape_N2 (shape0 p0) v0 →
  shape_N2 (shape0 p0) noise → (shape0 p0 <= length atype)%nat →
  (is_Some u ∨ Forall (λ t, t = 1%nat) atype) →
  shape_N2 (shape0 p0) p1 → shape_N2 (shape0 p0) v1 →
  (shape0 p0 <= length rng)%nat →
  is_Some (CUDA_step_threads G u threads atype p0 v0 p1 v1 noise
                             [1; aX; aY; pX; pY] rng).
Proof.
  intros Hdim Hp0 Hv0 Hn Ha Hda. revert p1 v1 rng.
  induction threads as [| i rest IH]; intros p1 v1 rng Hp1 Hv1 Hr;
    cbn [CUDA_step_threads].
  - eauto.
  - destruct (Nat.ltb_spec i (shape0 p0)) as [Hi | Hi]; [| now apply IH].
    destruct (lookup_lt_is_Some_2 rng i) as [s Hs]; [lia |].
    rewrite Hs. cbn [mbind option_bind].
    destruct (normal_float32 G s) as [sample s'].
    destruct (lookup_lt_is_Some_2 atype i) as [t Ht]; [lia |].
    destruct (da_defined u t) as [d Hd].
    { destruct Hda as [Hu | Hall]; [now left | right].
      exact (proj1 (Forall_lookup _ _) Hall i t Ht). }
    destruct (shape_N2_row _ _ i Hp0 Hi) as (x & y & Hx).
    destruct (shape_N2_row _ _ i Hv0 Hi) as (vx & vy & Hvx).
    destruct (shape_N2_row _ _ i Hn Hi) as (n0 & n1 & Hn1).
    rewrite (lane_dim2 u atype p0 v0 p1 v1 noise sample i t (shape0 p0)
               x y vx vy n0 n1 1 aX aY pX pY d Hdim Ht Hd Hx Hvx Hn1 Hp1 Hv1 Hi).
    rewrite assign_2d_rectangular. cbn [mbind option_bind].
    apply IH; [now apply shape_N2_write2 | now apply shape_N2_write2 |].
    now rewrite length_insert.
Qed.

Lemma shape_N2_put (N : nat) (a : ndarray) (i j : nat) (x : R) :
  shape_N2 N a → shape_N2 N (put a i j x).
Proof.
  intros (Hc & Hl & Hr). unfold put. split; [exact Hc |]. cbn [rows]. split.
  - now rewrite length_alter.
  - apply Forall_alter; [exact Hr |]. intros r _ Hlen. now rewrite length_insert.
Qed.

Lemma shape_N2_setitems (N : nat) (a a' : ndarray) (i : nat) (ws : list (nat * R)) :
  shape_N2 N a → setitems a i ws = Some a' → shape_N2 N a'.
Proof.
  revert a. induction ws as [| w ws IH]; intros a Ha H; cbn [setitems] in H.
  - now injection H as <-.
  - destruct (setitem a i w.1 w.2) as [b |] eqn:Hb; [| discriminate].
    cbn [mbind option_bind] in H. apply setitem_inv in Hb as [_ ->].
    apply (IH _ (shape_N2_put N a i w.1 w.2 Ha) H).
Qed.

Lemma CUDA_step_lane_shape_N2 (u : option R) (atype : list nat)
    (p0 v0 p1 v1 noise : ndarray) (param : list R) (sample : R) (i N : nat)
    (q w : ndarray) :
  shape_N2 N p1 → shape_N2 N v1 →
  CUDA_step_lane u atype p0 v0 p1 v1 noise param sample i = Some (q, w) →
  shape_N2 N q ∧ shape_N2 N w.
Proof.
  intros Hp1 Hv1 H.
  destruct (lane_as_writes u atype p0 v0 noise param sample i) as [o Ho].
  rewrite Ho in H. destruct o as [[wp wv] |]; [| discriminate].
  cbn [mbind option_bind] in H.
  destruct (setitems p1 i wp) as [q' |] eqn:Hq; [| discriminate].
  destruct (setitems v1 i wv) as [w' |] eqn:Hw; [| discriminate].
  cbn [mbind option_bind] in H. injection H as <- <-.
  split; [exact (shape_N2_setitems N _ _ _ _ Hp1 Hq)
         | exact (shape_N2_setitems N _ _ _ _ Hv1 Hw)].
Qed.

Lemma CUDA_step_shape_N2 (G : generator) (u : option R) (gridDim blockDim : nat)
    (atype : list nat) (p0 v0 p1 v1 noise : ndarray) (param : list R)
    (rng : list (rng_state G)) (q w : ndarray) (r : list (rng_state G)) (N : nat) :
  ncols p0 = 2%nat → shape_N2 N p1 → shape_N2 N v1 →
  CUDA_step G u gridDim blockDim atype p0 v0 p1 v1 noise param rng = Some (q, w, r) →
  shape_N2 N q ∧ shape_N2 N w.
Proof.
  intros Hdim Hp1 Hv1 H. unfold CUDA_step in H.
  revert p1 v1 rng Hp1 Hv1 H.
  induction (seq 0 (gridDim * blockDim)) as [| i rest IH]; intros p1 v1 rng Hp1 Hv1 H;
    cbn [CUDA_step_threads] in H.
  - injection H as <- <- <-. now split.
  - destruct (Nat.ltb i (shape0 p0)); [| exact (IH _ _ _ Hp1 Hv1 H)].
    destruct (rng !! i) as [s |]; [| discriminate]. cbn [mbind option_bind] in H.
    destruct (normal_float32 G s) as [sample s'].
    destruct (CUDA_step_lane _ _ _ _ _ _ _ _ _ _) as [[q1 w1] |] eqn:Hl; [| discriminate].
    cbn [mbind option_bind] in H.
    destruct (CUDA_step_lane_shape_N2 _ _ _ _ _ _ _ _ _ _ N _ _ Hp1 Hv1 Hl) as [Hq Hw].
    exact (IH _ _ _ Hq Hw H).
Qed.

Lemma CUDA_step_total_rectangle (G : generator) (u : option R)
    (gridDim blockDim : nat) (atype : list nat) (p0 v0 p1 v1 noise : ndarray)
    (aX aY pX pY : R) (rng : list (rng_state G)) :
  ncols p0 = 2%nat → shape_N2 (shape0 p0) p0 → shape_N2 (shape0 p0) v0 →
  shape_N2 (shape0 p0) noise → shape_N2 (shape0 p0) p1 → shape_N2 (shape0 p0) v1 →
  (shape0 p0 <= length atype)%nat →
  (is_Some u ∨ Forall (λ t, t = 1%nat) atype) →
  (shape0 p0 <= length rng)%nat →
  ∃ q w r,
    CUDA_step G u gridDim blockDim atype p0 v0 p1 v1 noise [1; aX; aY; pX; pY] rng
      = Some (q, w, r) ∧
    shape_N2 (shape0 p0) q ∧ shape_N2 (shape0 p0) w.
Proof.
  intros Hdim Hp0 Hv0 Hn Hp1 Hv1 Ha Hda Hr.
  destruct (threads_total_rectangle G u (seq 0 (gridDim * blockDim)) atype
              p0 v0 p1 v1 noise aX aY pX pY rng Hdim Hp0 Hv0 Hn Ha Hda Hp1 Hv1 Hr)
    as [[[q w] r] H].
  exists q, w, r. split; [exact H |].
  exact (CUDA_step_shape_N2 _ _ _ _ _ _ _ _ _ _ _ _ _ _ _ _ Hdim Hp1 Hv1 H).
Qed.

(** X13. In dimension 2 a launch in a rectangular arena always returns:
    for a grid of at least one block of at least one thread, when the
    source arrays and the noise have one row of two entries per agent,
    every agent has a type and a generator state, and every agent has a
    value for [da] (all agents are Blind, or a read of the unassigned
    local yields a number), the launch produces its buffers, in which
    each array again has one row of two entries per agent. *)
Theorem launch_returns_in_rectangle (G : generator) (u : option R)
    (gridDim blockDim : nat) (atype : list nat) (p0 v0 p1 v1 noise : ndarray)
    (aX aY pX pY : R) (rng : list (rng_state G)) :
  (0 < gridDim)%nat → (0 < blockDim)%nat →
  ncols p0 = 2%nat → shape_N2 (shape0 p0) p0 → shape_N2 (shape0 p0) v0 →
  shape_N2 (shape0 p0) noise → shape_N2 (shape0 p0) p1 → shape_N2 (shape0 p0) v1 →
  (shape0 p0 <= length atype)%nat →
  (is_Some u ∨ Forall (λ t, t = 1%nat) atype) →
  (shape0 p0 <= length rng)%nat →
  ∃ q w r,
    CUDA_step G u gridDim blockDim atype p0 v0 p1 v1 noise [1; aX; aY; pX; pY] rng
      = Some (q, w, r) ∧
    shape_N2 (shape0 p0) q ∧ shape_N2 (shape0 p0) w.
Proof. intros _ _. apply CUDA_step_total_rectangle. Qed.

Lemma launch_returns_in_rectangle_witness :
  ∃ q w r,
    CUDA_step null_generator None 1 32 [1%nat]
      (NDArray 2 [[0.999; 0]]) (NDArray 2 [[0.01; 0]])
      (NDArray 2 [[0; 0]]) (NDArray 2 [[0; 0]]) (NDArray 2 [[0; 0]])
      [1; 2 / 2; 2 / 2; 1; 0] (create_xoroshiro128p_states null_generator 32 0)
      = Some (q, w, r) ∧
    shape_N2 (shape0 (NDArray 2 [[0.999; 0]])) q ∧
    shape_N2 (shape0 (NDArray 2 [[0.999; 0]])) w.
Proof.
  apply launch_returns_in_rectangle.
  - lia.
  - lia.
  - reflexivity.
  - split; [reflexivity | split; [reflexivity | repeat constructor]].
  - split; [reflexivity | split; [reflexivity | repeat constructor]].
  - split; [reflexivity | split; [reflexivity | repeat constructor]].
  - split; [reflexivity | split; [reflexivity | repeat constructor]].
  - split; [reflexivity | split; [reflexivity | repeat constructor]].
  - apply le_n.
  - right. repeat constructor.
  - unfold shape0, create_xoroshiro128p_states. cbn [rows length].
    rewrite length_map, length_seq. lia.
Defined.

(** ** The kernel: a Blind agent away from the walls *)

Lemma assign_2d_inside (z0 z1 zv : complex) (ar aX aY pX pY : R) :
  (ar = 1 ∧ - aX <= real z1 <= aX ∧ - aY <= imag z1 <= aY) ∨
  (ar = 0 ∧ Cabs z1 <= aX) →
  assign_2d z0 z1 zv ar aX aY pX pY = Some (real z1, imag z1, real zv, imag zv).
Proof.
  intros [(-> & Hx & Hy) | (-> & Hr)].
  - rewrite assign_2d_rectangular, !rect_axis_inside by assumption. reflexivity.
  - now apply assign_2d_circular_inside.
Qed.

(** X14. Motion law of a Blind agent away from the walls: in dimension 2, a
    launch turns the velocity of a Blind agent by its angular noise
    coefficient times the sample drawn from its generator state and adds
    the turned velocity to its position, when the sum is in the arena. *)
Theorem blind_motion_law (G : generator) (u : option R) (gridDim blockDim : nat)
    (atype : list nat) (p0 v0 p1 v1 noise : ndarray) (ar aX aY pX pY : R)
    (rng : list (rng_state G)) (q w : ndarray) (r : list (rng_state G))
    (i : nat) (x y vx vy n0 n1 : R) (s : rng_state G) :
  let zv := Cmul (Complex vx vy) (expj (0 + n1 * (normal_float32 G s).1)) in
  let z1 := Cadd (Complex x y) zv in
  ncols p0 = 2%nat → shape_N2 (shape0 p0) p1 → shape_N2 (shape0 p0) v1 →
  CUDA_step G u gridDim blockDim atype p0 v0 p1 v1 noise [ar; aX; aY; pX; pY] rng
    = Some (q, w, r) →
  (i < shape0 p0)%nat → (i < gridDim * blockDim)%nat →
  atype !! i = Some 1%nat → rng !! i = Some s →
  rows p0 !! i = Some [x; y] → rows v0 !! i = Some [vx; vy] →
  rows noise !! i = Some [n0; n1] →
  (ar = 1 ∧ - aX <= real z1 <= aX ∧ - aY <= imag z1 <= aY) ∨
  (ar = 0 ∧ Cabs z1 <= aX) →
  rows q !! i = Some [real z1; imag z1] ∧ rows w !! i = Some [real zv; imag zv].
Proof.
  intros zv z1 Hdim Hp1 Hv1 H HN Hg Ht Hs Hp Hv Hn Hin. unfold CUDA_step in H.
  apply (threads_lane _ _ _ _ _ _ _ _ _ _ _ _ _ _ i (NoDup_seq _ _)) in H;
    [| apply elem_of_seq; lia | exact HN].
  destruct H as (s' & q1 & w1 & Hs' & Hl & -> & ->).
  rewrite Hs in Hs'. injection Hs' as <-.
  rewrite (lane_dim2 u atype p0 v0 p1 v1 noise _ i 1 (shape0 p0) x y vx vy n0 n1
             ar aX aY pX pY 0 Hdim Ht eq_refl Hp Hv Hn Hp1 Hv1 HN) in Hl.
  fold zv in Hl. fold z1 in Hl.
  rewrite (assign_2d_inside _ z1 zv ar aX aY pX pY Hin) in Hl.
  cbn [mbind option_bind] in Hl. injection Hl as <- <-.
  destruct (shape_N2_row _ _ i Hp1 HN) as (a & b & Ha).
  destruct (shape_N2_row _ _ i Hv1 HN) as (c & d & Hc).
  split; eapply rows_write2_lookup; eauto.
Qed.

Lemma blind_launch_example :
  CUDA_step null_generator None 1 32 [1%nat]
    (NDArray 2 [[-1; 0]]) (NDArray 2 [[0.009; 0]])
    (NDArray 2 [[0; 0]]) (NDArray 2 [[0; 0]]) (NDArray 2 [[0; 0]])
    [1; 1; 1; 1; 1] (create_xoroshiro128p_states null_generator 32 0)
  = Some (NDArray 2 [[-1 + 0.009; 0 + 0]], NDArray 2 [[0.009; 0]],
          <[0%nat := (normal_float32 null_generator
                        (init_state null_generator 0 0)).2]>
            (create_xoroshiro128p_states null_generator 32 0)).
Proof.
  rewrite (CUDA_step_single null_generator None 0 _ _ _ _ _ _ _ _
             (init_state null_generator 0 0));
    [| reflexivity | apply create_states_lookup; lia].
  rewrite blind_lane_inside by lra. reflexivity.
Qed.

Lemma blind_motion_law_witness :
  rows (NDArray 2 [[-1 + 0.009; 0 + 0]]) !! 0%nat
  = Some [real (Cadd (Complex (-1) 0)
                  (Cmul (Complex 0.009 0)
                     (expj (0 + 0 * (normal_float32 null_generator ()).1))));
          imag (Cadd (Complex (-1) 0)
                  (Cmul (Complex 0.009 0)
                     (expj (0 + 0 * (normal_float32 null_generator ()).1))))] ∧
  rows (NDArray 2 [[0.009; 0]]) !! 0%nat
  = Some [real (Cmul (Complex 0.009 0)
                  (expj (0 + 0 * (normal_float32 null_generator ()).1)));
          imag (Cmul (Complex 0.009 0)
                  (expj (0 + 0 * (normal_float32 null_generator ()).1)))].
Proof.
  assert (Hz : Cmul (Complex 0.009 0)
                 (expj (0 + 0 * (normal_float32 null_generator ()).1))
               = Complex 0.009 0) by (apply Cmul_expj_0; ring).
  eapply (blind_motion_law null_generator None 1 32 [1%nat]
           (NDArray 2 [[-1; 0]]) (NDArray 2 [[0.009; 0]])
           (NDArray 2 [[0; 0]]) (NDArray 2 [[0; 0]]) (NDArray 2 [[0; 0]])
           1 1 1 1 1 _ _ _ _ 0%nat (-1) 0 0.009 0 0 0 ()).
  - reflexivity.
  - split; [reflexivity | split; [reflexivity | repeat constructor]].
  - split; [reflexivity | split; [reflexivity | repeat constructor]].
  - exact blind_launch_example.
  - apply le_n.
  - lia.
  - reflexivity.
  - reflexivity.
  - reflexivity.
  - reflexivity.
  - reflexivity.
  - left. rewrite Hz. cbn [real imag Cadd]. repeat split; lra.
Defined.

(** ** [run] returns in a rectangular arena *)

Lemma serialize_param_rectangle (g : Geometry) (l : list bool) :
  dimension g = 2%nat → arena g = "rectangular"%string →
  (2 <= length (arena_shape g))%nat →
  periodic g = Some (PList l) → (2 <= length l)%nat →
  ∃ aX aY pX pY, serialize_param g = inr [1; aX; aY; pX; pY].
Proof.
  intros Hd Ha Hs Hp Hl. unfold serialize_param, arena_size, arena_periodicity,
    arena_code, list_index.
  rewrite Hd, Ha, Hp. cbn [String.eqb Ascii.eqb Bool.eqb].
  destruct (arena_shape g) as [| sx [| sy shape]]; cbn [length] in Hs; try lia.
  destruct l as [| bx [| by' l]]; cbn [length] in Hl; try lia.
  cbn [lookup list_lookup rbind]. eauto.
Qed.

Lemma Engine_step_total (G : generator) (u : option R) (i : nat)
    (a : Agents) (c : CUDA G) (N : nat) (aX aY pX pY : R) :
  param c = [1; aX; aY; pX; pY] →
  shape_N2 N (cp0 c) → shape_N2 N (cv0 c) → shape_N2 N (cp1 c) → shape_N2 N (cv1 c) →
  shape_N2 N (cnoise c) → (N <= length (catype c))%nat →
  (is_Some u ∨ Forall (λ t, t = 1%nat) (catype c)) → (N <= length (rng c))%nat →
  ∃ a' c',
    Engine_step G u i (a, c) = Some (a', c') ∧
    param c' = param c ∧ cnoise c' = cnoise c ∧ catype c' = catype c ∧
    shape_N2 N (cp0 c') ∧ shape_N2 N (cv0 c') ∧
    shape_N2 N (cp1 c') ∧ shape_N2 N (cv1 c') ∧
    length (rng c') = length (rng c) ∧
    shape_N2 N (pos a') ∧ shape_N2 N (vel a') ∧
    N_agents a' = N_agents a ∧ atype a' = atype a ∧ noise a' = noise a ∧
    N_groups a' = N_groups a ∧ group_names a' = group_names a ∧ group a' = group a.
Proof.
  intros Hpar H0 Hv0 H1 Hv1 Hno Hat Hda Hrng. unfold Engine_step. rewrite Hpar.
  destruct (negb _).
  - pose proof (shape_N2_shape0 _ _ H0) as HN.
    destruct (CUDA_step_total_rectangle G u (gridDim c) (blockDim c) (catype c)
                (cp0 c) (cv0 c) (cp1 c) (cv1 c) (cnoise c) aX aY pX pY (rng c))
      as (q & w & r & H & Hq & Hw); rewrite ?HN; try assumption; [apply H0 |].
    rewrite H. cbn [mbind option_bind]. eexists _, _. split; [reflexivity |].
    cbn [param cnoise catype cp0 cv0 cp1 cv1 rng pos vel N_agents atype noise
         N_groups group_names group].
    rewrite HN in Hq, Hw.
    pose proof (launch_draws_length G u _ _ _ _ _ _ _ _ _ _ _ _ _ H) as Hl.
    repeat lazymatch goal with |- _ ∧ _ => split end; try assumption; reflexivity.
  - pose proof (shape_N2_shape0 _ _ H1) as HN.
    destruct (CUDA_step_total_rectangle G u (gridDim c) (blockDim c) (catype c)
                (cp1 c) (cv1 c) (cp0 c) (cv0 c) (cnoise c) aX aY pX pY (rng c))
      as (q & w & r & H & Hq & Hw); rewrite ?HN; try assumption; [apply H1 |].
    rewrite H. cbn [mbind option_bind]. eexists _, _. split; [reflexivity |].
    cbn [param cnoise catype cp0 cv0 cp1 cv1 rng pos vel N_agents atype noise
         N_groups group_names group].
    rewrite HN in Hq, Hw.
    pose proof (launch_draws_length G u _ _ _ _ _ _ _ _ _ _ _ _ _ H) as Hl.
    repeat lazymatch goal with |- _ ∧ _ => split end; try assumption; reflexivity.
Qed.

Lemma main_loop_total (G : generator) (u : option R) (n i : nat)
    (a : Agents) (c : CUDA G) (N : nat) (aX aY pX pY : R) :
  param c = [1; aX; aY; pX; pY] →
  shape_N2 N (cp0 c) → shape_N2 N (cv0 c) → shape_N2 N (cp1 c) → shape_N2 N (cv1 c) →
  shape_N2 N (cnoise c) → (N <= length (catype c))%nat →
  (is_Some u ∨ Forall (λ t, t = 1%nat) (catype c)) → (N <= length (rng c))%nat →
  shape_N2 N (pos a) → shape_N2 N (vel a) →
  ∃ a' c',
    main_loop G u n i (a, c) = Some (a', c') ∧
    shape_N2 N (pos a') ∧ shape_N2 N (vel a') ∧
    N_agents a' = N_agents a ∧ atype a' = atype a ∧ noise a' = noise a ∧
    N_groups a' = N_groups a ∧ group_names a' = group_names a ∧ group a' = group a.
Proof.
  revert i a c. induction n as [| n IH];
    intros i a c Hpar H0 Hv0 H1 Hv1 Hno Hat Hda Hrng Hpa Hva; cbn [main_loop].
  - exists a, c. repeat lazymatch goal with |- _ ∧ _ => split end;
      try assumption; reflexivity.
  - destruct (Engine_step_total G u i a c N aX aY pX pY)
      as (a1 & c1 & Hs & Hpar1 & Hno1 & Hat1 & H01 & Hv01 & H11 & Hv11 & Hr1
          & Hpa1 & Hva1 & E1 & E2 & E3 & E4 & E5 & E6); try assumption.
    rewrite Hs. cbn [mbind option_bind].
    destruct (IH (S i) a1 c1) as (a' & c' & Hl & Hp' & Hv' & F1 & F2 & F3 & F4 & F5 & F6);
      try assumption; try congruence.
    exists a', c'. repeat lazymatch goal with |- _ ∧ _ => split end;
      try assumption; congruence.
Qed.

Lemma shape_N2_device_array (mem : nat → nat → R) (n : nat) :
  shape_N2 n (device_array mem n 2).
Proof.
  unfold shape_N2, device_array. cbn [ncols rows].
  split; [reflexivity |]. split; [now rewrite length_map, length_seq |].
  apply Forall_forall. intros r Hr. apply list_elem_of_fmap in Hr as (k & -> & _).
  reflexivity.
Qed.

(** X15. [run] returns in a rectangular arena: for a two-dimensional engine
    with at least one agent, whose arena is rectangular with two shape
    entries and two periodicity flags, and whose agents have one row of
    two entries in the positions, the velocities and the noise, a type
    each, and a value for [da] each (all Blind, or a read of the
    unassigned local yields a number), [run] raises nothing and completes
    all its steps, whatever the device memory holds.  It leaves the count,
    the types, the noise and the groups of the agents as they were. *)
Theorem run_returns_in_rectangle (G : generator) (u : option R)
    (mem_p1 mem_v1 : nat → nat → R) (e : Engine) (l : list bool) :
  N_agents (agents e) ≠ 0%nat →
  dimension (geom e) = 2%nat → arena (geom e) = "rectangular"%string →
  (2 <= length (arena_shape (geom e)))%nat →
  periodic (geom e) = Some (PList l) → (2 <= length l)%nat →
  shape_N2 (N_agents (agents e)) (pos (agents e)) →
  shape_N2 (N_agents (agents e)) (vel (agents e)) →
  shape_N2 (N_agents (agents e)) (noise (agents e)) →
  (N_agents (agents e) <= length (atype (agents e)))%nat →
  (is_Some u ∨ Forall (λ t, t = 1%nat) (atype (agents e))) →
  ∃ a c,
    Engine_run G u mem_p1 mem_v1 e = inr (Some (a, c)) ∧
    shape_N2 (N_agents (agents e)) (pos a) ∧
    shape_N2 (N_agents (agents e)) (vel a) ∧
    N_agents a = N_agents (agents e) ∧ atype a = atype (agents e) ∧
    noise a = noise (agents e) ∧ N_groups a = N_groups (agents e) ∧
    group_names a = group_names (agents e) ∧ group a = group (agents e).
Proof.
  intros _ Hd Ha Hs Hp Hl Hpos Hvel Hno Hat Hda.
  destruct (serialize_param_rectangle (geom e) l Hd Ha Hs Hp Hl)
    as (aX & aY & pX & pY & Hpar).
  destruct (run_setup_ok G mem_p1 mem_v1 e _ Hpar) as (c & Hc & Hpc).
  unfold Engine_run. rewrite Hc. unfold rbind.
  destruct (run_setup_fields _ _ _ _ _ Hc)
    as (_ & _ & Hr & H0 & Hv0 & H1 & Hv1 & Ht & Hn & _).
  destruct (main_loop_total G u (steps e) 0 (agents e) c (N_agents (agents e))
              aX aY pX pY) as (a' & c' & Hm & Hrest); try assumption.
  - now rewrite H0.
  - now rewrite Hv0.
  - rewrite H1, Hd. apply shape_N2_device_array.
  - rewrite Hv1, Hd. apply shape_N2_device_array.
  - now rewrite Hn.
  - now rewrite Ht.
  - now rewrite Ht.
  - rewrite Hr. unfold create_xoroshiro128p_states.
    rewrite length_map, length_seq. apply grid_covers.
  - exists a', c'. split; [now rewrite Hm | exact Hrest].
Qed.

Lemma run_returns_in_rectangle_witness :
  ∃ a c,
    Engine_run null_generator None zeroed zeroed scenario_A_engine
      = inr (Some (a, c)) ∧
    shape_N2 1 (pos a) ∧ shape_N2 1 (vel a) ∧
    N_agents a = 1%nat ∧ atype a = [1%nat] ∧
    noise a = NDArray 2 [[0; 0]] ∧ N_groups a = 1%nat ∧
    group_names a = [Atom (AStr "agent")] ∧ group a = [0%nat].
Proof.
  apply (run_returns_in_rectangle null_generator None zeroed zeroed
           scenario_A_engine [true; false]).
  - discriminate.
  - reflexivity.
  - reflexivity.
  - apply le_n.
  - reflexivity.
  - apply le_n.
  - split; [reflexivity | split; [reflexivity | repeat constructor]].
  - split; [reflexivity | split; [reflexivity | repeat constructor]].
  - split; [reflexivity | split; [reflexivity | repeat constructor]].
  - apply le_n.
  - right. repeat constructor.
Defined.

(** ** The double buffering after the first step *)

Lemma parity_succ (i : nat) :
  Nat.eqb (S i mod 2) 0 = negb (Nat.eqb (i mod 2) 0).
Proof.
  replace (S i) with (i + 1)%nat by lia. rewrite Nat.Div0.add_mod.
  pose proof (Nat.mod_upper_bound i 2 ltac:(lia)) as H.
  destruct (i mod 2)%nat as [| [| k]]; [reflexivity | reflexivity | lia].
Qed.

Lemma Engine_step_launch (G : generator) (u : option R) (i : nat)
    (a : Agents) (c : CUDA G) (N : nat) :
  shape_N2 N (cp0 c) → shape_N2 N (cv0 c) → shape_N2 N (cp1 c) → shape_N2 N (cv1 c) →
  (N <= gridDim c * blockDim c)%nat →
  published <$> Engine_step G u i (a, c)
  = launch_on G u (gridDim c) (blockDim c) (catype c) (cnoise c) (param c)
      (source i c, rng c) ∧
  ∀ a1 c1, Engine_step G u i (a, c) = Some (a1, c1) →
    shape_N2 N (cp0 c1) ∧ shape_N2 N (cv0 c1) ∧
    shape_N2 N (cp1 c1) ∧ shape_N2 N (cv1 c1) ∧
    gridDim c1 = gridDim c ∧ blockDim c1 = blockDim c ∧ catype c1 = catype c ∧
    cnoise c1 = cnoise c ∧ param c1 = param c ∧
    source (S i) c1 = (pos a1, vel a1).
Proof.
  intros H0 Hv0 H1 Hv1 Hg. unfold Engine_step, source, launch_on.
  rewrite parity_succ.
  pose proof (shape_N2_shape0 _ _ H0) as HN0.
  pose proof (shape_N2_shape0 _ _ H1) as HN1.
  destruct (negb (Nat.eqb (i mod 2) 0)); cbn [negb].
  - rewrite (CUDA_step_erases G u _ _ _ (cp0 c) (cv0 c) (cp1 c) (cv1 c) (cp0 c) (cv0 c));
      rewrite ?HN0; try assumption; [| apply H0].
    destruct (CUDA_step _ _ _ _ _ _ _ _ _ _ _ _) as [[[q w] r] |] eqn:Hk;
      cbn [mbind option_bind fmap option_fmap option_map]; [| split; [reflexivity | discriminate]].
    split; [reflexivity |]. intros a1 c1 E. injection E as <- <-.
    cbn [cp0 cv0 cp1 cv1 gridDim blockDim catype cnoise param pos vel].
    destruct (CUDA_step_shape_N2 _ _ _ _ _ _ _ _ _ _ _ _ _ _ _ N (proj1 H0) H1 Hv1 Hk)
      as [Hq Hw].
    repeat lazymatch goal with |- _ ∧ _ => split end; try assumption; reflexivity.
  - rewrite (CUDA_step_erases G u _ _ _ (cp1 c) (cv1 c) (cp0 c) (cv0 c) (cp1 c) (cv1 c));
      rewrite ?HN1; try assumption; [| apply H1].
    destruct (CUDA_step _ _ _ _ _ _ _ _ _ _ _ _) as [[[q w] r] |] eqn:Hk;
      cbn [mbind option_bind fmap option_fmap option_map]; [| split; [reflexivity | discriminate]].
    split; [reflexivity |]. intros a1 c1 E. injection E as <- <-.
    cbn [cp0 cv0 cp1 cv1 gridDim blockDim catype cnoise param pos vel].
    destruct (CUDA_step_shape_N2 _ _ _ _ _ _ _ _ _ _ _ _ _ _ _ N (proj1 H1) H0 Hv0 Hk)
      as [Hq Hw].
    repeat lazymatch goal with |- _ ∧ _ => split end; try assumption; reflexivity.
Qed.

Lemma main_loop_launches (G : generator) (u : option R) (n i : nat)
    (a : Agents) (c : CUDA G) (N : nat) :
  shape_N2 N (cp0 c) → shape_N2 N (cv0 c) → shape_N2 N (cp1 c) → shape_N2 N (cv1 c) →
  (N <= gridDim c * blockDim c)%nat →
  source i c = (pos a, vel a) →
  published <$> main_loop G u n i (a, c)
  = launches G u (gridDim c) (blockDim c) (catype c) (cnoise c) (param c) n
      (pos a, vel a, rng c).
Proof.
  revert i a c. induction n as [| n IH]; intros i a c H0 Hv0 H1 Hv1 Hg Hsrc.
  - reflexivity.
  - cbn [main_loop launches].
    destruct (Engine_step_launch G u i a c N H0 Hv0 H1 Hv1 Hg) as [Hl Hnext].
    rewrite <- Hsrc, <- Hl.
    destruct (Engine_step G u i (a, c)) as [[a1 c1] |]; [| reflexivity].
    cbn [mbind option_bind fmap option_fmap option_map].
    destruct (Hnext a1 c1 eq_refl)
      as (K0 & Kv0 & K1 & Kv1 & Eg & Eb & Et & En & Ep & Es).
    rewrite (IH (S i) a1 c1 K0 Kv0 K1 Kv1) by (rewrite ?Eg, ?Eb; assumption).
    rewrite Eg, Eb, Et, En, Ep. reflexivity.
Qed.

(** X16. What the double buffering computes: in dimension 2, with at least
    one agent, the state that [run] publishes after [steps >= 1] steps,
    and the generator states it leaves, are those of [steps] launches in a
    row, each reading the state that the previous one wrote, the first one
    reading the two arrays that [cuda.device_array] allocated. *)
Theorem run_is_iterated_launch (G : generator) (u : option R)
    (mem_p1 mem_v1 : nat → nat → R) (e : Engine) (par : list R) :
  let N := N_agents (agents e) in
  N ≠ 0%nat → dimension (geom e) = 2%nat → steps e ≠ 0%nat →
  shape_N2 N (pos (agents e)) → shape_N2 N (vel (agents e)) →
  serialize_param (geom e) = inr par →
  ∃ o, Engine_run G u mem_p1 mem_v1 e = inr o ∧
       published <$> o
       = launches G u ((N + 31) / 32) 32 (atype (agents e)) (noise (agents e)) par
           (steps e)
           (device_array mem_p1 N 2, device_array mem_v1 N 2,
            create_xoroshiro128p_states G (32 * ((N + 31) / 32)) 0).
Proof.
  intros N _ Hd Hs Hpos Hvel Hpar.
  destruct (run_setup_ok G mem_p1 mem_v1 e _ Hpar) as (c & Hc & Hpc).
  unfold Engine_run. rewrite Hc. unfold rbind. eexists. split; [reflexivity |].
  destruct (run_setup_fields _ _ _ _ _ Hc)
    as (Hb & Hg & Hr & H0 & Hv0 & H1 & Hv1 & Ht & Hn & _).
  rewrite Hd in H1, Hv1.
  assert (K0 : shape_N2 N (cp0 c)) by now rewrite H0.
  assert (Kv0 : shape_N2 N (cv0 c)) by now rewrite Hv0.
  assert (K1 : shape_N2 N (cp1 c)) by (rewrite H1; apply shape_N2_device_array).
  assert (Kv1 : shape_N2 N (cv1 c)) by (rewrite Hv1; apply shape_N2_device_array).
  assert (Kg : (N <= gridDim c * blockDim c)%nat).
  { rewrite Hg, Hb. pose proof (grid_covers N). unfold N in *. lia. }
  destruct (steps e) as [| n]; [contradiction |].
  cbn [main_loop launches].
  destruct (Engine_step_launch G u 0 (agents e) c N K0 Kv0 K1 Kv1 Kg) as [Hl Hnext].
  assert (Hsrc : source 0 c = (device_array mem_p1 N 2, device_array mem_v1 N 2)).
  { unfold source. cbn [Nat.modulo Nat.divmod Nat.eqb negb snd Nat.sub].
    now rewrite H1, Hv1. }
  rewrite Hsrc, Hg, Hb, Ht, Hn, Hpc, Hr in Hl. fold N in Hl. rewrite <- Hl.
  destruct (Engine_step G u 0 (agents e, c)) as [[a1 c1] |]; [| reflexivity].
  cbn [mbind option_bind fmap option_fmap option_map].
  destruct (Hnext a1 c1 eq_refl)
    as (L0 & Lv0 & L1 & Lv1 & Eg & Eb & Et & En & Ep & Es).
  rewrite (main_loop_launches G u n 1 a1 c1 N L0 Lv0 L1 Lv1)
    by (rewrite ?Eg, ?Eb; assumption).
  rewrite Eg, Eb, Et, En, Ep, Hg, Hb, Ht, Hn, Hpc. reflexivity.
Qed.

Lemma run_is_iterated_launch_witness :
  ∃ o, Engine_run null_generator None zeroed zeroed scenario_A_engine = inr o ∧
       published <$> o
       = launches null_generator None ((1 + 31) / 32) 32 [1%nat]
           (NDArray 2 [[0; 0]]) [1; 2 / 2; 2 / 2; 1; 0] 1
           (device_array zeroed 1 2, device_array zeroed 1 2,
            create_xoroshiro128p_states null_generator (32 * ((1 + 31) / 32)) 0).
Proof.
  apply (run_is_iterated_launch null_generator None zeroed zeroed
           scenario_A_engine [1; 2 / 2; 2 / 2; 1; 0]).
  - discriminate.
  - reflexivity.
  - discriminate.
  - split; [reflexivity | split; [reflexivity | repeat constructor]].
  - split; [reflexivity | split; [reflexivity | repeat constructor]].
  - apply scenario_A_param.
Defined.

(** ** [add_group]: what a successful call appends *)

Lemma index_of_Some {A : Type} `{EqDecision A} (x : A) (l : list A) (k : nat) :
  index_of x l = Some k → l !! k = Some x ∧ (k < length l)%nat.
Proof.
  unfold index_of. destruct (list_find _ l) as [[i y] |] eqn:H; [| discriminate].
  cbn. intros E. injection E as <-.
  apply list_find_Some in H as (Hl & -> & _).
  split; [exact Hl | now apply lookup_lt_Some in Hl].
Qed.

Lemma index_of_None {A : Type} `{EqDecision A} (x : A) (l : list A) :
  index_of x l = None → x ∉ l.
Proof.
  unfold index_of. destruct (list_find _ l) as [[i y] |] eqn:H; [discriminate |].
  intros _ Hin. apply list_find_None in H.
  exact (proj1 (Forall_forall _ _) H x Hin eq_refl).
Qed.

Lemma index_of_snoc {A : Type} `{EqDecision A} (x : A) (l : list A) :
  x ∉ l → index_of x (l ++ [x]) = Some (length l).
Proof.
  intros Hx. unfold index_of.
  assert (H : list_find (λ y, y = x) (l ++ [x]) = Some (length l, x)).
  { apply list_find_Some. split; [| split; [reflexivity |]].
    - rewrite lookup_app_r by lia. now rewrite Nat.sub_diag.
    - intros j y Hj Hlt ->. rewrite lookup_app_l in Hj by exact Hlt.
      apply Hx. eapply list_elem_of_lookup_2. exact Hj. }
  now rewrite H.
Qed.

Lemma index_of_cons {A : Type} `{EqDecision A} (x y : A) (l : list A) :
  index_of x (y :: l) = if decide (y = x) then Some 0%nat else S <$> index_of x l.
Proof.
  unfold index_of. cbn [list_find]. destruct (decide (y = x)); [reflexivity |].
  now destruct (list_find _ l) as [[i z] |].
Qed.

(** The position that the search of a group name gives, when every
    comparison has a truth value. *)
Lemma name_index_inr (gname : pyval) (names : list pyval) (found : option nat) :
  name_index gname names = inr found → found = index_of gname names.
Proof.
  revert found. induction names as [| x rest IH]; intros found H; cbn [name_index] in H.
  - now injection H as <-.
  - rewrite index_of_cons. unfold py_eq, rbind in H.
    destruct (holds_array x || holds_array gname)%bool; [discriminate |].
    destruct (bool_decide_reflect (x = gname)) as [E | E].
    + injection H as <-. now rewrite decide_True by exact E.
    + rewrite decide_False by exact E.
      destruct (name_index gname rest) as [? | k]; [discriminate |].
      injection H as <-. now rewrite (IH k eq_refl).
Qed.

(** No comparison fails when no array takes part. *)
Lemma name_index_plain (gname : pyval) (names : list pyval) :
  holds_array gname = false → Forall (λ x, holds_array x = false) names →
  name_index gname names = inr (index_of gname names).
Proof.
  intros Hg Hall. induction Hall as [| x rest Hx _ IH]; [reflexivity |].
  cbn [name_index]. rewrite index_of_cons. unfold py_eq, rbind. rewrite Hx, Hg.
  cbn [orb]. destruct (bool_decide_reflect (x = gname)) as [E | E].
  - now rewrite decide_True by exact E.
  - rewrite decide_False by exact E. now rewrite IH.
Qed.

Lemma concatenate_rows (a : ndarray) (b : block) (x : ndarray) :
  concatenate a b = inr x →
  ∃ b', b = Block2 b' ∧ ncols b' = ncols a ∧ x = NDArray (ncols a) (rows a ++ rows b').
Proof.
  unfold concatenate. destruct b as [b' |]; [| discriminate].
  destruct (decide _) as [E |]; [| discriminate].
  intros H. injection H as <-. now exists b'.
Qed.

(** A successful definition of agents, field by field. *)
Lemma define_agents_inr (gtype : string) (gname : pyval) (N : nat)
    (pos_new vel_new : block) (a a' : Agents) :
  define_agents gtype gname N pos_new vel_new a = (inr (), a') →
  ∃ t k p v,
    index_of (lower gtype) atypes = Some t ∧
    pos_new = Block2 p ∧ ncols p = ncols (pos a) ∧
    vel_new = Block2 v ∧ ncols v = ncols (vel a) ∧
    ncols (noise a) = 2%nat ∧
    N_agents a' = (N_agents a + N)%nat ∧
    atype a' = atype a ++ replicate N t ∧
    pos a' = NDArray (ncols (pos a)) (rows (pos a) ++ rows p) ∧
    vel a' = NDArray (ncols (vel a)) (rows (vel a) ++ rows v) ∧
    noise a' = NDArray (ncols (noise a)) (rows (noise a) ++ replicate N [0; 0.1]) ∧
    group a' = group a ++ replicate N k ∧
    (((gname ∈ group_names a) ∧ index_of gname (group_names a) = Some k ∧
      group_names a' = group_names a ∧ N_groups a' = N_groups a)
     ∨ ((gname ∉ group_names a) ∧ k = length (group_names a) ∧
        group_names a' = group_names a ++ [gname] ∧
        N_groups a' = (N_groups a + 1)%nat)).
Proof.
  unfold define_agents.
  destruct (index_of (lower gtype) atypes) as [t |]; [| discriminate].
  destruct (concatenate _ pos_new) as [? | p] eqn:Hp; [discriminate |].
  destruct (concatenate _ vel_new) as [? | v] eqn:Hv; [discriminate |].
  destruct (concatenate _ (Block2 _)) as [? | x] eqn:Hx; [discriminate |].
  apply concatenate_rows in Hp as (p' & -> & Hcp & ->).
  apply concatenate_rows in Hv as (v' & -> & Hcv & ->).
  apply concatenate_noise in Hx as [Hcn ->].
  cbn [pos vel noise set_vel set_pos set_atype set_N_agents set_noise] in *.
  destruct (name_index gname _) as [? | found] eqn:Hk; [discriminate |].
  apply name_index_inr in Hk.
  destruct found as [k |]; symmetry in Hk; intros H; injection H as <-.
  - exists t, k, p', v'.
    repeat lazymatch goal with |- _ ∧ _ => split end; try reflexivity; try assumption.
    left. split; [| now repeat split].
    apply index_of_Some in Hk as [Hk _]. eapply list_elem_of_lookup_2. exact Hk.
  - exists t, (length (group_names a)), p', v'.
    repeat lazymatch goal with |- _ ∧ _ => split end; try reflexivity; try assumption.
    right. split; [now apply index_of_None | now repeat split].
Qed.

(** X17. A successful [add_group(gtype, N, ...)] appends: the count grows by
    [N]; the types grow by [N] entries equal to the position of the
    lower-cased [gtype] among ['fixed', 'blind', 'ripo', 'rinno']; the
    group indices grow by [N] entries equal to the position of the group
    name (the keyword [name], or [gtype] as written) among the group names
    after the call; positions and velocities of the agents already there
    are kept in place, before the new rows. *)
Theorem add_group_appends (rnd : np_random) (g : Geometry) (gtype : string)
    (N : nat) (kwargs : gmap string pyval) (a a' : Agents) :
  add_group rnd g gtype N kwargs a = (inr (), a') →
  ∃ t k,
    index_of (lower gtype) atypes = Some t ∧
    index_of (default (Atom (AStr gtype)) (kwargs !! "name"%string))
             (group_names a') = Some k ∧
    N_agents a' = (N_agents a + N)%nat ∧
    atype a' = atype a ++ replicate N t ∧
    group a' = group a ++ replicate N k ∧
    rows (pos a) `prefix_of` rows (pos a') ∧
    rows (vel a) `prefix_of` rows (vel a').
Proof.
  unfold add_group.
  destruct (initial_conditions rnd g N kwargs) as [? | [pos_new vel_new]];
    [discriminate |].
  intros H. apply define_agents_inr in H
    as (t & k & p & v & Ht & _ & _ & _ & _ & _ & HN & Hat & Hp & Hv & _ & Hg & Hn).
  exists t, k. rewrite Hp, Hv. cbn [rows].
  repeat lazymatch goal with |- _ ∧ _ => split end; try assumption;
    try (now eexists).
  destruct Hn as [(_ & Hk & -> & _) | (Hnew & -> & -> & _)];
    [exact Hk | now apply index_of_snoc].
Qed.

Lemma add_group_appends_witness :
  ∃ a' t k,
    add_group constant_draws (Geometry_init 2 None None None) "Blind" 2
              noise_kwargs (Agents_init 2) = (inr (), a') ∧
    index_of (lower "Blind") atypes = Some t ∧
    index_of (default (Atom (AStr "Blind")) (noise_kwargs !! "name"%string))
             (group_names a') = Some k ∧
    N_agents a' = (N_agents (Agents_init 2) + 2)%nat ∧
    atype a' = atype (Agents_init 2) ++ replicate 2 t ∧
    group a' = group (Agents_init 2) ++ replicate 2 k ∧
    rows (pos (Agents_init 2)) `prefix_of` rows (pos a') ∧
    rows (vel (Agents_init 2)) `prefix_of` rows (vel a').
Proof.
  destruct add_group_example as [a' H]. exists a'.
  destruct (add_group_appends _ _ _ _ _ _ _ H) as (t & k & Hrest).
  exists t, k. split; [exact H | exact Hrest].
Defined.

(** X18. [add_group] keeps the bookkeeping of the agents: when every agent
    has one type, one group index and one noise row, the types and group
    indices are in range and no group name is repeated, the same holds
    after a successful call. *)
Theorem add_group_keeps_bookkeeping (rnd : np_random) (g : Geometry)
    (gtype : string) (N : nat) (kwargs : gmap string pyval) (a a' : Agents) :
  bookkeeping a →
  add_group rnd g gtype N kwargs a = (inr (), a') →
  bookkeeping a'.
Proof.
  intros (B1 & B2 & B3 & B4 & B5 & B6 & B7). unfold add_group.
  destruct (initial_conditions rnd g N kwargs) as [? | [pos_new vel_new]];
    [discriminate |].
  intros H. apply define_agents_inr in H
    as (t & k & p & v & Ht & _ & _ & _ & _ & _ & HN & Hat & _ & _ & Hno & Hg & Hn).
  apply index_of_Some in Ht as [_ Ht].
  unfold bookkeeping. rewrite HN, Hat, Hg, Hno. unfold shape0 in *. cbn [rows].
  rewrite !length_app, !length_replicate.
  assert (Hk : (k < N_groups a')%nat ∧ (N_groups a <= N_groups a')%nat
               ∧ N_groups a' = length (group_names a') ∧ NoDup (group_names a')).
  { destruct Hn as [(_ & Hk & -> & ->) | (Hnew & -> & -> & ->)].
    - apply index_of_Some in Hk as [_ Hk]. repeat split; try assumption; lia.
    - rewrite length_app. cbn [length]. repeat split; try lia.
      apply NoDup_app. repeat split; [assumption | | apply NoDup_singleton].
      intros x Hx Hx'. apply list_elem_of_singleton in Hx' as ->. contradiction. }
  destruct Hk as (Hk & Hle & Hlen & Hnd).
  repeat lazymatch goal with |- _ ∧ _ => split end; try assumption; try lia.
  - apply Forall_app. split.
    + eapply Forall_impl; [exact B6 |]. cbn beta. intros; lia.
    + apply Forall_replicate. exact Hk.
  - apply Forall_app. split; [exact B7 | now apply Forall_replicate].
Qed.

Lemma Agents_init_bookkeeping (d : nat) : bookkeeping (Agents_init d).
Proof.
  unfold bookkeeping, Agents_init, shape0. cbn [N_agents atype group noise rows
    N_groups group_names length].
  repeat lazymatch goal with |- _ ∧ _ => split end;
    try reflexivity; constructor.
Qed.

Lemma add_group_keeps_bookkeeping_witness :
  ∃ a', add_group constant_draws (Geometry_init 2 None None None) "Blind" 2
                  noise_kwargs (Agents_init 2) = (inr (), a') ∧
        bookkeeping a'.
Proof.
  destruct add_group_example as [a' H]. exists a'. split; [exact H |].
  exact (add_group_keeps_bookkeeping _ _ _ _ _ _ _ (Agents_init_bookkeeping 2) H).
Defined.

(** ** [add_group]: keywords *)

Lemma initial_conditions_insert (rnd : np_random) (g : Geometry) (N : nat)
    (kwargs : gmap string pyval) (key : string) (v : pyval) :
  key ≠ "initial_condition"%string → key ≠ "IC"%string →
  initial_conditions rnd g N (<[key := v]> kwargs) = initial_conditions rnd g N kwargs.
Proof.
  intros H1 H2. unfold initial_conditions.
  now rewrite !lookup_insert_ne by congruence.
Qed.

(** X19. The keywords of [add_group]: a keyword other than [name],
    [initial_condition] and [IC] has no effect on the call, and of the
    keyword [initial_condition] only the presence matters: its value is
    never read. *)
Theorem add_group_keywords (rnd : np_random) (g : Geometry) (gtype : string)
    (N : nat) (kwargs : gmap string pyval) (a : Agents) :
  (∀ key v,
     key ∉ ["name"; "initial_condition"; "IC"]%string →
     add_group rnd g gtype N (<[key := v]> kwargs) a
     = add_group rnd g gtype N kwargs a) ∧
  (∀ x y,
     add_group rnd g gtype N (<["initial_condition"%string := x]> kwargs) a
     = add_group rnd g gtype N (<["initial_condition"%string := y]> kwargs) a).
Proof.
  split.
  - intros key v Hkey. unfold add_group.
    rewrite initial_conditions_insert, lookup_insert_ne; [reflexivity | | |];
      intros ->; apply Hkey; set_solver.
  - intros x y. unfold add_group, initial_conditions.
    rewrite !lookup_insert_eq, !lookup_insert_ne by discriminate.
    destruct (decide (is_Some (Some x))) as [_ | Hx]; [| exfalso; eauto].
    destruct (decide (is_Some (Some y))) as [_ | Hy]; [| exfalso; eauto].
    reflexivity.
Qed.

(** ** [add_group]: default initial conditions *)

Lemma default_position : subscript default_initial_condition "position" = inr ANone.
Proof. unfold default_initial_condition, subscript. now rewrite lookup_insert_eq. Qed.

Lemma default_velocity : subscript default_initial_condition "velocity" = inr ANone.
Proof.
  unfold default_initial_condition, subscript.
  now rewrite lookup_insert_ne, lookup_insert_eq by discriminate.
Qed.

Lemma default_speed : subscript default_initial_condition "speed" = inr (ANum 0.01).
Proof.
  unfold default_initial_condition, subscript.
  now rewrite lookup_insert_ne, lookup_insert_ne, lookup_insert_eq by discriminate.
Qed.

(** Without the keyword [initial_condition], in a rectangular arena with a
    shape entry per dimension and one normal draw per agent: uniform
    positions and velocities of speed 0.01. *)
Lemma initial_conditions_default (rnd : np_random) (g : Geometry) (N : nat)
    (kwargs : gmap string pyval) :
  kwargs !! "initial_condition"%string = None →
  arena g = "rectangular"%string →
  (dimension g <= length (arena_shape g))%nat →
  length (multivariate_normal rnd N (dimension g)) = N →
  initial_conditions rnd g N kwargs
  = inr (Block2 (NDArray (dimension g)
                   (map (λ r, zip_with Rmult (map (λ u, u - 1 / 2) r) (arena_shape g))
                        (rand rnd N (dimension g)))),
         Block2 (NDArray (dimension g)
                   (zip_with scaled (replicate N 0.01)
                             (multivariate_normal rnd N (dimension g))))).
Proof.
  intros Hic Ha Hs Hm. unfold initial_conditions. rewrite Hic.
  destruct (decide (is_Some None)) as [[? ?] | _]; [discriminate |].
  cbn [rbind]. rewrite default_position. cbn [rbind is_none_or_str].
  unfold set_initial_positions, uniform_box. cbn [is_random_directive].
  rewrite Ha. cbn [String.eqb Ascii.eqb Bool.eqb].
  destruct (decide _); [| contradiction]. cbn [rbind].
  rewrite default_speed. cbn [rbind]. rewrite default_velocity.
  cbn [rbind is_none_or_str]. unfold set_initial_velocities.
  cbn [is_random_directive]. rewrite length_replicate, Hm.
  destruct (decide (N = N)); [reflexivity | contradiction].
Qed.

(** X20. An unknown agent type: with the default initial conditions in a
    rectangular arena, [add_group] with a type that is none of 'fixed',
    'blind', 'ripo' and 'rinno' (in any letter case) raises [ValueError]
    after it has added [N] to the agent count: the count no longer
    matches the arrays, all of which are as before the call. *)
Theorem add_group_unknown_type (rnd : np_random) (g : Geometry) (gtype : string)
    (N : nat) (kwargs : gmap string pyval) (a : Agents) :
  lower gtype ∉ atypes →
  kwargs !! "initial_condition"%string = None →
  arena g = "rectangular"%string →
  (dimension g <= length (arena_shape g))%nat →
  length (multivariate_normal rnd N (dimension g)) = N →
  add_group rnd g gtype N kwargs a
  = (inl ValueError, set_N_agents (N_agents a + N) a).
Proof.
  intros Ht Hic Ha Hs Hm. unfold add_group.
  rewrite initial_conditions_default by assumption. unfold define_agents.
  destruct (index_of (lower gtype) atypes) as [t |] eqn:E; [| reflexivity].
  apply index_of_Some in E as [E _]. exfalso. apply Ht.
  eapply list_elem_of_lookup_2. exact E.
Qed.

Lemma add_group_unknown_type_witness :
  add_group constant_draws (Geometry_init 2 None None None) "bird" 3 ∅ (Agents_init 2)
  = (inl ValueError, set_N_agents (N_agents (Agents_init 2) + 3) (Agents_init 2)).
Proof.
  apply add_group_unknown_type.
  - apply not_elem_of_cons. split; [discriminate |].
    apply not_elem_of_cons. split; [discriminate |].
    apply not_elem_of_cons. split; [discriminate |].
    apply not_elem_of_cons. split; [discriminate | apply not_elem_of_nil].
  - apply lookup_empty.
  - reflexivity.
  - apply le_n.
  - reflexivity.
Defined.

(** ** [add_group]: initial conditions given by the caller *)

Lemma initial_conditions_IC (rnd : np_random) (g : Geometry) (N : nat)
    (kwargs : gmap string pyval) (ic : pyval) :
  is_Some (kwargs !! "initial_condition"%string) →
  kwargs !! "IC"%string = Some ic →
  initial_conditions rnd g N kwargs
  = letE position := subscript ic "position" in
    letE pos :=
      (if is_none_or_str position
       then (letE p := set_initial_positions rnd g position N in inr (Block2 p))
       else inr (np_array position)) in
    letE speed0 := subscript ic "speed" in
    let speed := match speed0 with ANum x => AVec (replicate N x) | s => s end in
    letE velocity := subscript ic "velocity" in
    letE vel :=
      (if is_none_or_str velocity
       then set_initial_velocities rnd g velocity N speed
       else inr (np_array velocity)) in
    inr (pos, vel).
Proof.
  intros Hic HIC. unfold initial_conditions. rewrite HIC.
  destruct (decide (is_Some _)); [reflexivity | contradiction].
Qed.

(** X21. An unknown position directive: with the initial conditions given
    (keywords [initial_condition] and [IC]), a position that is a string
    other than 'random' and 'shuffle' makes [add_group] raise
    [UnboundLocalError] for [pos] and leave the agents as they were. *)
Theorem add_group_unknown_directive (rnd : np_random) (g : Geometry)
    (gtype : string) (N : nat) (kwargs : gmap string pyval) (a : Agents)
    (d : gmap string atom) (s : string) :
  is_Some (kwargs !! "initial_condition"%string) →
  kwargs !! "IC"%string = Some (Dict d) →
  d !! "position"%string = Some (AStr s) →
  s ≠ "random"%string → s ≠ "shuffle"%string →
  add_group rnd g gtype N kwargs a = (inl (UnboundLocalError "pos"), a).
Proof.
  intros Hic HIC Hp Hr Hs. unfold add_group.
  rewrite (initial_conditions_IC rnd g N kwargs (Dict d) Hic HIC).
  unfold subscript at 1. rewrite Hp. cbn [rbind is_none_or_str].
  unfold set_initial_positions. cbn [is_random_directive].
  apply String.eqb_neq in Hr, Hs. rewrite Hr, Hs. reflexivity.
Qed.

Lemma add_group_unknown_directive_witness :
  add_group constant_draws (Geometry_init 2 None None None) "blind" 4
    (<["initial_condition"%string := Atom ANone]>
       {[ "IC"%string := Dict {[ "position"%string := AStr "grid" ]} ]})
    (Agents_init 2)
  = (inl (UnboundLocalError "pos"), Agents_init 2).
Proof.
  apply (add_group_unknown_directive _ _ _ _ _ _
           {[ "position"%string := AStr "grid" ]} "grid").
  - rewrite lookup_insert_eq. eauto.
  - rewrite lookup_insert_ne by discriminate. apply lookup_singleton_eq.
  - apply lookup_singleton_eq.
  - discriminate.
  - discriminate.
Defined.

(** X22. Positions and velocities given by the caller are appended as they
    are, and their number of rows is not compared with [N]: with two
    arrays of the widths of the agents' arrays, a speed entry, a known
    type, a noise column two entries wide, and a group name and group
    names already there that neither are nor hold a numpy array (so that
    the search of the name among them compares without error),
    [add_group] succeeds; the count grows by [N], the positions and
    velocities by the rows of the arrays. *)
Theorem add_group_user_arrays (rnd : np_random) (g : Geometry) (gtype : string)
    (N : nat) (kwargs : gmap string pyval) (a : Agents)
    (d : gmap string atom) (P V : ndarray) :
  is_Some (kwargs !! "initial_condition"%string) →
  kwargs !! "IC"%string = Some (Dict d) →
  d !! "position"%string = Some (AArr P) →
  d !! "velocity"%string = Some (AArr V) →
  is_Some (d !! "speed"%string) →
  ncols P = ncols (pos a) → ncols V = ncols (vel a) → ncols (noise a) = 2%nat →
  lower gtype ∈ atypes →
  holds_array (default (Atom (AStr gtype)) (kwargs !! "name"%string)) = false →
  Forall (λ x, holds_array x = false) (group_names a) →
  ∃ a', add_group rnd g gtype N kwargs a = (inr (), a') ∧
        N_agents a' = (N_agents a + N)%nat ∧
        pos a' = NDArray (ncols (pos a)) (rows (pos a) ++ rows P) ∧
        vel a' = NDArray (ncols (vel a)) (rows (vel a) ++ rows V).
Proof.
  intros Hic HIC Hp Hv [sp Hsp] HcP HcV Hcn Ht Hname Hnames. unfold add_group.
  rewrite (initial_conditions_IC rnd g N kwargs (Dict d) Hic HIC).
  unfold subscript. rewrite Hp, Hsp, Hv. cbn [rbind is_none_or_str np_array].
  unfold define_agents.
  destruct (index_of (lower gtype) atypes) as [t |] eqn:E.
  2: { exfalso. now apply index_of_None in E. }
  unfold concatenate.
  cbn [pos vel noise set_N_agents set_atype set_pos set_vel set_noise
       group_noise ncols rows].
  rewrite (decide_True (P := ncols (pos a) = ncols P)) by congruence.
  cbn [pos vel noise set_N_agents set_atype set_pos set_vel set_noise ncols rows].
  rewrite (decide_True (P := ncols (vel a) = ncols V)) by congruence.
  cbn [pos vel noise set_N_agents set_atype set_pos set_vel set_noise ncols rows].
  rewrite (decide_True (P := ncols (noise a) = 2%nat)) by congruence.
  change (group_names (set_noise _ _)) with (group_names a).
  rewrite (name_index_plain _ _ Hname Hnames).
  destruct (index_of _ (group_names _)); eexists; (split; [reflexivity |]);
    repeat split.
Qed.

Lemma add_group_user_arrays_witness :
  ∃ a', add_group constant_draws (Geometry_init 2 None None None) "blind" 5
          (<["initial_condition"%string := Atom ANone]>
             {[ "IC"%string :=
                  Dict (<["position"%string := AArr (NDArray 2 [[0; 0]])]>
                         (<["velocity"%string := AArr (NDArray 2 [[1; 0]])]>
                            {[ "speed"%string := ANone ]})) ]})
          (one_agent 1 3 4 1 0 0 0) = (inr (), a') ∧
        N_agents a' = (N_agents (one_agent 1 3 4 1 0 0 0) + 5)%nat ∧
        pos a' = NDArray (ncols (pos (one_agent 1 3 4 1 0 0 0)))
                   (rows (pos (one_agent 1 3 4 1 0 0 0)) ++ rows (NDArray 2 [[0; 0]])) ∧
        vel a' = NDArray (ncols (vel (one_agent 1 3 4 1 0 0 0)))
                   (rows (vel (one_agent 1 3 4 1 0 0 0)) ++ rows (NDArray 2 [[1; 0]])).
Proof.
  eapply add_group_user_arrays.
  - rewrite lookup_insert_eq. eauto.
  - rewrite lookup_insert_ne by discriminate. apply lookup_singleton_eq.
  - apply lookup_insert_eq.
  - rewrite lookup_insert_ne by discriminate. apply lookup_insert_eq.
  - rewrite lookup_insert_ne, lookup_insert_ne, lookup_singleton_eq by discriminate.
    eauto.
  - reflexivity.
  - reflexivity.
  - reflexivity.
  - apply elem_of_cons. right. apply elem_of_cons. now left.
  - reflexivity.
  - repeat constructor.
Defined.

(** ** Initial positions *)

Lemma zip_with_lookup_Some {A B C : Type} (f : A → B → C) (l : list A)
    (k : list B) (i : nat) (z : C) :
  zip_with f l k !! i = Some z →
  ∃ x y, l !! i = Some x ∧ k !! i = Some y ∧ z = f x y.
Proof.
  rewrite lookup_zip_with. destruct (l !! i) as [x |]; [| discriminate].
  cbn [mbind option_bind]. destruct (k !! i) as [y |]; [| discriminate].
  cbn [mbind option_bind]. intros H. injection H as <-. eauto.
Qed.

Lemma uniform_box_inside (rnd : np_random) (g : Geometry) (n : nat) (p : ndarray) :
  uniform_box rnd g n = inr p →
  Forall (Forall (λ u, 0 <= u <= 1)) (rand rnd n (dimension g)) →
  Forall (λ s, 0 <= s) (arena_shape g) →
  ∀ row d x, row ∈ rows p → row !! d = Some x →
             ∃ s, arena_shape g !! d = Some s ∧ - (s / 2) <= x <= s / 2.
Proof.
  unfold uniform_box. destruct (decide _); [| discriminate].
  intros H Hu Hs row d x Hrow Hx. injection H as <-. cbn [rows] in Hrow.
  apply list_elem_of_fmap in Hrow as (r & -> & Hr).
  apply zip_with_lookup_Some in Hx as (y & s & Hy & Hsd & ->).
  rewrite list_lookup_fmap in Hy.
  destruct (r !! d) as [w |] eqn:Hw; [| discriminate]. injection Hy as <-.
  pose proof (proj1 (Forall_forall _ _) Hu r Hr) as Hr'.
  pose proof (proj1 (Forall_lookup _ _) Hr' d w Hw) as Hw'. cbn beta in Hw'.
  pose proof (proj1 (Forall_lookup _ _) Hs d s Hsd) as Hs'. cbn beta in Hs'.
  exists s. split; [exact Hsd | nra].
Qed.

(** X23. Random initial positions lie in the rectangular arena: when the
    draws of [np.random.rand] are in [0, 1] and the shape entries are not
    negative, every coordinate [d] of every position that
    [set_initial_positions] returns for a rectangular arena is within half
    the shape entry [d] of the origin, the half-extent that [run] hands to
    the kernel. *)
Theorem initial_positions_in_rectangle (rnd : np_random) (g : Geometry)
    (ptype : atom) (n : nat) (p : ndarray) :
  arena g = "rectangular"%string →
  set_initial_positions rnd g ptype n = inr p →
  Forall (Forall (λ u, 0 <= u <= 1)) (rand rnd n (dimension g)) →
  Forall (λ s, 0 <= s) (arena_shape g) →
  ∀ row d x, row ∈ rows p → row !! d = Some x →
             ∃ s, arena_size g d = inr s ∧ - s <= x <= s.
Proof.
  intros Ha H Hu Hs row d x Hrow Hx. unfold set_initial_positions in H.
  destruct (is_random_directive ptype); [| discriminate].
  rewrite Ha in H. cbn [String.eqb Ascii.eqb Bool.eqb] in H.
  destruct (uniform_box_inside rnd g n p H Hu Hs row d x Hrow Hx) as (s & Hsd & Hb).
  exists (s / 2). split; [| exact Hb].
  unfold arena_size, list_index. now rewrite Hsd.
Qed.

Lemma initial_positions_in_rectangle_witness :
  ∃ s, arena_size (Geometry_init 2 None None None) 0 = inr s ∧
       - s <= (1 / 2 - 1 / 2) * 1 <= s.
Proof.
  apply (initial_positions_in_rectangle constant_draws
           (Geometry_init 2 None None None) ANone 1
           (NDArray 2 [[(1 / 2 - 1 / 2) * 1; (1 / 2 - 1 / 2) * 1]])
           eq_refl eq_refl) with (row := [(1 / 2 - 1 / 2) * 1; (1 / 2 - 1 / 2) * 1]).
  - repeat constructor; lra.
  - repeat constructor; lra.
  - apply elem_of_cons. now left.
  - reflexivity.
Defined.

(** X24. Random initial positions lie in the circular arena: in dimension
    2, when the draws [u2] are in [0, 1] and the first shape entry [s] is
    not negative, every position that [set_initial_positions] returns for
    a circular arena is a pair at distance at most [s/2] from the
    origin, the radius that [run] hands to the kernel. *)
Theorem initial_positions_in_disc (rnd : np_random) (g : Geometry)
    (ptype : atom) (n : nat) (p : ndarray) (s : R) :
  arena g = "circular"%string → dimension g = 2%nat →
  set_initial_positions rnd g ptype n = inr p →
  Forall (λ u, 0 <= u <= 1) (rand_u2 rnd n) →
  arena_shape g !! 0%nat = Some s → 0 <= s →
  ∀ row, row ∈ rows p →
         ∃ x y, row = [x; y] ∧ Cabs (Complex x y) <= s / 2.
Proof.
  intros Ha Hd H Hu Hs0 Hs row Hrow. unfold set_initial_positions in H.
  destruct (is_random_directive ptype); [| discriminate].
  rewrite Ha, Hd in H. cbn [String.eqb Ascii.eqb Bool.eqb] in H.
  unfold uniform_disc, list_index in H. rewrite Hs0 in H. cbn [rbind] in H.
  injection H as <-. cbn [rows] in Hrow.
  apply list_elem_of_lookup_1 in Hrow as [i Hi].
  apply zip_with_lookup_Some in Hi as (u1 & u2 & _ & Hu2 & ->).
  pose proof (proj1 (Forall_lookup _ _) Hu i u2 Hu2) as Hb. cbn beta in Hb.
  eexists _, _. split; [reflexivity |].
  replace (Complex (sqrt u2 * cos (2 * PI * u1) * s / 2)
                   (sqrt u2 * sin (2 * PI * u1) * s / 2))
    with (rect (sqrt u2 * s / 2) (2 * PI * u1))
    by (unfold rect; f_equal; field).
  rewrite Cabs_rect_abs.
  assert (H1 : 0 <= sqrt u2 <= 1).
  { split; [apply sqrt_pos |]. rewrite <- sqrt_1. apply sqrt_le_1_alt. lra. }
  rewrite Rabs_pos_eq by nra. nra.
Qed.

Lemma initial_positions_in_disc_witness :
  ∃ x y, [sqrt 1 * cos (2 * PI * 0) * 1 / 2; sqrt 1 * sin (2 * PI * 0) * 1 / 2] = [x; y] ∧
         Cabs (Complex x y) <= 1 / 2.
Proof.
  apply (initial_positions_in_disc constant_draws
           (Geometry_init 2 (Some "circular"%string) None None) ANone 1
           (NDArray 2 [[sqrt 1 * cos (2 * PI * 0) * 1 / 2;
                        sqrt 1 * sin (2 * PI * 0) * 1 / 2]]) 1
           eq_refl eq_refl eq_refl).
  - repeat constructor; lra.
  - reflexivity.
  - lra.
  - apply elem_of_cons. now left.
Defined.

(** ** Initial velocities *)

Lemma sumsq_scale (c : R) (t : list R) :
  foldr Rplus 0 (map (λ y, y * y) (map (λ x, c * x) t))
  = c * c * foldr Rplus 0 (map (λ y, y * y) t).
Proof.
  induction t as [| x t IH]; cbn [map foldr]; [ring |]. rewrite IH. ring.
Qed.

Lemma norm_scaled (s : R) (t : list R) : norm t ≠ 0 → norm (scaled s t) = Rabs s.
Proof.
  intros Ht.
  assert (E : scaled s t = map (λ x, s / norm t * x) t).
  { unfold scaled. fold (norm t). apply map_ext. intros x. field. exact Ht. }
  rewrite E. unfold norm at 1. rewrite sumsq_scale.
  replace (foldr Rplus 0 (map (λ y, y * y) t)) with (norm t * norm t).
  - replace (s / norm t * (s / norm t) * (norm t * norm t)) with (Rsqr s)
      by (unfold Rsqr; field; exact Ht).
    apply sqrt_Rsqr_abs.
  - unfold norm. apply sqrt_sqrt.
    clear Ht E. induction t as [| x t IH]; cbn [map foldr]; [lra |].
    pose proof (Rle_0_sqr x) as Hx. unfold Rsqr in Hx. lra.
Qed.

(** X25. Random initial velocities have the requested speed: with one
    speed [s] for all [n] agents and one normal draw per agent, every
    velocity that [set_initial_velocities] returns whose draw is not the
    null vector has norm [|s|]. *)
Theorem initial_velocities_speed (rnd : np_random) (g : Geometry)
    (ptype : atom) (n : nat) (s : R) (v : ndarray) (i : nat) (row t : list R) :
  set_initial_velocities rnd g ptype n (AVec (replicate n s)) = inr (Block2 v) →
  length (multivariate_normal rnd n (dimension g)) = n →
  rows v !! i = Some row →
  multivariate_normal rnd n (dimension g) !! i = Some t → norm t ≠ 0 →
  norm row = Rabs s.
Proof.
  unfold set_initial_velocities. intros H Hm Hrow Ht Hn.
  destruct (is_random_directive ptype); [| discriminate].
  rewrite length_replicate, Hm in H.
  destruct (decide (n = n)); [| contradiction].
  injection H as <-. cbn [rows] in Hrow.
  apply zip_with_lookup_Some in Hrow as (s' & t' & Hs' & Ht' & ->).
  apply lookup_replicate in Hs' as [-> _].
  rewrite Ht in Ht'. injection Ht' as <-. now apply norm_scaled.
Qed.

Lemma initial_velocities_speed_witness :
  norm (scaled 0.01 [1; 1]) = Rabs 0.01.
Proof.
  apply (initial_velocities_speed constant_draws (Geometry_init 2 None None None)
           ANone 1 0.01 (NDArray 2 [scaled 0.01 [1; 1]]) 0 _ [1; 1]).
  - reflexivity.
  - reflexivity.
  - reflexivity.
  - reflexivity.
  - unfold norm. cbn [map foldr]. intros H.
    apply sqrt_eq_0 in H; lra.
Defined.

(** ** The parameters handed to the kernel *)

(** X26. Layout of the parameter vector: when the serialization of [run]
    succeeds the dimension [d] is 1, 2 or 3, the vector has [2d + 1]
    entries, entry 0 is the arena code (0 circular, 1 otherwise), entry
    [1 + k] is half the shape entry [k] and entry [1 + d + k] is the
    periodicity flag of axis [k], for every [k < d]. *)
Theorem serialize_param_layout (g : Geometry) (p : list R) :
  serialize_param g = inr p →
  (1 <= dimension g <= 3)%nat ∧ length p = (2 * dimension g + 1)%nat ∧
  p !! 0%nat = Some (arena_code g) ∧
  ∀ k, (k < dimension g)%nat →
       ∃ s b, arena_size g k = inr s ∧ p !! (1 + k)%nat = Some s ∧
              arena_periodicity g k = inr b ∧
              p !! (1 + dimension g + k)%nat = Some b.
Proof.
  unfold serialize_param. intros H.
  destruct (dimension g) as [| [| [| [| d]]]]; try discriminate.
  - destruct (arena_size g 0) as [? | x] eqn:Ex; [discriminate |].
    destruct (arena_periodicity g 0) as [? | px] eqn:Epx; [discriminate |].
    cbn [rbind] in H. injection H as <-.
    repeat lazymatch goal with |- _ ∧ _ => split end; try reflexivity; try lia.
    intros k Hk. destruct k as [| k]; [| lia]. eexists _, _. eauto.
  - destruct (arena_size g 0) as [? | x] eqn:Ex; [discriminate |].
    destruct (arena_size g 1) as [? | y] eqn:Ey; [discriminate |].
    destruct (arena_periodicity g 0) as [? | px] eqn:Epx; [discriminate |].
    destruct (arena_periodicity g 1) as [? | py] eqn:Epy; [discriminate |].
    cbn [rbind] in H. injection H as <-.
    repeat lazymatch goal with |- _ ∧ _ => split end; try reflexivity; try lia.
    intros k Hk. destruct k as [| [| k]]; [| | lia]; eexists _, _; eauto.
  - destruct (arena_size g 0) as [? | x] eqn:Ex; [discriminate |].
    destruct (arena_size g 1) as [? | y] eqn:Ey; [discriminate |].
    destruct (arena_size g 2) as [? | z] eqn:Ez; [discriminate |].
    destruct (arena_periodicity g 0) as [? | px] eqn:Epx; [discriminate |].
    destruct (arena_periodicity g 1) as [? | py] eqn:Epy; [discriminate |].
    destruct (arena_periodicity g 2) as [? | pz] eqn:Epz; [discriminate |].
    cbn [rbind] in H. injection H as <-.
    repeat lazymatch goal with |- _ ∧ _ => split end; try reflexivity; try lia.
    intros k Hk. destruct k as [| [| [| k]]]; [| | | lia]; eexists _, _; eauto.
Qed.

Lemma serialize_param_layout_witness :
  (1 <= dimension scenario_A_geometry <= 3)%nat ∧
  length [1; 2 / 2; 2 / 2; 1; 0] = (2 * dimension scenario_A_geometry + 1)%nat ∧
  [1; 2 / 2; 2 / 2; 1; 0] !! 0%nat = Some (arena_code scenario_A_geometry) ∧
  ∀ k, (k < dimension scenario_A_geometry)%nat →
       ∃ s b, arena_size scenario_A_geometry k = inr s ∧
              [1; 2 / 2; 2 / 2; 1; 0] !! (1 + k)%nat = Some s ∧
              arena_periodicity scenario_A_geometry k = inr b ∧
              [1; 2 / 2; 2 / 2; 1; 0] !! (1 + dimension scenario_A_geometry + k)%nat
              = Some b.
Proof. exact (serialize_param_layout _ _ scenario_A_param). Defined.

(** X27. A misspelt arena: the constructor accepts any arena name, but for
    a name other than 'circular' and 'rectangular' it sets no
    periodicity, and [run] (dimension 1, 2 or 3, a shape entry per
    dimension) raises [AttributeError] for [periodic] before any step. *)
Theorem run_unknown_arena (G : generator) (u : option R)
    (mem_p1 mem_v1 : nat → nat → R) (d : nat) (name : string)
    (kw_shape : option (list R)) (kw_periodic : option periodicity)
    (a : Agents) (n : nat) :
  name ≠ "circular"%string → name ≠ "rectangular"%string →
  (1 <= d <= 3)%nat →
  (d <= length (arena_shape (Geometry_init d (Some name) kw_shape kw_periodic)))%nat →
  Engine_run G u mem_p1 mem_v1
    (MkEngine (Geometry_init d (Some name) kw_shape kw_periodic) a n)
  = inl (AttributeError "periodic").
Proof.
  intros Hc Hr Hd Hs. unfold Engine_run, run_setup. cbn [geom].
  set (g := Geometry_init d (Some name) kw_shape kw_periodic) in *.
  assert (Hdim : dimension g = d) by reflexivity.
  assert (Hper : periodic g = None).
  { apply String.eqb_neq in Hc, Hr. unfold g, Geometry_init.
    cbn [periodic default from_option]. unfold Datatypes.id. now rewrite Hc, Hr. }
  unfold serialize_param, arena_size, arena_periodicity, list_index.
  rewrite Hdim, Hper. clearbody g.
  destruct (arena_shape g) as [| sx [| sy [| sz shape]]]; cbn [length] in Hs;
    destruct d as [| [| [| [| d]]]]; try lia; reflexivity.
Qed.

Lemma run_unknown_arena_witness :
  Engine_run null_generator None zeroed zeroed
    (MkEngine (Geometry_init 2 (Some "circle"%string) None None) (Agents_init 2) 1)
  = inl (AttributeError "periodic").
Proof. apply run_unknown_arena; [discriminate | discriminate | lia | apply le_n]. Defined.

(** ** The display *)

Lemma update_item_inr (a : Agents) (i : nat) (items items' : gmap nat item) :
  update_item a i items = (inr (), items') →
  ∃ p o, rows (pos a) !! i = Some p ∧ getitem (vel a) i 1 = Some o ∧
         is_Some (items !! i) ∧ items' = <[i := Item p (Some o)]> items.
Proof.
  unfold update_item.
  destruct (rows (pos a) !! i) as [p |]; [| discriminate].
  destruct (items !! i) as [it |]; [| discriminate].
  destruct (getitem (vel a) i 1) as [o |]; [| discriminate].
  intros H. injection H as <-. exists p, o.
  rewrite insert_insert_eq. eauto.
Qed.

Lemma update_display_from_inr (a : Agents) (idx : list nat)
    (items items' : gmap nat item) :
  NoDup idx →
  update_display_from a idx items = (inr (), items') →
  ∀ i,
    (i ∈ idx →
     ∃ t, atype a !! i = Some t ∧
          (t = 0%nat → items' !! i = items !! i) ∧
          (t ≠ 0%nat →
           ∃ p o, rows (pos a) !! i = Some p ∧ getitem (vel a) i 1 = Some o ∧
                  items' !! i = Some (Item p (Some o)))) ∧
    (i ∉ idx → items' !! i = items !! i).
Proof.
  intros Hnd. revert items.
  induction Hnd as [| j rest Hj Hnd IH]; intros items H; cbn [update_display_from] in H.
  - injection H as <-. intros i. split; [| reflexivity].
    intros Hi. now apply elem_of_nil in Hi.
  - destruct (atype a !! j) as [t |] eqn:Ht; [| discriminate].
    destruct (Nat.eqb_spec t 0) as [-> | Hne].
    + intros i. destruct (IH _ H i) as [Hin Hout]. split.
      * intros Hi. apply elem_of_cons in Hi as [-> | Hi]; [| now apply Hin].
        exists 0%nat. split; [exact Ht |]. split; [| congruence].
        intros _. exact (proj2 (IH _ H j) Hj).
      * intros Hi. apply not_elem_of_cons in Hi as [_ Hi]. now apply Hout.
    + destruct (update_item a j items) as [[e | []] items1] eqn:Hu; [discriminate |].
      apply update_item_inr in Hu as (p & o & Hp & Ho & _ & ->).
      intros i. destruct (IH _ H i) as [Hin Hout]. split.
      * intros Hi. apply elem_of_cons in Hi as [-> | Hi].
        -- exists t. split; [exact Ht |]. split; [contradiction |].
           intros _. exists p, o. repeat split; try assumption.
           rewrite (proj2 (IH _ H j) Hj). apply lookup_insert_eq.
        -- destruct (Hin Hi) as (t' & Ht' & H0 & H1). exists t'.
           split; [exact Ht' |]. split; [| exact H1].
           intros E. rewrite (H0 E). apply lookup_insert_ne. intros ->. contradiction.
      * intros Hi. apply not_elem_of_cons in Hi as [Hij Hi].
        rewrite (Hout Hi). apply lookup_insert_ne. congruence.
Qed.

(** X28. What [update_display] shows: when it returns, the item of every
    agent that is not Fixed has the position row of the agent and, as its
    orientation, entry 1 of the velocity row of the agent (the Y component
    of the velocity); the items of Fixed agents and all other items are
    as they were. *)
Theorem update_display_shows_state (a : Agents) (items items' : gmap nat item) :
  update_display a items = (inr (), items') →
  ∀ i,
    ((i < N_agents a)%nat →
     ∃ t, atype a !! i = Some t ∧
          (t = 0%nat → items' !! i = items !! i) ∧
          (t ≠ 0%nat →
           ∃ p o, rows (pos a) !! i = Some p ∧ getitem (vel a) i 1 = Some o ∧
                  items' !! i = Some (Item p (Some o)))) ∧
    ((N_agents a <= i)%nat → items' !! i = items !! i).
Proof.
  intros H i. unfold update_display in H.
  destruct (update_display_from_inr a _ items items' (NoDup_seq _ _) H i)
    as [Hin Hout].
  split; intros Hi; [apply Hin | apply Hout]; rewrite elem_of_seq; lia.
Qed.

Lemma update_display_shows_state_witness :
  (<[0%nat := Item [3; 4] (Some 0)]> ({[ 0%nat := Item [0; 0] None ]} : gmap nat item))
    !! 1%nat
  = ({[ 0%nat := Item [0; 0] None ]} : gmap nat item) !! 1%nat.
Proof.
  refine (proj2 (update_display_shows_state (one_agent 1 3 4 1 0 0 0)
                   {[ 0%nat := Item [0; 0] None ]} _ _ 1%nat) (le_n 1)).
  unfold update_display, one_agent. cbn [N_agents seq update_display_from atype
    lookup list_lookup Nat.eqb]. unfold update_item. cbn [pos vel rows lookup list_lookup].
  rewrite lookup_singleton_eq. unfold getitem. cbn [rows lookup list_lookup mbind option_bind].
  now rewrite insert_insert_eq.
Defined.

(** X29. A count that exceeds the types: when [N_agents] is larger than
    the number of types, as after an [add_group] that raised on an unknown
    type, [update_display] raises. *)
Theorem update_display_count_mismatch (a : Agents) (items : gmap nat item) :
  (length (atype a) < N_agents a)%nat →
  raises (update_display a items).1.
Proof.
  intros H. unfold update_display.
  assert (Hin : length (atype a) ∈ seq 0 (N_agents a)) by (apply elem_of_seq; lia).
  revert items Hin. generalize (seq 0 (N_agents a)).
  induction l as [| j rest IH]; intros items Hin; [now apply elem_of_nil in Hin |].
  cbn [update_display_from].
  destruct (atype a !! j) as [t |] eqn:Ht; [| now eexists].
  apply elem_of_cons in Hin as [<- | Hin].
  { apply lookup_lt_Some in Ht. lia. }
  destruct (Nat.eqb t 0); [now apply IH |].
  destruct (update_item a j items) as [[e | []] items1]; [now eexists | now apply IH].
Qed.

Lemma update_display_count_mismatch_witness :
  raises (update_display (set_N_agents (N_agents (Agents_init 2) + 3) (Agents_init 2)) ∅).1.
Proof. apply update_display_count_mismatch. cbn. lia. Defined.

(** ** The display after a step *)

Lemma Engine_step_published (G : generator) (u : option R) (i : nat)
    (a a' : Agents) (c c' : CUDA G) :
  Engine_step G u i (a, c) = Some (a', c') →
  ∃ r, CUDA_step G u (gridDim c) (blockDim c) (catype c)
         (source i c).1 (source i c).2 (source (S i) c).1 (source (S i) c).2
         (cnoise c) (param c) (rng c)
       = Some (pos a', vel a', r).
Proof.
  unfold Engine_step, source. rewrite parity_succ.
  destruct (negb (Nat.eqb (i mod 2) 0)); cbn [negb fst snd];
    destruct (CUDA_step _ _ _ _ _ _ _ _ _ _ _ _) as [[[q w] r] |]; try discriminate;
    cbn [mbind option_bind]; intros H; injection H as <- <-; now exists r.
Qed.

(** X30. The orientation on display is a velocity component, not a
    heading: after [Animation2d.update] in dimension 2, the item of an
    agent that is not Fixed shows the position row that the step
    published for the agent, and its orientation is entry 1, the Y
    component, of the velocity row that the step published; that row has
    the speed that the agent had in the buffers that the step read, so
    the magnitude of the orientation is at most that speed. *)
Theorem update_orientation_bounded (G : generator) (u : option R) (i : nat)
    (a a' : Agents) (c c' : CUDA G) (items items' : gmap nat item)
    (k t : nat) (vx vy : R) :
  Animation2d_update G u i (a, c) items = Some (a', c', (inr (), items')) →
  ncols (source i c).1 = 2%nat →
  shape_N2 (shape0 (source i c).1) (source (S i) c).2 →
  (k < shape0 (source i c).1)%nat → (k < gridDim c * blockDim c)%nat →
  (k < N_agents a')%nat → atype a' !! k = Some t → t ≠ 0%nat →
  rows (source i c).2 !! k = Some [vx; vy] →
  ∃ p wx wy,
    rows (pos a') !! k = Some p ∧
    rows (vel a') !! k = Some [wx; wy] ∧
    items' !! k = Some (Item p (Some wy)) ∧
    Cabs (Complex wx wy) = Cabs (Complex vx vy) ∧
    Rabs wy <= Cabs (Complex vx vy).
Proof.
  intros H Hdim Hshape Hk Hg HN Ht Hne Hv. unfold Animation2d_update in H.
  destruct (Engine_step G u i (a, c)) as [[a1 c1] |] eqn:Hs; [| discriminate].
  cbn [mbind option_bind fst] in H. injection H as -> -> Hd.
  destruct (Engine_step_published _ _ _ _ _ _ _ Hs) as [r Hl].
  unfold CUDA_step in Hl.
  destruct (threads_speed _ _ _ _ _ _ _ _ _ _ _ _ _ _ k vx vy Hdim (NoDup_seq _ _)
              Hshape Hl) as (wx & wy & Hw & Hsp);
    [apply elem_of_seq; lia | exact Hk | exact Hv |].
  unfold update_display in Hd.
  destruct (proj1 (update_display_from_inr _ _ _ _ (NoDup_seq _ _) Hd k))
    as (t' & Ht' & _ & Hshow); [apply elem_of_seq; lia |].
  rewrite Ht in Ht'. injection Ht' as <-.
  destruct (Hshow Hne) as (p & o & Hp & Ho & Hit).
  rewrite (getitem_row _ _ _ _ Hw) in Ho. injection Ho as <-.
  exists p, wx, wy.
  split; [exact Hp |]. split; [exact Hw |]. split; [exact Hit |].
  split; [exact Hsp |].
  rewrite <- Hsp. apply (imag_le_Cabs (Complex wx wy)).
Qed.

Lemma scenario_A_update :
  Animation2d_update null_generator None 1
    (one_agent 1 0.999 0 0.01 0 0 0,
     MkCUDA 32 1 [1; 2 / 2; 2 / 2; 1; 0]
            (NDArray 2 [[0.999; 0]]) (NDArray 2 [[0.01; 0]])
            (NDArray 2 [[0; 0]]) (NDArray 2 [[0; 0]])
            [1%nat] (NDArray 2 [[0; 0]]) [0%nat]
            (create_xoroshiro128p_states null_generator 32 0))
    {[ 0%nat := Item [0.999; 0] None ]}
  = Some (MkAgents 1 [1%nat] (NDArray 2 [[-0.991; 0]]) (NDArray 2 [[0.01; 0]])
                   (NDArray 2 [[0; 0]]) 1 [Atom (AStr "agent")] [0%nat],
          MkCUDA 32 1 [1; 2 / 2; 2 / 2; 1; 0]
                 (NDArray 2 [[0.999; 0]]) (NDArray 2 [[0.01; 0]])
                 (NDArray 2 [[-0.991; 0]]) (NDArray 2 [[0.01; 0]])
                 [1%nat] (NDArray 2 [[0; 0]]) [0%nat]
                 (<[0%nat := advance null_generator (init_state null_generator 0 0)]>
                    (create_xoroshiro128p_states null_generator 32 0)),
          (inr (), <[0%nat := Item [-0.991; 0] (Some 0)]>
                     ({[ 0%nat := Item [0.999; 0] None ]} : gmap nat item))).
Proof.
  unfold Animation2d_update, Engine_step, one_agent.
  cbn [Nat.modulo Nat.divmod Nat.eqb negb fst snd Nat.sub gridDim blockDim catype
       cp0 cv0 cp1 cv1 cnoise cgroup param rng N_agents atype pos vel noise
       N_groups group_names group].
  rewrite scenario_A_launch. cbn [mbind option_bind fst].
  unfold update_display.
  cbn [N_agents seq update_display_from atype lookup list_lookup Nat.eqb].
  unfold update_item. cbn [pos vel rows lookup list_lookup].
  rewrite lookup_singleton_eq. unfold getitem.
  cbn [rows lookup list_lookup mbind option_bind orientation].
  now rewrite insert_insert_eq.
Qed.

Lemma update_orientation_bounded_witness :
  ∃ p wx wy,
    rows (NDArray 2 [[-0.991; 0]]) !! 0%nat = Some p ∧
    rows (NDArray 2 [[0.01; 0]]) !! 0%nat = Some [wx; wy] ∧
    (<[0%nat := Item [-0.991; 0] (Some 0)]>
       ({[ 0%nat := Item [0.999; 0] None ]} : gmap nat item)) !! 0%nat
    = Some (Item p (Some wy)) ∧
    Cabs (Complex wx wy) = Cabs (Complex 0.01 0) ∧
    Rabs wy <= Cabs (Complex 0.01 0).
Proof.
  apply (update_orientation_bounded _ _ _ _ _ _ _ _ _ 0%nat 1%nat 0.01 0
           scenario_A_update).
  - reflexivity.
  - split; [reflexivity | split; [reflexivity | repeat constructor]].
  - apply le_n.
  - cbn [gridDim blockDim]. lia.
  - apply le_n.
  - reflexivity.
  - discriminate.
  - reflexivity.
Defined.
